(** * Zombie-ZPL: tokenizer and recursive-descent parser

    A shallow embedding of [backend/src/parser/parser.ts] (classes
    [ZplTokenizer] and [ZplParser]) and of the node types of
    [shared/ast-types.ts], followed by the properties of the
    specification that concern them.

    Conventions of the embedding:
    - a JavaScript string is the list of its UTF-16 code units ([str]);
      [lit] turns a Rocq string literal into such a list;
    - the mutable fields of a class become a record which every method
      receives and returns;
    - a [while] loop becomes a recursion on a fuel argument; the theorems
      show that the fuel the entry points supply is never exhausted;
    - [x[i]] on an array is [nth_error]; reading a property of
      [undefined] raises [TypeError];
    - a number is an integer of [Z] (the doubles of JavaScript agree with
      it below 2^53);
    - the limits of an engine (depth of the call stack, number of
      arguments of a spread call, length of a string) are not modelled. *)

From Stdlib Require Import Ascii String.
From Stdlib Require Import List NArith ZArith Arith Bool Lia Sorted.
Import ListNotations.

(** ** Strings *)

Definition char := N.
Definition str := list char.

Definition lit (s : string) : str := map N_of_ascii (list_ascii_of_string s).

Fixpoint str_eqb (a b : str) : bool :=
  match a, b with
  | [], [] => true
  | x :: a', y :: b' => N.eqb x y && str_eqb a' b'
  | _, _ => false
  end.

Definition ch_caret : char := 94%N.
Definition ch_newline : char := 10%N.
Definition ch_comma : char := 44%N.
Definition ch_slash : char := 47%N.
Definition ch_star : char := 42%N.

(** The code units of the class [\s] of a regular expression, which are
    also those [parseInt] skips at the start of its argument. *)
Definition isJsWhiteSpace (c : char) : bool :=
  ((9 <=? c) && (c <=? 13) || (c =? 32) || (c =? 160) || (c =? 5760)
   || (8192 <=? c) && (c <=? 8202) || (c =? 8232) || (c =? 8233)
   || (c =? 8239) || (c =? 8287) || (c =? 12288) || (c =? 65279))%N.

(** [s += x] where [x] may be [undefined]. *)
Definition str_of_index (o : option char) : str :=
  match o with
  | Some c => [c]
  | None => lit "undefined"
  end.

(** ** shared/ast-types.ts *)

Module SourcePosition.
Record t := mk { line : nat; column : nat; offset : nat }.
End SourcePosition.

Inductive Severity := ERROR | WARNING.

Module ParseError.
Record t := mk {
  message : str;
  position : SourcePosition.t;
  severity : Severity;
  code : str }.
End ParseError.

Module ParseWarning.
Record t := mk {
  message : str;
  position : SourcePosition.t;
  suggestion : option str }.
End ParseWarning.

(** ** Tokens *)

Inductive TokenType :=
| COMMAND_START
| COMMAND_CODE
| PARAMETER
| STRING_CONTENT
| COMMENT
| NEWLINE
| EOF.

Definition TokenType_eqb (a b : TokenType) : bool :=
  match a, b with
  | COMMAND_START, COMMAND_START
  | COMMAND_CODE, COMMAND_CODE
  | PARAMETER, PARAMETER
  | STRING_CONTENT, STRING_CONTENT
  | COMMENT, COMMENT
  | NEWLINE, NEWLINE
  | EOF, EOF => true
  | _, _ => false
  end.

Module Token.
Record t := mk {
  type : TokenType;
  value : str;
  position : SourcePosition.t;
  raw : str }.
End Token.

(** ** class ZplTokenizer

    [tokenizeStringContent] is never called and is left out. *)

Module ZplTokenizer.

Record state := mkState {
  position : nat;
  line : nat;
  column : nat;
  tokens : list Token.t;
  errors : list ParseError.t }.

(** [/[A-Z0-9@]/.test(char)] *)
Definition isCommandChar (c : char) : bool :=
  ((65 <=? c) && (c <=? 90) || (48 <=? c) && (c <=? 57) || (c =? 64))%N.

(** [/[\s\t\r]/.test(char)]: tab and CR are already in [\s]. *)
Definition isWhitespace (c : char) : bool := isJsWhiteSpace c.

Definition advance (count : nat) (st : state) : state :=
  mkState (position st + count) (line st) (column st + count)
          (tokens st) (errors st).

Definition getCurrentPosition (st : state) : SourcePosition.t :=
  SourcePosition.mk (line st) (column st) (position st).

Definition addError (message : str) (st : state) : state :=
  mkState (position st) (line st) (column st) (tokens st)
          (errors st ++ [ParseError.mk message (getCurrentPosition st)
                                       ERROR (lit "TOKENIZER_ERROR")]).

Definition push (tok : Token.t) (st : state) : state :=
  mkState (position st) (line st) (column st) (tokens st ++ [tok])
          (errors st).

Section WithSource.

Variable source : str.

(** [this.source.substring(this.position, this.position + offset)] *)
Definition peek (offset : nat) (st : state) : str :=
  firstn offset (skipn (position st) source).

(** The loop of [tokenizeCommand] that gathers the command code. *)
Fixpoint tokenizeCommand_loop (fuel : nat) (commandCode : str)
         (st : state) : option (str * state) :=
  match fuel with
  | 0 => None
  | S fuel' =>
      match nth_error source (position st) with
      | Some c =>
          if isCommandChar c
          then tokenizeCommand_loop fuel' (commandCode ++ [c])
                                    (advance 1 st)
          else Some (commandCode, st)
      | None => Some (commandCode, st)
      end
  end.

(** The inner loop of [tokenizeParameters]: one parameter. *)
Fixpoint tokenizeParameters_inner (fuel : nat) (parameter : str)
         (st : state) : option (str * state) :=
  match fuel with
  | 0 => None
  | S fuel' =>
      match nth_error source (position st) with
      | Some paramChar =>
          if (paramChar =? ch_comma)%N || (paramChar =? ch_caret)%N
             || (paramChar =? ch_newline)%N || isWhitespace paramChar
          then Some (parameter, st)
          else tokenizeParameters_inner fuel' (parameter ++ [paramChar])
                                        (advance 1 st)
      | None => Some (parameter, st)
      end
  end.

Fixpoint tokenizeParameters_loop (fuel : nat) (st : state)
  : option state :=
  match fuel with
  | 0 => None
  | S fuel' =>
      match nth_error source (position st) with
      | Some c =>
          if (c =? ch_caret)%N || (c =? ch_newline)%N then Some st
          else if (c =? ch_comma)%N
          then tokenizeParameters_loop fuel' (advance 1 st)
          else if negb (isWhitespace c) then
            let paramStart := getCurrentPosition st in
            match tokenizeParameters_inner (S (length source)) [] st with
            | Some (parameter, st1) =>
                tokenizeParameters_loop fuel'
                  (match parameter with
                   | [] => st1
                   | _ => push (Token.mk PARAMETER parameter paramStart
                                         parameter) st1
                   end)
            | None => None
            end
          else tokenizeParameters_loop fuel' (advance 1 st)
      | None => Some st
      end
  end.

Definition tokenizeParameters (st : state) : option state :=
  tokenizeParameters_loop (S (length source)) st.

Definition tokenizeCommand (st : state) : option state :=
  let startPos := getCurrentPosition st in
  let st1 := advance 1 st in
  match tokenizeCommand_loop (S (length source)) [] st1 with
  | Some (commandCode, st2) =>
      match commandCode with
      | _ :: _ =>
          let st3 := push (Token.mk COMMAND_START (lit "^") startPos
                                    (lit "^")) st2 in
          let st4 :=
            push (Token.mk COMMAND_CODE commandCode
                    (SourcePosition.mk
                       (SourcePosition.line startPos)
                       (SourcePosition.column startPos + 1)
                       (SourcePosition.offset startPos))
                    commandCode) st3 in
          tokenizeParameters st4
      | [] => Some (addError (lit "Empty command after ^") st2)
      end
  | None => None
  end.

Definition tokenizeNewline (st : state) : state :=
  let st1 := push (Token.mk NEWLINE [ch_newline] (getCurrentPosition st)
                            [ch_newline]) st in
  mkState (position st1 + 1) (line st1 + 1) 1 (tokens st1) (errors st1).

Fixpoint tokenizeLineComment_loop (fuel : nat) (comment : str)
         (st : state) : option (str * state) :=
  match fuel with
  | 0 => None
  | S fuel' =>
      match nth_error source (position st) with
      | Some c =>
          if negb (c =? ch_newline)%N
          then tokenizeLineComment_loop fuel' (comment ++ [c])
                                        (advance 1 st)
          else Some (comment, st)
      | None => Some (comment, st)
      end
  end.

Definition tokenizeLineComment (st : state) : option state :=
  let startPos := getCurrentPosition st in
  let st1 := advance 2 st in
  match tokenizeLineComment_loop (S (length source)) (lit "//") st1 with
  | Some (comment, st2) =>
      Some (push (Token.mk COMMENT comment startPos comment) st2)
  | None => None
  end.

Fixpoint tokenizeBlockComment_loop (fuel : nat) (comment : str)
         (st : state) : option (str * state) :=
  match fuel with
  | 0 => None
  | S fuel' =>
      if position st <? length source - 1 then
        if match nth_error source (position st),
                 nth_error source (position st + 1) with
           | Some a, Some b => (a =? ch_star)%N && (b =? ch_slash)%N
           | _, _ => false
           end
        then Some (comment ++ lit "*/", advance 2 st)
        else tokenizeBlockComment_loop fuel'
               (comment ++ str_of_index (nth_error source (position st)))
               (advance 1 st)
      else Some (comment, st)
  end.

Definition tokenizeBlockComment (st : state) : option state :=
  let startPos := getCurrentPosition st in
  let st1 := advance 2 st in
  match tokenizeBlockComment_loop (S (length source)) (lit "/*") st1 with
  | Some (comment, st2) =>
      Some (push (Token.mk COMMENT comment startPos comment) st2)
  | None => None
  end.

(** One turn of the [while] loop of [tokenize], at character [c]. *)
Definition tokenize_step (c : char) (st : state) : option state :=
  if (c =? ch_caret)%N then tokenizeCommand st
  else if (c =? ch_newline)%N then Some (tokenizeNewline st)
  else if (c =? ch_slash)%N && str_eqb (peek 1 st) (lit "/")
  then tokenizeLineComment st
  else if (c =? ch_slash)%N && str_eqb (peek 1 st) (lit "*")
  then tokenizeBlockComment st
  else if isWhitespace c then Some (advance 1 st)
  else Some (advance 1 (addError (lit "Unexpected character: " ++ [c])
                                 st)).

Fixpoint tokenize_loop (fuel : nat) (st : state) : option state :=
  match fuel with
  | 0 => None
  | S fuel' =>
      match nth_error source (position st) with
      | Some c =>
          match tokenize_step c st with
          | Some st' => tokenize_loop fuel' st'
          | None => None
          end
      | None => Some st
      end
  end.

Definition tokenize : option (list Token.t * list ParseError.t) :=
  match tokenize_loop (S (length source)) (mkState 0 1 1 [] []) with
  | Some st =>
      let st' := push (Token.mk EOF (lit "EOF") (getCurrentPosition st)
                                []) st in
      Some (tokens st', errors st')
  | None => None
  end.

End WithSource.

End ZplTokenizer.

(** ** Command nodes (shared/ast-types.ts) *)

Inductive Orientation := OrientN | OrientR | OrientI | OrientB.

Inductive BoxColor := ColorB | ColorW.

(** The value of the field [parameters] of a node: the array that
    [parseParameters] returns, the literal [{}] or the literal
    [{ content }]. *)
Inductive Parameters :=
| ParamArray (values : list str)
| ParamNone
| ParamContent (content : str).

(** One constructor for each object literal the parser returns; the last
    one is the [{}] of the three stubs. *)
Inductive AnyZplCommand :=
| LabelStart (raw : str) (position : SourcePosition.t) (parameters : list str)
| LabelEnd (raw : str) (position : SourcePosition.t)
| LabelLength (raw : str) (position : SourcePosition.t) (length : Z)
              (parameters : list str)
| LabelHome (raw : str) (position : SourcePosition.t) (x y : Z)
            (parameters : list str)
| FieldOrigin (raw : str) (position : SourcePosition.t) (x y : Z)
              (parameters : list str)
| GraphicBox (raw : str) (position : SourcePosition.t)
             (width height thickness : Z) (color : BoxColor)
             (rounding : option Z) (parameters : list str)
| FieldData (raw : str) (position : SourcePosition.t) (content : str)
            (stopCommand : bool)
| FontSelection (raw : str) (position : SourcePosition.t) (font : str)
                (orientation : Orientation) (height : Z) (width : option Z)
                (parameters : list str)
| Barcode (command : str) (raw : str) (position : SourcePosition.t)
          (orientation : Orientation) (height : Z)
          (printInterpretationLine printAboveCode : bool)
          (mode : option str) (data : str) (parameters : list str)
| GenericCommand (command : str) (raw : str) (position : SourcePosition.t)
                 (parameters : list str)
| EmptyObject.

(** The shared fields of [ZplCommand]; [None] is [undefined]. *)
Definition cmd_type (c : AnyZplCommand) : option str :=
  match c with
  | LabelStart _ _ _ => Some (lit "LABEL_START")
  | LabelEnd _ _ => Some (lit "LABEL_END")
  | LabelLength _ _ _ _ => Some (lit "LABEL_LENGTH")
  | LabelHome _ _ _ _ _ => Some (lit "LABEL_HOME")
  | FieldOrigin _ _ _ _ _ => Some (lit "FIELD_ORIGIN")
  | GraphicBox _ _ _ _ _ _ _ _ => Some (lit "GRAPHIC_BOX")
  | FieldData _ _ _ _ => Some (lit "FIELD_DATA")
  | FontSelection _ _ _ _ _ _ _ => Some (lit "FONT_SELECTION")
  | Barcode _ _ _ _ _ _ _ _ _ _ => Some (lit "BARCODE")
  | GenericCommand _ _ _ _ => Some (lit "GENERIC_COMMAND")
  | EmptyObject => None
  end.

Definition cmd_command (c : AnyZplCommand) : option str :=
  match c with
  | LabelStart _ _ _ => Some (lit "XA")
  | LabelEnd _ _ => Some (lit "XZ")
  | LabelLength _ _ _ _ => Some (lit "LL")
  | LabelHome _ _ _ _ _ => Some (lit "LH")
  | FieldOrigin _ _ _ _ _ => Some (lit "FO")
  | GraphicBox _ _ _ _ _ _ _ _ => Some (lit "GB")
  | FieldData _ _ _ _ => Some (lit "FD")
  | FontSelection _ _ _ _ _ _ _ => Some (lit "A")
  | Barcode command _ _ _ _ _ _ _ _ _ => Some command
  | GenericCommand command _ _ _ => Some command
  | EmptyObject => None
  end.

Definition cmd_raw (c : AnyZplCommand) : option str :=
  match c with
  | LabelStart raw _ _ | LabelEnd raw _ | LabelLength raw _ _ _
  | LabelHome raw _ _ _ _ | FieldOrigin raw _ _ _ _
  | GraphicBox raw _ _ _ _ _ _ _ | FieldData raw _ _ _
  | FontSelection raw _ _ _ _ _ _ | Barcode _ raw _ _ _ _ _ _ _ _
  | GenericCommand _ raw _ _ => Some raw
  | EmptyObject => None
  end.

Definition cmd_position (c : AnyZplCommand) : option SourcePosition.t :=
  match c with
  | LabelStart _ p _ | LabelEnd _ p | LabelLength _ p _ _
  | LabelHome _ p _ _ _ | FieldOrigin _ p _ _ _
  | GraphicBox _ p _ _ _ _ _ _ | FieldData _ p _ _
  | FontSelection _ p _ _ _ _ _ | Barcode _ _ p _ _ _ _ _ _ _
  | GenericCommand _ _ p _ => Some p
  | EmptyObject => None
  end.

Definition cmd_parameters (c : AnyZplCommand) : option Parameters :=
  match c with
  | LabelStart _ _ ps | LabelLength _ _ _ ps | LabelHome _ _ _ _ ps
  | FieldOrigin _ _ _ _ ps | GraphicBox _ _ _ _ _ _ _ ps
  | FontSelection _ _ _ _ _ _ ps | Barcode _ _ _ _ _ _ _ _ _ ps
  | GenericCommand _ _ _ ps => Some (ParamArray ps)
  | LabelEnd _ _ => Some ParamNone
  | FieldData _ _ content _ => Some (ParamContent content)
  | EmptyObject => None
  end.

Module ZplDocument.
(** [type] is always ['ZPL_DOCUMENT']; [metadata] is flattened. *)
Record t := mk {
  commands : list AnyZplCommand;
  source : str;
  errors : list ParseError.t;
  warnings : list ParseWarning.t;
  labelWidth : option Z;
  labelLength : option Z }.
End ZplDocument.

(** ** [parseInt(value, 10)] *)

Definition isDigit (c : char) : bool := ((48 <=? c) && (c <=? 57))%N.

(** The longest prefix of decimal digits, read as a number; [acc] is
    [None] as long as no digit was read. *)
Fixpoint parseDigits (s : str) (acc : option Z) : option Z :=
  match s with
  | c :: s' =>
      if isDigit c
      then parseDigits s'
             (Some (10 * match acc with Some n => n | None => 0 end
                    + Z.of_N (c - 48)))%Z
      else acc
  | [] => acc
  end.

Fixpoint skipWhiteSpace (s : str) : str :=
  match s with
  | c :: s' => if isJsWhiteSpace c then skipWhiteSpace s' else s
  | [] => []
  end.

(** [None] is [NaN]; the argument [None] is [undefined], which
    [parseInt] first turns into the string ["undefined"]. *)
Definition parseInt (value : option str) : option Z :=
  let s := match value with Some v => v | None => lit "undefined" end in
  match skipWhiteSpace s with
  | c :: s' =>
      if (c =? 45)%N then option_map Z.opp (parseDigits s' None)
      else if (c =? 43)%N then parseDigits s' None
      else parseDigits (c :: s') None
  | [] => None
  end.

(** ** class ZplParser *)

Module ZplParser.

Record state := mkState {
  tokens : list Token.t;
  current : nat;
  errors : list ParseError.t;
  warnings : list ParseWarning.t }.

(** What a method can throw: the [ParseError] that [consume] throws,
    the [TypeError] of a property read on [undefined], or the
    [RangeError] of a call with more arguments than the engine
    accepts. *)
Inductive Exn :=
| ParseFailure (e : ParseError.t)
| TypeError
| RangeError.

Inductive Outcome (A : Type) :=
| Ok (a : A) (st : state)
| Throw (e : Exn) (st : state)
| OutOfFuel.

Arguments Ok {A} a st.
Arguments Throw {A} e st.
Arguments OutOfFuel {A}.

Definition M (A : Type) := state -> Outcome A.

Definition ret {A} (a : A) : M A := fun st => Ok a st.

Definition bind {A B} (m : M A) (f : A -> M B) : M B :=
  fun st =>
    match m st with
    | Ok a st' => f a st'
    | Throw e st' => Throw e st'
    | OutOfFuel => OutOfFuel
    end.

Definition throw {A} (e : Exn) : M A := fun st => Throw e st.

Definition outOfFuel {A} : M A := fun _ => OutOfFuel.

Definition tryCatch {A} (m : M A) (handler : Exn -> M A) : M A :=
  fun st =>
    match m st with
    | Throw e st' => handler e st'
    | r => r
    end.

Definition gets {A} (f : state -> A) : M A := fun st => Ok (f st) st.

Declare Scope parser_scope.
Delimit Scope parser_scope with parser.
Notation "x <- m ;; k" := (bind m (fun x => k))
  (at level 61, m at next level, right associativity) : parser_scope.
Notation "m ;; k" := (bind m (fun _ => k))
  (at level 61, right associativity) : parser_scope.
Local Open Scope parser_scope.

(** Property reads on a value that may be [undefined]. *)
Definition typeOf (t : option Token.t) : M TokenType :=
  match t with
  | Some t => ret (Token.type t)
  | None => throw TypeError
  end.

Definition valueOf (t : option Token.t) : M str :=
  match t with
  | Some t => ret (Token.value t)
  | None => throw TypeError
  end.

Definition positionOf (t : option Token.t) : M SourcePosition.t :=
  match t with
  | Some t => ret (Token.position t)
  | None => throw TypeError
  end.

(** *** Parser utility methods *)

Definition peek : M (option Token.t) :=
  fun st => Ok (nth_error (tokens st) (current st)) st.

Definition peekNext : M (option Token.t) :=
  fun st =>
    Ok (if length (tokens st) <=? current st + 1 then None
        else nth_error (tokens st) (current st + 1)) st.

(** [this.tokens[this.current - 1]]: index [-1] holds nothing. *)
Definition previous : M (option Token.t) :=
  fun st =>
    Ok (match current st with
        | 0 => None
        | S n => nth_error (tokens st) n
        end) st.

Definition isAtEnd : M bool :=
  t <- peek ;;
  ty <- typeOf t ;;
  ret (TokenType_eqb ty EOF).

Definition check (type : TokenType) : M bool :=
  e <- isAtEnd ;;
  if e then ret false
  else
    t <- peek ;;
    ty <- typeOf t ;;
    ret (TokenType_eqb ty type).

Definition advance : M (option Token.t) :=
  e <- isAtEnd ;;
  (if negb e
   then fun st => Ok tt (mkState (tokens st) (current st + 1) (errors st)
                                 (warnings st))
   else ret tt) ;;
  previous.

Fixpoint match_ (types : list TokenType) : M bool :=
  match types with
  | [] => ret false
  | type :: types' =>
      c <- check type ;;
      if c then advance ;; ret true else match_ types'
  end.

Definition addError (message : str) (position : SourcePosition.t)
  : M ParseError.t :=
  fun st =>
    let error := ParseError.mk message position ERROR (lit "PARSER_ERROR") in
    Ok error (mkState (tokens st) (current st) (errors st ++ [error])
                      (warnings st)).

Definition addWarning (message : str) (position : SourcePosition.t)
           (suggestion : option str) : M unit :=
  fun st =>
    Ok tt (mkState (tokens st) (current st) (errors st)
                   (warnings st
                    ++ [ParseWarning.mk message position suggestion])).

Definition consume (type : TokenType) (message : str)
  : M (option Token.t) :=
  c <- check type ;;
  if c then advance
  else
    t <- peek ;;
    position <- positionOf t ;;
    error <- addError message position ;;
    throw (ParseFailure error).

Fixpoint synchronize_loop (fuel : nat) : M unit :=
  match fuel with
  | 0 => outOfFuel
  | S fuel' =>
      e <- isAtEnd ;;
      if e then ret tt
      else
        p <- previous ;;
        ty <- typeOf p ;;
        if TokenType_eqb ty NEWLINE then ret tt
        else
          c <- check COMMAND_START ;;
          if c then ret tt
          else advance ;; synchronize_loop fuel'
  end.

Definition synchronize : M unit :=
  advance ;;
  n <- gets (fun st => length (tokens st)) ;;
  synchronize_loop (S n).

(** *** Utility parsing methods *)

Fixpoint parseParameters_loop (fuel : nat) (parameters : list str)
  : M (list str) :=
  match fuel with
  | 0 => outOfFuel
  | S fuel' =>
      c <- check PARAMETER ;;
      if c then
        paramToken <- advance ;;
        v <- valueOf paramToken ;;
        parseParameters_loop fuel' (parameters ++ [v])
      else ret parameters
  end.

Definition parseParameters : M (list str) :=
  n <- gets (fun st => length (tokens st)) ;;
  parseParameters_loop (S n) [].

Definition parseNumberParameter (value : option str) (defaultValue : Z)
  : Z :=
  match parseInt value with
  | Some num => num
  | None => defaultValue
  end.

Definition parseBooleanParameter (value : option str)
           (defaultValue : bool) : bool :=
  match value with
  | Some v =>
      if str_eqb v (lit "Y") then true
      else if str_eqb v (lit "N") then false
      else defaultValue
  | None => defaultValue
  end.

Definition parseOrientation (value : option str) : Orientation :=
  match value with
  | Some v =>
      if str_eqb v (lit "N") then OrientN
      else if str_eqb v (lit "R") then OrientR
      else if str_eqb v (lit "I") then OrientI
      else if str_eqb v (lit "B") then OrientB
      else OrientN
  | None => OrientN
  end.

(** [parameters[i] ? ... : undefined]: a string is truthy when it is
    not empty. *)
Definition truthy (value : option str) : bool :=
  match value with
  | Some (_ :: _) => true
  | _ => false
  end.

(** *** Grammar rules *)

Definition parseLabelStart (startToken commandToken : option Token.t)
  : M AnyZplCommand :=
  v <- valueOf commandToken ;;
  let raw := lit "^" ++ v in
  position <- positionOf startToken ;;
  parameters <- parseParameters ;;
  ret (LabelStart raw position parameters).

Definition parseLabelEnd (startToken commandToken : option Token.t)
  : M AnyZplCommand :=
  v <- valueOf commandToken ;;
  let raw := lit "^" ++ v in
  position <- positionOf startToken ;;
  ret (LabelEnd raw position).

Definition parseLabelLength (startToken commandToken : option Token.t)
  : M AnyZplCommand :=
  v <- valueOf commandToken ;;
  let raw := lit "^" ++ v in
  parameters <- parseParameters ;;
  let length := parseNumberParameter (nth_error parameters 0) 100 in
  position <- positionOf startToken ;;
  ret (LabelLength raw position length parameters).

Definition parseLabelHome (startToken commandToken : option Token.t)
  : M AnyZplCommand :=
  v <- valueOf commandToken ;;
  let raw := lit "^" ++ v in
  parameters <- parseParameters ;;
  (if length parameters <? 2
   then
     position <- positionOf startToken ;;
     addError (lit "LH command requires x and y parameters") position ;;
     ret tt
   else ret tt) ;;
  let x := parseNumberParameter (nth_error parameters 0) 0 in
  let y := parseNumberParameter (nth_error parameters 1) 0 in
  position <- positionOf startToken ;;
  ret (LabelHome raw position x y parameters).

Definition parseFieldOrigin (startToken commandToken : option Token.t)
  : M AnyZplCommand :=
  v <- valueOf commandToken ;;
  let raw := lit "^" ++ v in
  parameters <- parseParameters ;;
  (if length parameters <? 2
   then
     position <- positionOf startToken ;;
     addError (lit "FO command requires x and y parameters") position ;;
     ret tt
   else ret tt) ;;
  let x := parseNumberParameter (nth_error parameters 0) 0 in
  let y := parseNumberParameter (nth_error parameters 1) 0 in
  position <- positionOf startToken ;;
  ret (FieldOrigin raw position x y parameters).

Definition isCommandCode (t : option Token.t) : bool :=
  match t with
  | Some t => TokenType_eqb (Token.type t) COMMAND_CODE
  | None => false
  end.

(** [this.check(COMMAND_START) && this.peekNext()?.type === COMMAND_CODE] *)
Definition commandFollows : M bool :=
  c <- check COMMAND_START ;;
  if c then n <- peekNext ;; ret (isCommandCode n) else ret false.

Definition tokenAt (i : nat) : M (option Token.t) :=
  fun st => Ok (nth_error (tokens st) i) st.

Definition parseFieldData (startToken commandToken : option Token.t)
  : M AnyZplCommand :=
  v <- valueOf commandToken ;;
  let raw := lit "^" ++ v in
  c <- check PARAMETER ;;
  content <- (if c
              then contentToken <- advance ;; valueOf contentToken
              else ret []) ;;
  f <- commandFollows ;;
  stopCommand <-
    (if f then
       i <- gets current ;;
       nextCommand <- tokenAt (i + 1) ;;
       nv <- valueOf nextCommand ;;
       if str_eqb nv (lit "FS")
       then advance ;; advance ;; ret true
       else ret false
     else ret false) ;;
  position <- positionOf startToken ;;
  ret (FieldData raw position content stopCommand).

Definition parseBarcode (startToken commandToken : option Token.t)
  : M AnyZplCommand :=
  v <- valueOf commandToken ;;
  let raw := lit "^" ++ v in
  parameters <- parseParameters ;;
  let orientation := parseOrientation (nth_error parameters 0) in
  let height := parseNumberParameter (nth_error parameters 1) 10 in
  let printInterpretationLine :=
    parseBooleanParameter (nth_error parameters 2) true in
  let printAboveCode :=
    parseBooleanParameter (nth_error parameters 3) false in
  let mode := nth_error parameters 4 in
  f <- commandFollows ;;
  data <-
    (if f then
       i <- gets current ;;
       nextCommand <- tokenAt (i + 1) ;;
       nv <- valueOf nextCommand ;;
       if str_eqb nv (lit "FD")
       then
         advance ;; advance ;;
         c <- check PARAMETER ;;
         if c then t <- advance ;; valueOf t else ret []
       else ret []
     else ret []) ;;
  command <- valueOf commandToken ;;
  position <- positionOf startToken ;;
  ret (Barcode command raw position orientation height
               printInterpretationLine printAboveCode mode data
               parameters).

Definition parseGraphicBox (startToken commandToken : option Token.t)
  : M AnyZplCommand :=
  v <- valueOf commandToken ;;
  let raw := lit "^" ++ v in
  parameters <- parseParameters ;;
  let width := parseNumberParameter (nth_error parameters 0) 1 in
  let height := parseNumberParameter (nth_error parameters 1) 1 in
  let thickness := parseNumberParameter (nth_error parameters 2) 1 in
  let color :=
    match nth_error parameters 3 with
    | Some c => if str_eqb c (lit "W") then ColorW else ColorB
    | None => ColorB
    end in
  let rounding :=
    if truthy (nth_error parameters 4)
    then Some (parseNumberParameter (nth_error parameters 4) 0)
    else None in
  position <- positionOf startToken ;;
  ret (GraphicBox raw position width height thickness color rounding
                  parameters).

Definition parseFontSelection (startToken commandToken : option Token.t)
  : M AnyZplCommand :=
  v <- valueOf commandToken ;;
  let raw := lit "^" ++ v in
  parameters <- parseParameters ;;
  let font :=
    if truthy (nth_error parameters 0)
    then match nth_error parameters 0 with Some f => f | None => [] end
    else lit "0" in
  let orientation := parseOrientation (nth_error parameters 1) in
  let height := parseNumberParameter (nth_error parameters 2) 10 in
  let width :=
    if truthy (nth_error parameters 3)
    then Some (parseNumberParameter (nth_error parameters 3) height)
    else None in
  position <- positionOf startToken ;;
  ret (FontSelection raw position font orientation height width
                     parameters).

Definition parseGenericCommand (startToken commandToken : option Token.t)
  : M AnyZplCommand :=
  v <- valueOf commandToken ;;
  let raw := lit "^" ++ v in
  parameters <- parseParameters ;;
  command <- valueOf commandToken ;;
  position <- positionOf startToken ;;
  ret (GenericCommand command raw position parameters).

(** The three stubs: [return {} as ...]. *)
Definition parseFieldReverse (startToken commandToken : option Token.t)
  : M AnyZplCommand := ret EmptyObject.

Definition parseChangeFont (startToken commandToken : option Token.t)
  : M AnyZplCommand := ret EmptyObject.

Definition parseGraphicField (startToken commandToken : option Token.t)
  : M AnyZplCommand := ret EmptyObject.

(** The [switch] of [parseCommand] on the command code. *)
Definition dispatch (commandStart commandToken : option Token.t)
           (value : str) : M AnyZplCommand :=
  if str_eqb value (lit "XA") then parseLabelStart commandStart commandToken
  else if str_eqb value (lit "XZ")
  then parseLabelEnd commandStart commandToken
  else if str_eqb value (lit "LL")
  then parseLabelLength commandStart commandToken
  else if str_eqb value (lit "LH")
  then parseLabelHome commandStart commandToken
  else if str_eqb value (lit "FO")
  then parseFieldOrigin commandStart commandToken
  else if str_eqb value (lit "FR")
  then parseFieldReverse commandStart commandToken
  else if str_eqb value (lit "GB")
  then parseGraphicBox commandStart commandToken
  else if str_eqb value (lit "FD")
  then parseFieldData commandStart commandToken
  else if str_eqb value (lit "A")
  then parseFontSelection commandStart commandToken
  else if str_eqb value (lit "CF")
  then parseChangeFont commandStart commandToken
  else if str_eqb value (lit "BC") || str_eqb value (lit "B3")
          || str_eqb value (lit "BN")
  then parseBarcode commandStart commandToken
  else if str_eqb value (lit "GF")
  then parseGraphicField commandStart commandToken
  else
    position <- positionOf commandToken ;;
    addWarning (lit "Unsupported command: " ++ value) position None ;;
    parseGenericCommand commandStart commandToken.

(** [None] is the [null] that [parseCommand] returns for a skipped
    token. *)
Definition parseCommand : M (option AnyZplCommand) :=
  m <- match_ [COMMAND_START] ;;
  if m then
    commandStart <- previous ;;
    commandToken <- consume COMMAND_CODE
                            (lit "Expected command code after ^") ;;
    value <- valueOf commandToken ;;
    command <- dispatch commandStart commandToken value ;;
    ret (Some command)
  else
    advance ;; ret None.

(** *** Derived metadata *)

Definition fieldOriginX (cmd : AnyZplCommand) : option Z :=
  match cmd with
  | FieldOrigin _ _ x _ _ => Some x
  | _ => None
  end.

Fixpoint fieldOriginXs (commands : list AnyZplCommand) : list Z :=
  match commands with
  | [] => []
  | cmd :: rest =>
      match fieldOriginX cmd with
      | Some x => x :: fieldOriginXs rest
      | None => fieldOriginXs rest
      end
  end.

Definition calculateLabelWidth (commands : list AnyZplCommand)
  : option Z :=
  match fieldOriginXs commands with
  | [] => None
  | x :: xs => Some (fold_left Z.max xs x + 100)%Z
  end.

Fixpoint calculateLabelLength (commands : list AnyZplCommand)
  : option Z :=
  match commands with
  | [] => None
  | LabelLength _ _ length _ :: _ => Some length
  | _ :: rest => calculateLabelLength rest
  end.

(** *** [parse] *)

(** The body of the [while] loop: [try { ... } catch { synchronize }]. *)
Definition parse_body (commands : list AnyZplCommand)
  : M (list AnyZplCommand) :=
  tryCatch
    (command <- parseCommand ;;
     ret (match command with
          | Some c => commands ++ [c]
          | None => commands
          end))
    (fun _ => synchronize ;; ret commands).

Fixpoint parse_loop (fuel : nat) (commands : list AnyZplCommand)
  : M (list AnyZplCommand) :=
  match fuel with
  | 0 => outOfFuel
  | S fuel' =>
      e <- isAtEnd ;;
      if e then ret commands
      else
        commands' <- parse_body commands ;;
        parse_loop fuel' commands'
  end.

(** [parse] is a method: it receives the fields the instance has when
    it is called and overwrites the four of them before it reads any. *)
Definition parse (source : str) : M ZplDocument.t :=
  fun this =>
    match ZplTokenizer.tokenize source with
    | None => OutOfFuel
    | Some (toks, errs) =>
        (commands <- parse_loop (S (length toks)) [] ;;
         errors <- gets errors ;;
         warnings <- gets warnings ;;
         ret (ZplDocument.mk commands source errors warnings
                             (calculateLabelWidth commands)
                             (calculateLabelLength commands)))
          (mkState toks 0 errs [])
    end.

(** *** The limit of the engine on the arguments of a call

    [Math.max(...xs)] passes every element of [xs] as an argument of
    one call.  The language does not say how many arguments a call
    may have; an engine accepts [maxArguments] of them and throws a
    [RangeError] when there are more.  [calculateLabelWidth] and
    [parse] above are the two methods where the call returns;
    [calculateLabelWidthOn] and [parseOn] are the methods on an engine
    with the limit [maxArguments].  The call stands behind the loop of
    [parse], outside its [try]: what it throws leaves [parse].

    The numbers of the code are doubles.  [Z] is exact for them while
    the values are integers of magnitude at most [2^53]; beyond, the
    sum with 100 is rounded by the code. *)

Definition calculateLabelWidthOn (maxArguments : nat)
           (commands : list AnyZplCommand) : M (option Z) :=
  match fieldOriginXs commands with
  | [] => ret None
  | x :: xs =>
      if maxArguments <? length (x :: xs) then throw RangeError
      else ret (Some (fold_left Z.max xs x + 100)%Z)
  end.

Definition parseOn (maxArguments : nat) (source : str)
  : M ZplDocument.t :=
  fun this =>
    match ZplTokenizer.tokenize source with
    | None => OutOfFuel
    | Some (toks, errs) =>
        (commands <- parse_loop (S (length toks)) [] ;;
         errors <- gets errors ;;
         warnings <- gets warnings ;;
         labelWidth <- calculateLabelWidthOn maxArguments commands ;;
         ret (ZplDocument.mk commands source errors warnings
                             labelWidth
                             (calculateLabelLength commands)))
          (mkState toks 0 errs [])
    end.

(** The fields of [new ZplParser()]. *)
Definition fresh : state := mkState [] 0 [] [].

End ZplParser.

(** The characters that end a parameter in [tokenizeParameters]. *)
Definition separator (c : char) : bool :=
  (c =? ch_comma)%N || (c =? ch_caret)%N || (c =? ch_newline)%N
  || ZplTokenizer.isWhitespace c.

(** ** Shapes of token streams *)

Definition offsetOf (t : Token.t) : nat :=
  SourcePosition.offset (Token.position t).

(** Offsets never decrease from a token to the next one. *)
Definition Monotone (l : list Token.t) : Prop :=
  forall i a b,
    nth_error l i = Some a -> nth_error l (S i) = Some b ->
    offsetOf a <= offsetOf b.

(** A command marker is directly followed by a command code. *)
Definition Paired (l : list Token.t) : Prop :=
  forall i a,
    nth_error l i = Some a -> Token.type a = COMMAND_START ->
    exists b, nth_error l (S i) = Some b /\ Token.type b = COMMAND_CODE.

(** The last token is an end-of-stream token. *)
Definition EndsWithEOF (l : list Token.t) : Prop :=
  exists pre eof, l = pre ++ [eof] /\ Token.type eof = EOF.

(** The last token is an end-of-stream token, and the only one. *)
Definition OneEOF (l : list Token.t) : Prop :=
  exists pre eof,
    l = pre ++ [eof] /\ Token.type eof = EOF
    /\ Forall (fun t => Token.type t <> EOF) pre.

(** What the tokenizer has pushed when it stands at offset [n]: tokens
    are pushed one at a time or as a marker with its code, at offsets
    that grow and stay below [n]. *)
Inductive Scanned : list Token.t -> nat -> Prop :=
| Scanned_nil n : Scanned [] n
| Scanned_token l n t m :
    Scanned l n -> n <= offsetOf t -> offsetOf t <= m ->
    Token.type t <> COMMAND_START -> Token.type t <> EOF ->
    Scanned (l ++ [t]) m
| Scanned_command l n s c m :
    Scanned l n -> n <= offsetOf s -> offsetOf c = offsetOf s ->
    offsetOf s <= m ->
    Token.type s = COMMAND_START -> Token.type c = COMMAND_CODE ->
    Scanned (l ++ [s; c]) m.

(** ** Reasoning about the parser *)

Module ParserLogic.
Import ZplParser.

(** The token under the cursor. *)
Definition cur (st : state) : option Token.t :=
  nth_error (tokens st) (current st).

(** The cursor is on a token of a stream that ends with EOF. *)
Definition Inv (st : state) : Prop :=
  EndsWithEOF (tokens st) /\ current st < length (tokens st).

(** [m], run from [st], returns normally with a result and a state
    that satisfy [Q]. *)
Definition wp {A} (m : M A) (st : state) (Q : A -> state -> Prop) : Prop :=
  match m st with
  | Ok a st' => Q a st'
  | _ => False
  end.

(** The message of the failure of [consume] in [parseCommand]. *)
Definition expectedCode : str := lit "Expected command code after ^".

Definition Mild (e : ParseError.t) : Prop :=
  ParseError.message e <> expectedCode.

(** The cursor only moves forward, on the same tokens, and the errors
    recorded so far stay recorded. *)
Definition Advances (st st' : state) : Prop :=
  tokens st' = tokens st /\ current st <= current st'
  /\ current st' < length (tokens st')
  /\ exists extra, errors st' = errors st ++ extra.

(** ... and the errors recorded meanwhile are not failures of
    [consume]. *)
Definition Evolves (st st' : state) : Prop :=
  Advances st st'
  /\ exists extra, errors st' = errors st ++ extra /\ Forall Mild extra.

(** The cursor moved by one token, and by [n] tokens. *)
Definition bump (st : state) : state :=
  mkState (tokens st) (current st + 1) (errors st) (warnings st).

Definition skip (n : nat) (st : state) : state :=
  mkState (tokens st) (current st + n) (errors st) (warnings st).

(** One more error, one more warning. *)
Definition record (e : ParseError.t) (st : state) : state :=
  mkState (tokens st) (current st) (errors st ++ [e]) (warnings st).

Definition warn (w : ParseWarning.t) (st : state) : state :=
  mkState (tokens st) (current st) (errors st) (warnings st ++ [w]).

Definition parserError (message : str) (position : SourcePosition.t)
  : ParseError.t :=
  ParseError.mk message position ERROR (lit "PARSER_ERROR").

(** A grammar rule that returns normally, moves the cursor forward
    only and records no failure of [consume]. *)
Definition Safe {A} (m : M A) : Prop :=
  forall st, Inv st -> wp m st (fun _ st' => Evolves st st').

(** The values of the parameter tokens at the head of a list. *)
Fixpoint takeParameters (l : list Token.t) : list str :=
  match l with
  | t :: rest =>
      if TokenType_eqb (Token.type t) PARAMETER
      then Token.value t :: takeParameters rest
      else []
  | [] => []
  end.

(** The parameters that follow the cursor. *)
Definition parametersAt (st : state) : list str :=
  takeParameters (skipn (current st) (tokens st)).

End ParserLogic.

(** ** Inputs of the specification *)

Definition nl : string := String (ascii_of_nat 10) EmptyString.

Definition scenarioA : str :=
  lit ("^XA" ++ nl ++ "^FO50,50" ++ nl ++ "^ADN,36,20" ++ nl
       ++ "^FDHello World^FS" ++ nl ++ "^XZ")%string.

Definition scenarioB : str :=
  lit ("^XA" ++ nl ++ "^FO100,100" ++ nl ++ "^BCN,100,Y,N,N" ++ nl
       ++ "^FD123456789^FS" ++ nl ++ "^XZ")%string.

Definition scenarioC : str :=
  lit ("^XA" ++ nl ++ "^FO50" ++ nl ++ "^FDTest^FS" ++ nl ++ "^XZ")%string.

(** The document a fresh parser returns, if it returns one. *)
Definition parseDocument (source : str) : option ZplDocument.t :=
  match ZplParser.parse source ZplParser.fresh with
  | ZplParser.Ok doc _ => Some doc
  | _ => None
  end.

Definition commandsOf (source : str) : option (list AnyZplCommand) :=
  option_map ZplDocument.commands (parseDocument source).

Definition errorsOf (source : str) : option (list ParseError.t) :=
  option_map ZplDocument.errors (parseDocument source).

Definition warningsOf (source : str) : option (list ParseWarning.t) :=
  option_map ZplDocument.warnings (parseDocument source).

Definition pos (line column offset : nat) : SourcePosition.t :=
  SourcePosition.mk line column offset.

(** ** Parser states used as instances of the general statements *)

Definition tok (type : TokenType) (value : string) (offset : nat) : Token.t :=
  Token.mk type (lit value) (pos 1 (offset + 1) offset) (lit value).

(** A marker that a parameter follows: [consume] fails here. *)
Definition recoveryState : ZplParser.state :=
  ZplParser.mkState
    [tok COMMAND_START "^" 0; tok PARAMETER "x" 1; tok EOF "EOF" 2]
    0 [] [].

(** The cursor after the code of [^LH abc]. *)
Definition homeState : ZplParser.state :=
  ZplParser.mkState
    [tok COMMAND_START "^" 0; tok COMMAND_CODE "LH" 0; tok PARAMETER "abc" 4;
     tok EOF "EOF" 7]
    2 [] [].

(** The cursor before [^FR,5]. *)
Definition stubState : ZplParser.state :=
  ZplParser.mkState
    [tok COMMAND_START "^" 0; tok COMMAND_CODE "FR" 0; tok PARAMETER "5" 4;
     tok EOF "EOF" 5]
    0 [] [].

(** ** [parseInt]: the strings that start a number *)

(** After white space and one sign, a digit comes first. *)
Definition startsNumber (s : str) : bool :=
  match skipWhiteSpace s with
  | c :: s' =>
      if ((c =? 45) || (c =? 43))%N
      then match s' with
           | d :: _ => isDigit d
           | [] => false
           end
      else isDigit c
  | [] => false
  end.

(** ** Parser objects and the arrays they share with their documents

    [this.errors] and [this.warnings] are references to arrays, and the
    document that [parse] returns holds the same two references.  A call
    of [parse] binds both fields to arrays created during the call
    ([tokenize] creates the array of errors, [this.warnings = []] the
    array of warnings); [addError] and [addWarning] push onto them and
    nothing reads them before the call returns.  The store therefore
    grows by two arrays for each call, entered with the content they
    have when the call returns. *)

Module ParserObject.

Definition ref := nat.

Record store := mkStore {
  errorArrays : list (list ParseError.t);
  warningArrays : list (list ParseWarning.t) }.

Module Parser.
Record t := mk {
  tokens : list Token.t;
  current : nat;
  errors : ref;
  warnings : ref }.
End Parser.

Module Document.
Record t := mk {
  commands : list AnyZplCommand;
  source : str;
  errors : ref;
  warnings : ref;
  labelWidth : option Z;
  labelLength : option Z }.
End Document.

Inductive Result :=
| Returned (doc : Document.t) (this : Parser.t) (h : store)
| Thrown (e : ZplParser.Exn)
| NoFuel.

(** The fields of the object, with the arrays they denote. *)
Definition load (this : Parser.t) (h : store) : ZplParser.state :=
  ZplParser.mkState
    (Parser.tokens this) (Parser.current this)
    (nth (Parser.errors this) (errorArrays h) [])
    (nth (Parser.warnings this) (warningArrays h) []).

Definition parse (source : str) (this : Parser.t) (h : store) : Result :=
  match ZplParser.parse source (load this h) with
  | ZplParser.Ok doc st' =>
      let e := length (errorArrays h) in
      let w := length (warningArrays h) in
      Returned
        (Document.mk (ZplDocument.commands doc) (ZplDocument.source doc)
                     e w (ZplDocument.labelWidth doc)
                     (ZplDocument.labelLength doc))
        (Parser.mk (ZplParser.tokens st') (ZplParser.current st') e w)
        (mkStore (errorArrays h ++ [ZplParser.errors st'])
                 (warningArrays h ++ [ZplParser.warnings st']))
  | ZplParser.Throw e _ => Thrown e
  | ZplParser.OutOfFuel => NoFuel
  end.


End ParserObject.

(** ** Tokens and the text they come from *)

(** The length of the longest prefix whose characters satisfy [p]. *)
Fixpoint spanLen (p : char -> bool) (l : str) : nat :=
  match l with
  | c :: l' => if p c then S (spanLen p l') else 0
  | [] => 0
  end.

(** The [n] characters of [source] from offset [o] on. *)
Definition textAt (source : str) (o n : nat) : str :=
  firstn n (skipn o source).

Definition notNewline (c : char) : bool := negb (c =? ch_newline)%N.

Definition notSeparator (c : char) : bool := negb (separator c).

(** What a token other than the final one says about the source. *)
Definition Faithful (source : str) (t : Token.t) : Prop :=
  let o := offsetOf t in
  let v := Token.value t in
  Token.raw t = v
  /\ match Token.type t with
     | COMMAND_START =>
         v = [ch_caret] /\ nth_error source o = Some ch_caret
     | COMMAND_CODE =>
         v <> [] /\ v = textAt source (o + 1) (length v)
         /\ nth_error source o = Some ch_caret
         /\ Forall (fun c => ZplTokenizer.isCommandChar c = true) v
         /\ (forall c, nth_error source (o + 1 + length v) = Some c ->
                       ZplTokenizer.isCommandChar c = false)
     | PARAMETER =>
         v <> [] /\ v = textAt source o (length v)
         /\ Forall (fun c => separator c = false) v
         /\ (forall c, nth_error source (o + length v) = Some c ->
                       separator c = true)
     | NEWLINE =>
         v = [ch_newline] /\ nth_error source o = Some ch_newline
     | COMMENT =>
         nth_error source o = Some ch_slash
         /\ exists body,
             v = lit "//" ++ body
             /\ body = textAt source (o + 2) (length body)
             /\ Forall (fun c => c <> ch_newline) body
             /\ (forall c, nth_error source (o + 2 + length body) = Some c ->
                           c = ch_newline)
     | STRING_CONTENT => False
     | EOF => False
     end.

(** What an error of the tokenizer says about the source: a caret that
    no command-code character follows, with the error placed after the
    caret, or a character that starts nothing, with the error placed on
    it. *)
Definition LexicalError (source : str) (e : ParseError.t) : Prop :=
  let o := SourcePosition.offset (ParseError.position e) in
  ParseError.severity e = ERROR
  /\ ParseError.code e = lit "TOKENIZER_ERROR"
  /\ ((ParseError.message e = lit "Empty command after ^"
       /\ (exists o', o = o' + 1 /\ nth_error source o' = Some ch_caret)
       /\ (forall c, nth_error source o = Some c ->
                     ZplTokenizer.isCommandChar c = false))
      \/ (exists c,
             ParseError.message e = lit "Unexpected character: " ++ [c]
             /\ nth_error source o = Some c
             /\ (c =? ch_caret)%N = false /\ (c =? ch_newline)%N = false
             /\ (c =? ch_slash)%N = false
             /\ ZplTokenizer.isWhitespace c = false)).

(** The line on which the tokenizer stands after the tokens of [l], and
    the offset at which that line starts: both change at NEWLINE tokens
    only. *)
Definition lineStep (s : nat * nat) (t : Token.t) : nat * nat :=
  match Token.type t with
  | NEWLINE => (S (fst s), offsetOf t + 1)
  | _ => s
  end.

Definition lineAfter (l : list Token.t) : nat * nat :=
  fold_left lineStep l (1, 0).

(** The line and the column of [t], which comes after the tokens of
    [pre]: the column counts from the start of the line, and a command
    code has the offset of its marker and the next column. *)
Definition Located (pre : list Token.t) (t : Token.t) : Prop :=
  SourcePosition.line (Token.position t) = fst (lineAfter pre)
  /\ SourcePosition.column (Token.position t) + snd (lineAfter pre)
     = offsetOf t + 1
       + (if TokenType_eqb (Token.type t) COMMAND_CODE then 1 else 0).

Definition WellLocated (l : list Token.t) : Prop :=
  forall i t, nth_error l i = Some t -> Located (firstn i l) t.

(** The invariant of the tokenizer on [source]. *)
Definition GoodScan (source : str) (st : ZplTokenizer.state) : Prop :=
  Forall (Faithful source) (ZplTokenizer.tokens st)
  /\ Forall (LexicalError source) (ZplTokenizer.errors st)
  /\ WellLocated (ZplTokenizer.tokens st)
  /\ ZplTokenizer.line st = fst (lineAfter (ZplTokenizer.tokens st))
  /\ ZplTokenizer.column st + snd (lineAfter (ZplTokenizer.tokens st))
     = ZplTokenizer.position st + 1
  /\ ZplTokenizer.position st <= length source + 1.

(** ** What a node tells about the run of its rule *)

Definition missingLH : str := lit "LH command requires x and y parameters".
Definition missingFO : str := lit "FO command requires x and y parameters".

(** The error its rule recorded for a node: only LH and FO record one,
    when fewer than two parameters follow them. *)
Definition nodeErrors (node : AnyZplCommand) : list ParseError.t :=
  match node with
  | LabelHome _ position _ _ parameters =>
      if length parameters <? 2
      then [ParserLogic.parserError missingLH position]
      else []
  | FieldOrigin _ position _ _ parameters =>
      if length parameters <? 2
      then [ParserLogic.parserError missingFO position]
      else []
  | _ => []
  end.

(** The message of the warning recorded for a node: only the generic
    fallback records one. *)
Definition nodeWarnings (node : AnyZplCommand) : list str :=
  match node with
  | GenericCommand command _ _ _ => [lit "Unsupported command: " ++ command]
  | _ => []
  end.

(** The [type] of the node that [parseCommand] returns for a command
    code; the three stubs return an object without [type]. *)
Definition kindOfCode (code : str) : option str :=
  if str_eqb code (lit "XA") then Some (lit "LABEL_START")
  else if str_eqb code (lit "XZ") then Some (lit "LABEL_END")
  else if str_eqb code (lit "LL") then Some (lit "LABEL_LENGTH")
  else if str_eqb code (lit "LH") then Some (lit "LABEL_HOME")
  else if str_eqb code (lit "FO") then Some (lit "FIELD_ORIGIN")
  else if str_eqb code (lit "FR") then None
  else if str_eqb code (lit "GB") then Some (lit "GRAPHIC_BOX")
  else if str_eqb code (lit "FD") then Some (lit "FIELD_DATA")
  else if str_eqb code (lit "A") then Some (lit "FONT_SELECTION")
  else if str_eqb code (lit "CF") then None
  else if str_eqb code (lit "BC") || str_eqb code (lit "B3")
          || str_eqb code (lit "BN")
  then Some (lit "BARCODE")
  else if str_eqb code (lit "GF") then None
  else Some (lit "GENERIC_COMMAND").

(** The shared fields of a node that came from marker [s] and code [c]:
    the empty object of a stub has none. *)
Definition BaseFields (s c : Token.t) (node : AnyZplCommand) : Prop :=
  cmd_type node = kindOfCode (Token.value c)
  /\ (node = EmptyObject
      \/ (cmd_command node = Some (Token.value c)
          /\ cmd_raw node = Some (lit "^" ++ Token.value c)
          /\ cmd_position node = Some (Token.position s))).

(** The node of [parseBarcode] for marker [s], code [c], the parameters
    [ps] and the payload [data]. *)
Definition barcodeNode (s c : Token.t) (ps : list str) (data : str)
  : AnyZplCommand :=
  Barcode (Token.value c) (lit "^" ++ Token.value c) (Token.position s)
          (ZplParser.parseOrientation (nth_error ps 0))
          (ZplParser.parseNumberParameter (nth_error ps 1) 10)
          (ZplParser.parseBooleanParameter (nth_error ps 2) true)
          (ZplParser.parseBooleanParameter (nth_error ps 3) false)
          (nth_error ps 4) data ps.

Module ParserEffects.
Import ZplParser ParserLogic.

(** What the rule of a command does besides returning [node]. *)
Definition RuleEffect (st : state) (node : AnyZplCommand) (st' : state)
  : Prop :=
  Advances st st'
  /\ errors st' = errors st ++ nodeErrors node
  /\ warnings st' = warnings st.

(** What [parseCommand] does on a marker [s] and a code [c], from the
    state [st] behind the code. *)
Definition Dispatched (s c : Token.t) (st : state) (node : AnyZplCommand)
           (st' : state) : Prop :=
  Advances st st'
  /\ errors st' = errors st ++ nodeErrors node
  /\ map ParseWarning.message (warnings st')
     = map ParseWarning.message (warnings st) ++ nodeWarnings node
  /\ BaseFields s c node.

(** [this.check(COMMAND_START) && this.peekNext()?.type ===
    COMMAND_CODE], read off the tokens. *)
Definition markerAt (st : state) : bool :=
  match nth_error (tokens st) (current st),
        nth_error (tokens st) (current st + 1) with
  | Some s, Some c =>
      TokenType_eqb (Token.type s) COMMAND_START
      && TokenType_eqb (Token.type c) COMMAND_CODE
  | _, _ => false
  end.

(** Where the loop of [synchronize] stops: on the final token, behind
    a NEWLINE token, or on a command marker. *)
Definition restartPoint (toks : list Token.t) (j : nat) : bool :=
  match nth_error toks j with
  | Some t =>
      TokenType_eqb (Token.type t) EOF
      || match j with
         | S k =>
             match nth_error toks k with
             | Some p => TokenType_eqb (Token.type p) NEWLINE
             | None => false
             end
         | 0 => false
         end
      || TokenType_eqb (Token.type t) COMMAND_START
  | None => false
  end.

(** The nodes of [l] come, in this order, from pairs of a marker and a
    code that stand in [toks] at increasing places from [lo] on. *)
Inductive Nodes (toks : list Token.t) : nat -> list AnyZplCommand -> Prop :=
| Nodes_nil lo : Nodes toks lo []
| Nodes_cons lo i s c node rest :
    lo <= i ->
    nth_error toks i = Some s -> Token.type s = COMMAND_START ->
    nth_error toks (S i) = Some c -> Token.type c = COMMAND_CODE ->
    BaseFields s c node ->
    Nodes toks (i + 2) rest ->
    Nodes toks lo (node :: rest).

End ParserEffects.

(** The offsets of the positions of the nodes that have one. *)
Definition nodeOffsets (commands : list AnyZplCommand) : list nat :=
  flat_map (fun node =>
              match cmd_position node with
              | Some p => [SourcePosition.offset p]
              | None => []
              end) commands.

(** ** class ZplUtils: what it makes of the nodes

    [validateCommand] and [interpretBarcodeParams] receive a node of the
    parser; the conversions of units work on floating-point numbers and
    are left out. *)

Module ZplUtils.

Definition validationErrors (command : AnyZplCommand) : list str :=
  match command with
  | FieldOrigin _ _ x y _ =>
      (if (x <? 0)%Z || (y <? 0)%Z
       then [lit "FO coordinates cannot be negative"]
       else [])
      ++ (if (x >? 2000)%Z || (y >? 6000)%Z
          then [lit "FO coordinates exceed reasonable label size"]
          else [])
  | Barcode _ _ _ _ height _ _ _ _ _ =>
      if (height <? 1)%Z || (height >? 1000)%Z
      then [lit "Barcode height out of reasonable range (1-1000)"]
      else []
  | _ => []
  end.

Record Validation := mkValidation {
  isValid : bool;
  errors : list str }.

Definition validateCommand (command : AnyZplCommand) : Validation :=
  let errors := validationErrors command in
  mkValidation (Nat.eqb (length errors) 0) errors.

Record BarcodeInfo := mkBarcodeInfo {
  type : str;
  humanReadable : bool;
  checkDigit : bool }.

(** [params] is the node: [params.command] is undefined on the empty
    object, [params.printInterpretationLine] and [params.mode] on
    every node but a barcode. *)
Definition interpretBarcodeParams (params : AnyZplCommand) : BarcodeInfo :=
  let type :=
    match cmd_command params with
    | Some command =>
        if str_eqb command (lit "BC") then lit "Code 128"
        else if str_eqb command (lit "B3") then lit "Code 39"
        else if str_eqb command (lit "BN") then lit "Interleaved 2 of 5"
        else lit "UNKNOWN"
    | None => lit "UNKNOWN"
    end in
  mkBarcodeInfo
    type
    (match params with
     | Barcode _ _ _ _ _ printInterpretationLine _ _ _ _ =>
         printInterpretationLine || false
     | _ => false
     end)
    (match params with
     | Barcode _ _ _ _ _ _ _ (Some mode) _ _ => str_eqb mode (lit "Y")
     | _ => false
     end).

(** The coordinates and heights that [validateCommand] accepts. *)
Definition InRange (command : AnyZplCommand) : Prop :=
  match command with
  | FieldOrigin _ _ x y _ => (0 <= x <= 2000 /\ 0 <= y <= 6000)%Z
  | Barcode _ _ _ _ height _ _ _ _ _ => (1 <= height <= 1000)%Z
  | _ => True
  end.

End ZplUtils.

(** ** More parser states used as instances *)

(** On the NEWLINE token of a line end. *)
Definition lineEndState : ZplParser.state :=
  ZplParser.mkState [tok NEWLINE "n" 0; tok EOF "EOF" 1] 0 [] [].

(** Behind a marker that no code follows; a line end comes two tokens
    later. *)
Definition lostState : ZplParser.state :=
  ZplParser.mkState
    [tok COMMAND_START "^" 0; tok PARAMETER "x" 1; tok PARAMETER "y" 3;
     tok NEWLINE "n" 4; tok PARAMETER "z" 5; tok EOF "EOF" 6]
    1 [] [].

(** Behind the code of [^FD Hello^FS]. *)
Definition fieldDataState : ZplParser.state :=
  ZplParser.mkState
    [tok COMMAND_START "^" 0; tok COMMAND_CODE "FD" 0;
     tok PARAMETER "Hello" 4; tok COMMAND_START "^" 9;
     tok COMMAND_CODE "FS" 9; tok EOF "EOF" 12]
    2 [] [].

(** Behind the code of [^BC N^FD 123]. *)
Definition barcodeState : ZplParser.state :=
  ZplParser.mkState
    [tok COMMAND_START "^" 0; tok COMMAND_CODE "BC" 0; tok PARAMETER "N" 4;
     tok COMMAND_START "^" 5; tok COMMAND_CODE "FD" 5;
     tok PARAMETER "123" 9; tok EOF "EOF" 12]
    2 [] [].

(** The tokens and errors made so far are no more than the characters
    of [source] the tokenizer has passed. *)
Definition Counted (source : str) (st : ZplTokenizer.state) : Prop :=
  length (ZplTokenizer.tokens st) + length (ZplTokenizer.errors st)
  <= Nat.min (ZplTokenizer.position st) (length source).

(** ** A source of [k] field origins, each on a line of its own *)

Definition fieldOriginLine : str := lit "^FO" ++ [ch_newline].

Definition manyFieldOrigins (k : nat) : str :=
  concat (repeat fieldOriginLine k).

(** The tokens of [k] such lines that start on line [line] at offset
    [offset], the nodes of these lines and the errors recorded for
    them. *)
Fixpoint fieldOriginTokens (line offset k : nat) : list Token.t :=
  match k with
  | 0 => []
  | S k' =>
      Token.mk COMMAND_START (lit "^") (pos line 1 offset) (lit "^")
      :: Token.mk COMMAND_CODE (lit "FO") (pos line 2 offset) (lit "FO")
      :: Token.mk NEWLINE [ch_newline] (pos line 4 (offset + 3))
                  [ch_newline]
      :: fieldOriginTokens (line + 1) (offset + 4) k'
  end.

Fixpoint fieldOriginNodes (line offset k : nat) : list AnyZplCommand :=
  match k with
  | 0 => []
  | S k' =>
      FieldOrigin (lit "^FO") (pos line 1 offset) 0 0 []
      :: fieldOriginNodes (line + 1) (offset + 4) k'
  end.

Fixpoint fieldOriginErrors (line offset k : nat) : list ParseError.t :=
  match k with
  | 0 => []
  | S k' =>
      ParserLogic.parserError missingFO (pos line 1 offset)
      :: fieldOriginErrors (line + 1) (offset + 4) k'
  end.

(** ** Where the characters of the source go

    A token stands for the characters of the source from its offset on,
    as many as its value has; a command code stands behind the caret of
    its marker, whose offset it shares. *)
Definition tokenStart (t : Token.t) : nat :=
  match Token.type t with
  | COMMAND_CODE => offsetOf t + 1
  | _ => offsetOf t
  end.

Definition covers (t : Token.t) (o : nat) : Prop :=
  tokenStart t <= o < tokenStart t + length (Token.value t).

(** The error [e] is the one recorded for the character at offset [o]:
    for a caret that starts no command it is placed behind the caret,
    for a character that starts nothing it is placed on it and names
    it. *)
Definition reports (source : str) (e : ParseError.t) (o : nat) : Prop :=
  ParseError.severity e = ERROR
  /\ ParseError.code e = lit "TOKENIZER_ERROR"
  /\ ((ParseError.message e = lit "Empty command after ^"
       /\ SourcePosition.offset (ParseError.position e) = o + 1
       /\ nth_error source o = Some ch_caret)
      \/ (exists c,
             ParseError.message e = lit "Unexpected character: " ++ [c]
             /\ SourcePosition.offset (ParseError.position e) = o
             /\ nth_error source o = Some c)).

(** The character at offset [o] is in a token, or it is a comma or
    white space, which the tokenizer may pass over, or an error is
    recorded for it. *)
Definition Accounted (source : str) (toks : list Token.t)
           (errs : list ParseError.t) (o : nat) : Prop :=
  (exists t, In t toks /\ covers t o)
  \/ (exists c, nth_error source o = Some c
                /\ (c = ch_comma \/ ZplTokenizer.isWhitespace c = true))
  \/ (exists e, In e errs /\ reports source e o).

Definition Covered (source : str) (st : ZplTokenizer.state) : Prop :=
  forall o,
    o < ZplTokenizer.position st -> o < length source ->
    Accounted source (ZplTokenizer.tokens st) (ZplTokenizer.errors st) o.

(** ** The coordinates on which [Z] is the arithmetic of the code

    The [x] of a node is a double.  The maximum of doubles is exact,
    and so is the sum with 100 when [x] is a whole number between
    [-2^53] and [2^53 - 100]. *)
Definition SafeCoordinate (x : Z) : Prop :=
  (- 2 ^ 53 <= x <= 2 ^ 53 - 100)%Z.

(** Two field origins among the nodes of a label. *)
Definition originCommands : list AnyZplCommand :=
  [LabelStart (lit "^XA") (pos 1 1 0) [];
   FieldOrigin (lit "^FO") (pos 2 1 4) 50 20 [lit "50"; lit "20"];
   FieldOrigin (lit "^FO") (pos 3 1 14) 300 20 [lit "300"; lit "20"]].

(** * Properties *)

(** ** Strings *)

Lemma str_eqb_eq (a b : str) : str_eqb a b = true <-> a = b.
Proof.
  revert b; induction a as [|x a IH]; intros [|y b]; simpl;
    try (split; congruence).
  rewrite andb_true_iff, N.eqb_eq, IH.
  split; [intros [-> ->]; reflexivity | intros H; injection H; auto].
Qed.

Lemma TokenType_eqb_eq (a b : TokenType) : TokenType_eqb a b = true <-> a = b.
Proof. destruct a, b; simpl; split; congruence. Qed.

Lemma TokenType_eqb_neq (a b : TokenType) :
  TokenType_eqb a b = false <-> a <> b.
Proof. destruct a, b; simpl; split; congruence. Qed.

(** ** Lists that grow at their end *)

Lemma nth_error_snoc {A} (l : list A) (t a : A) (i : nat) :
  nth_error (l ++ [t]) i = Some a ->
  (i < length l /\ nth_error l i = Some a) \/ (i = length l /\ a = t).
Proof.
  intros H.
  destruct (Nat.lt_ge_cases i (length l)) as [Hlt|Hge].
  - left; split; [exact Hlt|]. rewrite nth_error_app1 in H; assumption.
  - right. rewrite nth_error_app2 in H by exact Hge.
    destruct (i - length l) as [|k] eqn:E; simpl in H.
    + split; [lia | congruence].
    + destruct k; discriminate.
Qed.

Lemma nth_error_last {A} (l : list A) (t : A) :
  nth_error (l ++ [t]) (length l) = Some t.
Proof. rewrite nth_error_app2, Nat.sub_diag by lia. reflexivity. Qed.

Lemma Monotone_snoc (l : list Token.t) (t : Token.t) (n : nat) :
  Monotone l -> Forall (fun a => offsetOf a <= n) l -> n <= offsetOf t ->
  Monotone (l ++ [t]).
Proof.
  intros Hm Hb Hn i a b Ha Hb'.
  apply nth_error_snoc in Hb'. destruct Hb' as [[Hlt Hb']|[Hi ->]].
  - apply nth_error_snoc in Ha. destruct Ha as [[_ Ha]|[Hi _]]; [|lia].
    exact (Hm i a b Ha Hb').
  - apply nth_error_snoc in Ha. destruct Ha as [[_ Ha]|[Hi' _]]; [|lia].
    rewrite Forall_forall in Hb.
    specialize (Hb a (nth_error_In _ _ Ha)). lia.
Qed.

Lemma Paired_snoc (l : list Token.t) (t : Token.t) :
  Paired l -> Token.type t <> COMMAND_START -> Paired (l ++ [t]).
Proof.
  intros Hp Ht i a Ha Hs.
  apply nth_error_snoc in Ha. destruct Ha as [[Hlt Ha]|[_ ->]]; [|tauto].
  destruct (Hp i a Ha Hs) as [b [Hb Hc]].
  exists b; split; [|exact Hc].
  rewrite nth_error_app1; [exact Hb|].
  apply nth_error_Some; congruence.
Qed.

Lemma Paired_command (l : list Token.t) (s c : Token.t) :
  Paired l -> Token.type c = COMMAND_CODE -> Paired (l ++ [s; c]).
Proof.
  intros Hp Hc i a Ha Hs.
  change (l ++ [s; c]) with (l ++ [s] ++ [c]) in *.
  rewrite app_assoc in *.
  apply nth_error_snoc in Ha. destruct Ha as [[Hlt Ha]|[_ ->]].
  - apply nth_error_snoc in Ha. destruct Ha as [[Hlt' Ha]|[Hi ->]].
    + destruct (Hp i a Ha Hs) as [b [Hb Hb']].
      exists b; split; [|exact Hb'].
      rewrite <- app_assoc, nth_error_app1; [exact Hb|].
      apply nth_error_Some; congruence.
    + exists c; split; [|exact Hc].
      subst i.
      replace (S (length l)) with (length (l ++ [s]))
        by (rewrite length_app; simpl; lia).
      apply nth_error_last.
  - congruence.
Qed.

(** ** The tokenizer *)

Lemma Scanned_weaken (l : list Token.t) (n m : nat) :
  Scanned l n -> n <= m -> Scanned l m.
Proof.
  intros H Hle; destruct H.
  - constructor.
  - eapply Scanned_token; eauto; lia.
  - eapply Scanned_command; eauto; lia.
Qed.

Lemma Scanned_shape (l : list Token.t) (n : nat) :
  Scanned l n ->
  Forall (fun t => offsetOf t <= n) l
  /\ Forall (fun t => Token.type t <> EOF) l
  /\ Monotone l /\ Paired l.
Proof.
  induction 1 as [n | l n t m H IH Hn Hm Hs He
                    | l n s c m H IH Hn Hc Hm Hs Hcode].
  - repeat split; try constructor.
    + intros i a b Ha; destruct i; discriminate.
    + intros i a Ha; destruct i; discriminate.
  - destruct IH as (Hb & Hne & Hmono & Hp).
    repeat split.
    + apply Forall_app; split.
      * eapply Forall_impl; [|exact Hb]. simpl; intros; lia.
      * repeat constructor; assumption.
    + apply Forall_app; split; [exact Hne | repeat constructor; exact He].
    + eapply Monotone_snoc; eauto.
    + apply Paired_snoc; assumption.
  - destruct IH as (Hb & Hne & Hmono & Hp).
    assert (Hb' : Forall (fun a => offsetOf a <= offsetOf s) (l ++ [s])).
    { apply Forall_app; split.
      - eapply Forall_impl; [|exact Hb]. simpl; intros; lia.
      - repeat constructor. }
    repeat split.
    + apply Forall_app; split.
      * eapply Forall_impl; [|exact Hb]. simpl; intros; lia.
      * repeat constructor; lia.
    + apply Forall_app; split; [exact Hne|].
      repeat constructor; congruence.
    + change (l ++ [s; c]) with (l ++ [s] ++ [c]). rewrite app_assoc.
      eapply Monotone_snoc with (n := offsetOf s); [|exact Hb'|lia].
      eapply Monotone_snoc; eauto.
    + apply Paired_command; assumption.
Qed.

Section TokenizerFacts.

Import ZplTokenizer.

Variable source : str.

Lemma position_in_range (st : state) (c : char) :
  nth_error source (position st) = Some c -> position st < length source.
Proof. intros H; apply nth_error_Some; congruence. Qed.

Lemma tokenizeCommand_loop_ok (fuel : nat) :
  forall code st,
    length source - position st < fuel ->
    exists code' st',
      tokenizeCommand_loop source fuel code st = Some (code', st')
      /\ position st <= position st'
      /\ tokens st' = tokens st /\ errors st' = errors st.
Proof.
  induction fuel as [|fuel IH]; intros code st Hf; [lia|].
  simpl. destruct (nth_error source (position st)) as [c|] eqn:E.
  - destruct (isCommandChar c).
    + apply position_in_range in E.
      destruct (IH (code ++ [c]) (advance 1 st)) as (code' & st' & H & Hp & Ht & He).
      { simpl; lia. }
      exists code', st'; simpl in *. repeat split; auto; lia.
    + exists code, st; auto.
  - exists code, st; auto.
Qed.

Lemma tokenizeParameters_inner_ok (fuel : nat) :
  forall parameter st,
    length source - position st < fuel ->
    exists parameter' st',
      tokenizeParameters_inner source fuel parameter st
      = Some (parameter', st')
      /\ position st <= position st'
      /\ tokens st' = tokens st /\ errors st' = errors st
      /\ (forall c, nth_error source (position st) = Some c ->
                    separator c = false ->
                    position st < position st').
Proof.
  induction fuel as [|fuel IH]; intros parameter st Hf; [lia|].
  simpl. destruct (nth_error source (position st)) as [c|] eqn:E.
  - fold (separator c). destruct (separator c) eqn:Es.
    + exists parameter, st; repeat split; auto. intros c' Hc; congruence.
    + apply position_in_range in E.
      destruct (IH (parameter ++ [c]) (advance 1 st))
        as (p' & st' & H & Hp & Ht & He & _).
      { simpl; lia. }
      exists p', st'; simpl in *. repeat split; auto; lia.
  - exists parameter, st; repeat split; auto. intros; discriminate.
Qed.

Lemma tokenizeParameters_loop_ok (fuel : nat) :
  forall st,
    length source - position st < fuel ->
    Scanned (tokens st) (position st) ->
    exists st',
      tokenizeParameters_loop source fuel st = Some st'
      /\ position st <= position st'
      /\ Scanned (tokens st') (position st')
      /\ errors st' = errors st.
Proof.
  induction fuel as [|fuel IH]; intros st Hf Hs; [lia|].
  cbn [tokenizeParameters_loop].
  destruct (nth_error source (position st)) as [c|] eqn:E.
  2:{ exists st; auto. }
  pose proof (position_in_range _ _ E) as Hlt.
  destruct ((c =? ch_caret)%N || (c =? ch_newline)%N) eqn:E1.
  { exists st; auto. }
  destruct (c =? ch_comma)%N eqn:E2.
  { destruct (IH (advance 1 st)) as (st' & H & Hp & Hsc & He).
    - simpl; lia.
    - simpl. eapply Scanned_weaken; [exact Hs | lia].
    - exists st'; simpl in *; repeat split; auto; lia. }
  destruct (isWhitespace c) eqn:E3; cbn [negb].
  { destruct (IH (advance 1 st)) as (st' & H & Hp & Hsc & He).
    - simpl; lia.
    - simpl. eapply Scanned_weaken; [exact Hs | lia].
    - exists st'; simpl in *; repeat split; auto; lia. }
  destruct (tokenizeParameters_inner_ok (S (length source)) [] st)
    as (p & st1 & H1 & Hp1 & Ht1 & He1 & Hprog); [lia|].
  rewrite H1.
  assert (Hsep : separator c = false).
  { unfold separator. apply orb_false_iff in E1. destruct E1 as [-> ->].
    rewrite E2, E3. reflexivity. }
  specialize (Hprog c E Hsep).
  match goal with
  | |- exists st', tokenizeParameters_loop _ _ ?s = _ /\ _ =>
      destruct (IH s) as (st' & H & Hp & Hsc & He)
  end.
  - destruct p; simpl; lia.
  - destruct p as [|x p]; simpl.
    + rewrite Ht1. eapply Scanned_weaken; [exact Hs | lia].
    + rewrite Ht1. eapply Scanned_token with (n := position st);
        [exact Hs | unfold offsetOf; simpl; lia | unfold offsetOf; simpl; lia
        | simpl; congruence
        | simpl; congruence].
  - exists st'. repeat split; auto.
    + destruct p; simpl in *; lia.
    + rewrite He. destruct p; simpl; auto.
Qed.

Lemma tokenizeCommand_ok (st : state) :
  Scanned (tokens st) (position st) ->
  exists st',
    tokenizeCommand source st = Some st'
    /\ position st < position st'
    /\ Scanned (tokens st') (position st').
Proof.
  intros Hs. unfold tokenizeCommand.
  destruct (tokenizeCommand_loop_ok (S (length source)) []
                                    (advance 1 st))
    as (code & st2 & H & Hp & Ht & He); [simpl; lia|].
  rewrite H. simpl in Hp, Ht.
  destruct code as [|x code].
  - exists (addError (lit "Empty command after ^") st2); simpl.
    repeat split; [lia|]. rewrite Ht.
    eapply Scanned_weaken; [exact Hs | lia].
  - unfold tokenizeParameters.
    match goal with
    | |- exists st', tokenizeParameters_loop _ _ ?s = _ /\ _ =>
        destruct (tokenizeParameters_loop_ok (S (length source)) s)
        as (st' & H' & Hp' & Hs' & _)
    end.
    + simpl; lia.
    + simpl. rewrite Ht, <- app_assoc. simpl.
      eapply Scanned_command with (n := position st);
        [exact Hs | unfold offsetOf; simpl; lia | reflexivity
        | unfold offsetOf; simpl; lia
        | reflexivity | reflexivity].
    + exists st'. simpl in Hp'. repeat split; auto; lia.
Qed.

Lemma tokenizeNewline_ok (st : state) :
  Scanned (tokens st) (position st) ->
  position st < position (tokenizeNewline st)
  /\ Scanned (tokens (tokenizeNewline st)) (position (tokenizeNewline st)).
Proof.
  intros Hs; simpl; split; [lia|].
  eapply Scanned_token with (n := position st);
    [exact Hs | unfold offsetOf; simpl; lia | unfold offsetOf; simpl; lia
        | simpl; congruence
    | simpl; congruence].
Qed.

Lemma tokenizeLineComment_loop_ok (fuel : nat) :
  forall comment st,
    length source - position st < fuel ->
    exists comment' st',
      tokenizeLineComment_loop source fuel comment st
      = Some (comment', st')
      /\ position st <= position st'
      /\ tokens st' = tokens st /\ errors st' = errors st.
Proof.
  induction fuel as [|fuel IH]; intros comment st Hf; [lia|].
  simpl. destruct (nth_error source (position st)) as [c|] eqn:E.
  - destruct (negb (c =? ch_newline)%N).
    + apply position_in_range in E.
      destruct (IH (comment ++ [c]) (advance 1 st))
        as (c' & st' & H & Hp & Ht & He).
      { simpl; lia. }
      exists c', st'; simpl in *. repeat split; auto; lia.
    + exists comment, st; auto.
  - exists comment, st; auto.
Qed.

Lemma tokenizeLineComment_ok (st : state) :
  Scanned (tokens st) (position st) ->
  exists st',
    tokenizeLineComment source st = Some st'
    /\ position st < position st'
    /\ Scanned (tokens st') (position st').
Proof.
  intros Hs. unfold tokenizeLineComment.
  destruct (tokenizeLineComment_loop_ok (S (length source))
                                        (lit "//") (advance 2 st))
    as (c & st2 & H & Hp & Ht & He); [simpl; lia|].
  rewrite H. simpl in Hp, Ht.
  eexists; split; [reflexivity|]. simpl. split; [lia|].
  rewrite Ht.
  eapply Scanned_token with (n := position st);
    [exact Hs | unfold offsetOf; simpl; lia | unfold offsetOf; simpl; lia
        | simpl; congruence
    | simpl; congruence].
Qed.

Lemma tokenizeBlockComment_loop_ok (fuel : nat) :
  forall comment st,
    length source - position st < fuel ->
    exists comment' st',
      tokenizeBlockComment_loop source fuel comment st
      = Some (comment', st')
      /\ position st <= position st'
      /\ tokens st' = tokens st /\ errors st' = errors st.
Proof.
  induction fuel as [|fuel IH]; intros comment st Hf; [lia|].
  simpl. destruct (position st <? length source - 1) eqn:E.
  - apply Nat.ltb_lt in E.
    match goal with
    | |- context [if ?b then Some _ else _] => destruct b
    end.
    + eexists _, _; split; [reflexivity|]. simpl. repeat split; lia.
    + match goal with
      | |- context [tokenizeBlockComment_loop _ _ ?c ?s] =>
          destruct (IH c s) as (c' & st' & H & Hp & Ht & He)
      end.
      { simpl; lia. }
      exists c', st'; simpl in *. repeat split; auto; lia.
  - exists comment, st; auto.
Qed.

Lemma tokenizeBlockComment_ok (st : state) :
  Scanned (tokens st) (position st) ->
  exists st',
    tokenizeBlockComment source st = Some st'
    /\ position st < position st'
    /\ Scanned (tokens st') (position st').
Proof.
  intros Hs. unfold tokenizeBlockComment.
  destruct (tokenizeBlockComment_loop_ok (S (length source))
                                         (lit "/*") (advance 2 st))
    as (c & st2 & H & Hp & Ht & He); [simpl; lia|].
  rewrite H. simpl in Hp, Ht.
  eexists; split; [reflexivity|]. simpl. split; [lia|].
  rewrite Ht.
  eapply Scanned_token with (n := position st);
    [exact Hs | unfold offsetOf; simpl; lia | unfold offsetOf; simpl; lia
        | simpl; congruence
    | simpl; congruence].
Qed.

Lemma tokenize_step_ok (c : char) (st : state) :
  Scanned (tokens st) (position st) ->
  exists st',
    tokenize_step source c st = Some st'
    /\ position st < position st'
    /\ Scanned (tokens st') (position st').
Proof.
  intros Hs. unfold tokenize_step.
  destruct (c =? ch_caret)%N; [apply tokenizeCommand_ok; exact Hs|].
  destruct (c =? ch_newline)%N.
  { eexists; split; [reflexivity | apply tokenizeNewline_ok; exact Hs]. }
  destruct ((c =? ch_slash)%N && str_eqb (peek source 1 st) (lit "/"));
    [apply tokenizeLineComment_ok; exact Hs|].
  destruct ((c =? ch_slash)%N && str_eqb (peek source 1 st) (lit "*"));
    [apply tokenizeBlockComment_ok; exact Hs|].
  destruct (isWhitespace c).
  - eexists; split; [reflexivity|]. simpl. split; [lia|].
    eapply Scanned_weaken; [exact Hs | lia].
  - eexists; split; [reflexivity|]. simpl. split; [lia|].
    eapply Scanned_weaken; [exact Hs | lia].
Qed.

Lemma tokenize_loop_ok (fuel : nat) :
  forall st,
    length source - position st < fuel ->
    Scanned (tokens st) (position st) ->
    exists st',
      tokenize_loop source fuel st = Some st'
      /\ Scanned (tokens st') (position st').
Proof.
  induction fuel as [|fuel IH]; intros st Hf Hs; [lia|].
  simpl. destruct (nth_error source (position st)) as [c|] eqn:E.
  - apply position_in_range in E.
    destruct (tokenize_step_ok c st Hs) as (st1 & H1 & Hp1 & Hs1).
    rewrite H1. apply IH; [lia | exact Hs1].
  - exists st; auto.
Qed.

(** The tokenizer returns, and its stream is what it scanned followed
    by one end-of-stream token at the final offset. *)
Lemma tokenize_ok :
  exists l eof errs n,
    tokenize source = Some (l ++ [eof], errs)
    /\ Scanned l n /\ Token.type eof = EOF /\ offsetOf eof = n.
Proof.
  unfold tokenize.
  destruct (tokenize_loop_ok (S (length source))
                             (mkState 0 1 1 [] []))
    as (st & H & Hs); [simpl; lia | constructor |].
  rewrite H. simpl.
  eexists _, _, _, _; split; [reflexivity|].
  split; [exact Hs|]. split; reflexivity.
Qed.

End TokenizerFacts.

(** ** The parser *)

Section ParserFacts.

Import ZplParser ParserLogic.
Local Open Scope parser_scope.

(** *** Weakest preconditions *)

Lemma wp_ret {A} (a : A) (st : state) (Q : A -> state -> Prop) :
  Q a st -> wp (ret a) st Q.
Proof. intros H; exact H. Qed.

Lemma wp_bind {A B} (m : M A) (f : A -> M B) (st : state)
      (Q : B -> state -> Prop) :
  wp m st (fun a st' => wp (f a) st' Q) -> wp (bind m f) st Q.
Proof. unfold wp, bind. destruct (m st); auto. Qed.

Lemma wp_conseq {A} (m : M A) (st : state) (Q Q' : A -> state -> Prop) :
  wp m st Q -> (forall a st', Q a st' -> Q' a st') -> wp m st Q'.
Proof. unfold wp. destruct (m st); auto. Qed.

Lemma wp_gets {A} (f : state -> A) (st : state) (Q : A -> state -> Prop) :
  Q (f st) st -> wp (gets f) st Q.
Proof. intros H; exact H. Qed.

Lemma wp_Ok {A} (m : M A) (st : state) (Q : A -> state -> Prop) :
  wp m st Q -> exists a st', m st = Ok a st' /\ Q a st'.
Proof. unfold wp. destruct (m st); try tauto. eauto. Qed.

Lemma Ok_wp {A} (m : M A) (st st' : state) (a : A)
      (Q : A -> state -> Prop) :
  m st = Ok a st' -> Q a st' -> wp m st Q.
Proof. unfold wp. intros ->; auto. Qed.

(** *** The cursor *)

Lemma Inv_cur (st : state) : Inv st -> exists t, cur st = Some t.
Proof.
  intros [_ H]. unfold cur.
  destruct (nth_error (tokens st) (current st)) eqn:E; eauto.
  apply nth_error_None in E. lia.
Qed.

Lemma Inv_next (st : state) (t : Token.t) :
  Inv st -> cur st = Some t -> Token.type t <> EOF ->
  current st + 1 < length (tokens st).
Proof.
  intros [(pre & eof & Hl & He) Hc] Ht Hne. unfold cur in Ht.
  rewrite Hl in *. rewrite length_app in *. simpl in *.
  destruct (Nat.eq_dec (current st) (length pre)) as [E|E]; [|lia].
  rewrite E, nth_error_last in Ht. congruence.
Qed.

Lemma Inv_bump (st : state) (t : Token.t) :
  Inv st -> cur st = Some t -> Token.type t <> EOF -> Inv (bump st).
Proof.
  intros Hi Ht Hne. split; [exact (proj1 Hi)|].
  simpl. eapply Inv_next; eauto.
Qed.

Lemma Advances_refl (st : state) : Inv st -> Advances st st.
Proof.
  intros [_ H]. repeat split; auto. exists []. symmetry; apply app_nil_r.
Qed.

Lemma Advances_trans (a b c : state) :
  Advances a b -> Advances b c -> Advances a c.
Proof.
  intros (T1 & C1 & L1 & x1 & E1) (T2 & C2 & L2 & x2 & E2).
  repeat split; [congruence | lia | assumption |].
  exists (x1 ++ x2). rewrite E2, E1, app_assoc. reflexivity.
Qed.

Lemma Advances_Inv (st st' : state) : Inv st -> Advances st st' -> Inv st'.
Proof.
  intros [H _] (T & _ & L & _). split; [rewrite T; exact H | exact L].
Qed.

Lemma Advances_bump (st : state) : Inv (bump st) -> Advances st (bump st).
Proof.
  intros [_ H]. repeat split; simpl in *; auto; try lia.
  exists []. symmetry; apply app_nil_r.
Qed.

Lemma Evolves_refl (st : state) : Inv st -> Evolves st st.
Proof.
  intros H. split; [apply Advances_refl; exact H|].
  exists []. rewrite app_nil_r. auto.
Qed.

Lemma Evolves_trans (a b c : state) :
  Evolves a b -> Evolves b c -> Evolves a c.
Proof.
  intros [A1 (x1 & E1 & M1)] [A2 (x2 & E2 & M2)].
  split; [eapply Advances_trans; eauto|].
  exists (x1 ++ x2). rewrite E2, E1, app_assoc.
  split; [reflexivity | apply Forall_app; auto].
Qed.

Lemma Evolves_Inv (st st' : state) : Inv st -> Evolves st st' -> Inv st'.
Proof. intros H [A _]. eapply Advances_Inv; eauto. Qed.

Lemma Evolves_bump (st : state) : Inv (bump st) -> Evolves st (bump st).
Proof.
  intros H. split; [apply Advances_bump; exact H|].
  exists []. simpl. rewrite app_nil_r. auto.
Qed.

(** *** The utility methods, as equations *)

Lemma isAtEnd_eq (st : state) (t : Token.t) :
  cur st = Some t -> isAtEnd st = Ok (TokenType_eqb (Token.type t) EOF) st.
Proof.
  unfold cur, isAtEnd, bind, peek. intros ->. reflexivity.
Qed.

Lemma check_eq (type : TokenType) (st : state) (t : Token.t) :
  cur st = Some t ->
  check type st
  = Ok (negb (TokenType_eqb (Token.type t) EOF)
        && TokenType_eqb (Token.type t) type) st.
Proof.
  intros H. unfold check, bind at 1. rewrite (isAtEnd_eq _ _ H).
  destruct (TokenType_eqb (Token.type t) EOF); [reflexivity|].
  unfold cur in H. unfold bind, peek. rewrite H. reflexivity.
Qed.

Lemma advance_eq (st : state) (t : Token.t) :
  cur st = Some t -> Token.type t <> EOF ->
  advance st = Ok (Some t) (bump st).
Proof.
  intros H Hne. unfold advance, bind at 1. rewrite (isAtEnd_eq _ _ H).
  apply TokenType_eqb_neq in Hne. rewrite Hne. simpl.
  unfold bind, previous, bump. simpl.
  rewrite Nat.add_1_r. exact (f_equal (fun o => Ok o _) H).
Qed.

Lemma advance_at_end (st : state) (t : Token.t) :
  cur st = Some t -> Token.type t = EOF ->
  exists r, advance st = Ok r st.
Proof.
  intros H He. unfold advance, bind at 1. rewrite (isAtEnd_eq _ _ H).
  rewrite He. simpl. unfold bind, ret, previous. eauto.
Qed.

(** *** The utility methods, as preconditions *)

Lemma wp_isAtEnd (st : state) (Q : bool -> state -> Prop) :
  Inv st ->
  (forall t, cur st = Some t -> Q (TokenType_eqb (Token.type t) EOF) st) ->
  wp isAtEnd st Q.
Proof.
  intros Hi H. destruct (Inv_cur _ Hi) as [t Ht].
  eapply Ok_wp; [apply isAtEnd_eq; exact Ht | auto].
Qed.

Lemma wp_check (type : TokenType) (st : state) (Q : bool -> state -> Prop) :
  Inv st ->
  (forall t, cur st = Some t ->
             Q (negb (TokenType_eqb (Token.type t) EOF)
                && TokenType_eqb (Token.type t) type) st) ->
  wp (check type) st Q.
Proof.
  intros Hi H. destruct (Inv_cur _ Hi) as [t Ht].
  eapply Ok_wp; [apply check_eq; exact Ht | auto].
Qed.

Lemma wp_advance_move (st : state) (t : Token.t)
      (Q : option Token.t -> state -> Prop) :
  Inv st -> cur st = Some t -> Token.type t <> EOF ->
  (Inv (bump st) -> Q (Some t) (bump st)) ->
  wp advance st Q.
Proof.
  intros Hi Ht Hne H.
  eapply Ok_wp; [apply advance_eq; eauto |].
  apply H. eapply Inv_bump; eauto.
Qed.

Lemma wp_addError (message : str) (position : SourcePosition.t)
      (st : state) (Q : ParseError.t -> state -> Prop) :
  Q (parserError message position)
    (record (parserError message position) st) ->
  wp (addError message position) st Q.
Proof. intros H; exact H. Qed.

Lemma wp_addWarning (message : str) (position : SourcePosition.t)
      (suggestion : option str) (st : state) (Q : unit -> state -> Prop) :
  Q tt (warn (ParseWarning.mk message position suggestion) st) ->
  wp (addWarning message position suggestion) st Q.
Proof. intros H; exact H. Qed.

Lemma wp_tokenAt (i : nat) (st : state)
      (Q : option Token.t -> state -> Prop) :
  Q (nth_error (tokens st) i) st -> wp (tokenAt i) st Q.
Proof. intros H; exact H. Qed.

Lemma Inv_record (e : ParseError.t) (st : state) :
  Inv st -> Inv (record e st).
Proof. intros H; exact H. Qed.

Lemma Inv_warn (w : ParseWarning.t) (st : state) :
  Inv st -> Inv (warn w st).
Proof. intros H; exact H. Qed.

(** *** [parseParameters] *)

Lemma skipn_nth_error {A} (l : list A) :
  forall n t, nth_error l n = Some t -> skipn n l = t :: skipn (S n) l.
Proof.
  induction l as [|x l IH]; intros [|n] t H; simpl in *; try discriminate.
  - congruence.
  - rewrite (IH n t H). reflexivity.
Qed.

Lemma parametersAt_parameter (st : state) (t : Token.t) :
  cur st = Some t -> Token.type t = PARAMETER ->
  parametersAt st = Token.value t :: parametersAt (bump st).
Proof.
  intros H Ht. unfold parametersAt, cur in *. simpl.
  rewrite (skipn_nth_error _ _ _ H). simpl. rewrite Ht. simpl.
  rewrite Nat.add_1_r. reflexivity.
Qed.

Lemma parametersAt_other (st : state) (t : Token.t) :
  cur st = Some t -> Token.type t <> PARAMETER -> parametersAt st = [].
Proof.
  intros H Ht. unfold parametersAt, cur in *.
  rewrite (skipn_nth_error _ _ _ H). simpl.
  apply TokenType_eqb_neq in Ht. rewrite Ht. reflexivity.
Qed.

Lemma skip_0 (st : state) : skip 0 st = st.
Proof. destruct st; unfold skip; simpl. rewrite Nat.add_0_r. auto. Qed.

Lemma skip_bump (n : nat) (st : state) : skip n (bump st) = skip (S n) st.
Proof. unfold skip, bump; simpl. f_equal. lia. Qed.

Lemma parseParameters_loop_eq (fuel : nat) :
  forall acc st,
    Inv st -> length (tokens st) - current st < fuel ->
    parseParameters_loop fuel acc st
    = Ok (acc ++ parametersAt st) (skip (length (parametersAt st)) st)
    /\ Inv (skip (length (parametersAt st)) st).
Proof.
  induction fuel as [|fuel IH]; intros acc st Hi Hf; [lia|].
  destruct (Inv_cur _ Hi) as [t Ht].
  cbn [parseParameters_loop]. unfold bind at 1.
  rewrite (check_eq PARAMETER _ _ Ht).
  destruct (TokenType_eqb (Token.type t) PARAMETER) eqn:E.
  - apply TokenType_eqb_eq in E.
    assert (Hne : Token.type t <> EOF) by congruence.
    rewrite E. cbn [TokenType_eqb negb andb].
    unfold bind at 1. rewrite (advance_eq _ _ Ht Hne).
    unfold bind at 1. cbn [valueOf]. unfold ret at 1.
    pose proof (Inv_bump _ _ Hi Ht Hne) as Hb.
    destruct (IH (acc ++ [Token.value t]) (bump st) Hb) as [H1 H2].
    { pose proof (Inv_next _ _ Hi Ht Hne). simpl. lia. }
    rewrite (parametersAt_parameter _ _ Ht E). simpl length.
    rewrite <- skip_bump. split; [|exact H2].
    rewrite H1, <- app_assoc. reflexivity.
  - rewrite andb_false_r.
    apply TokenType_eqb_neq in E.
    rewrite (parametersAt_other _ _ Ht E). simpl.
    rewrite app_nil_r, skip_0. split; [reflexivity | exact Hi].
Qed.

Lemma wp_parseParameters (st : state) (Q : list str -> state -> Prop) :
  Inv st ->
  (Inv (skip (length (parametersAt st)) st) ->
   Q (parametersAt st) (skip (length (parametersAt st)) st)) ->
  wp parseParameters st Q.
Proof.
  intros Hi H. unfold parseParameters. apply wp_bind, wp_gets.
  destruct (parseParameters_loop_eq (S (length (tokens st))) [] st Hi)
    as [E Hi']; [lia|].
  eapply Ok_wp; [exact E | simpl; auto].
Qed.

(** *** [commandFollows] *)

Lemma wp_commandFollows (st : state) (Q : bool -> state -> Prop) :
  Inv st ->
  (forall s c,
      cur st = Some s -> Token.type s = COMMAND_START ->
      nth_error (tokens st) (current st + 1) = Some c ->
      Token.type c = COMMAND_CODE -> Q true st) ->
  Q false st ->
  wp commandFollows st Q.
Proof.
  intros Hi Ht Hf. unfold commandFollows.
  apply wp_bind, wp_check; [exact Hi|]. intros s Hs.
  destruct (Token.type s) eqn:Es; cbn [TokenType_eqb negb andb];
    try (apply wp_ret; exact Hf).
  apply wp_bind. unfold wp, peekNext, ret.
  destruct (length (tokens st) <=? current st + 1); [exact Hf|].
  destruct (nth_error (tokens st) (current st + 1)) as [c|] eqn:Ec;
    [|exact Hf].
  simpl. destruct (TokenType_eqb (Token.type c) COMMAND_CODE) eqn:E;
    [|exact Hf].
  apply TokenType_eqb_eq in E. eapply Ht; eauto.
Qed.

(** *** The grammar rules return normally *)

Ltac wp_go :=
  repeat (cbn [valueOf positionOf typeOf]; cbv beta;
          match goal with
          | |- wp (bind _ _) _ _ => apply wp_bind
          | |- wp (ret _) _ _ => apply wp_ret
          | |- wp (gets _) _ _ => apply wp_gets
          | |- wp (addError _ _) _ _ => apply wp_addError
          | |- wp (addWarning _ _ _) _ _ => apply wp_addWarning
          | |- wp (tokenAt _) _ _ => apply wp_tokenAt
          | |- wp parseParameters _ _ =>
              apply wp_parseParameters;
              [solve [auto using Inv_record, Inv_warn] | intros ?]
          | |- wp (if ?b then _ else _) _ _ => destruct b
          end).

Ltac mild :=
  let X := fresh in
  unfold Mild; simpl; intro X; vm_compute in X; discriminate X.

Ltac ev_solve :=
  unfold Evolves, Advances, Inv, bump, skip, record, warn in *;
  simpl in *;
  repeat match goal with H : _ /\ _ |- _ => destruct H end;
  repeat split; try reflexivity; try lia;
  first [ exists []; symmetry; apply app_nil_r
        | eexists; reflexivity
        | exists []; split; [symmetry; apply app_nil_r | constructor]
        | eexists; split; [reflexivity | repeat constructor; mild] ].

Lemma parseLabelStart_safe (s c : Token.t) :
  Safe (parseLabelStart (Some s) (Some c)).
Proof. intros st Hi. unfold parseLabelStart. wp_go. ev_solve. Qed.

Lemma parseLabelEnd_safe (s c : Token.t) :
  Safe (parseLabelEnd (Some s) (Some c)).
Proof. intros st Hi. unfold parseLabelEnd. wp_go. ev_solve. Qed.

Lemma parseLabelLength_safe (s c : Token.t) :
  Safe (parseLabelLength (Some s) (Some c)).
Proof. intros st Hi. unfold parseLabelLength. wp_go. ev_solve. Qed.

Lemma parseLabelHome_safe (s c : Token.t) :
  Safe (parseLabelHome (Some s) (Some c)).
Proof. intros st Hi. unfold parseLabelHome. wp_go; ev_solve. Qed.

Lemma parseFieldOrigin_safe (s c : Token.t) :
  Safe (parseFieldOrigin (Some s) (Some c)).
Proof. intros st Hi. unfold parseFieldOrigin. wp_go; ev_solve. Qed.

Lemma parseGraphicBox_safe (s c : Token.t) :
  Safe (parseGraphicBox (Some s) (Some c)).
Proof. intros st Hi. unfold parseGraphicBox. wp_go. ev_solve. Qed.

Lemma parseFontSelection_safe (s c : Token.t) :
  Safe (parseFontSelection (Some s) (Some c)).
Proof. intros st Hi. unfold parseFontSelection. wp_go. ev_solve. Qed.

Lemma parseGenericCommand_safe (s c : Token.t) :
  Safe (parseGenericCommand (Some s) (Some c)).
Proof. intros st Hi. unfold parseGenericCommand. wp_go. ev_solve. Qed.

Lemma stub_safe : Safe (ret EmptyObject).
Proof. intros st Hi. wp_go. ev_solve. Qed.

(** One step of [wp_go], or one call of a utility method whose facts
    are among the hypotheses. *)
Ltac wp_run :=
  repeat (first
            [ progress wp_go
            | match goal with
          | |- wp (check _) _ _ =>
              let t := fresh "t" in
              let Ht := fresh "Ht" in
              let Et := fresh "Et" in
              apply wp_check; [assumption | intros t Ht];
              destruct (Token.type t) eqn:Et;
              cbn [TokenType_eqb negb andb]
          | |- wp advance _ _ =>
              eapply wp_advance_move;
              [ eassumption
              | first [eassumption | unfold cur; simpl; eassumption]
              | congruence
              | intros ? ]
          | |- wp commandFollows _ _ =>
              apply wp_commandFollows;
              [ assumption | intros ? ? ? ? ? ? | ]
          | H : nth_error ?l ?i = Some _
            |- wp (valueOf (nth_error ?l ?i)) _ _ => rewrite H
          end ]).

Lemma parseFieldData_safe (s c : Token.t) :
  Safe (parseFieldData (Some s) (Some c)).
Proof. intros st Hi. unfold parseFieldData. wp_run; ev_solve. Qed.

Lemma parseBarcode_safe (s c : Token.t) :
  Safe (parseBarcode (Some s) (Some c)).
Proof. intros st Hi. unfold parseBarcode. wp_run; ev_solve. Qed.

Lemma Evolves_after_warn (w : ParseWarning.t) (st st' : state) :
  Evolves (warn w st) st' -> Evolves st st'.
Proof. intros H; exact H. Qed.

Lemma dispatch_safe (s c : Token.t) (value : str) :
  Safe (dispatch (Some s) (Some c) value).
Proof.
  intros st Hi. unfold dispatch.
  destruct (str_eqb value (lit "XA"));
    [apply parseLabelStart_safe; exact Hi|].
  destruct (str_eqb value (lit "XZ"));
    [apply parseLabelEnd_safe; exact Hi|].
  destruct (str_eqb value (lit "LL"));
    [apply parseLabelLength_safe; exact Hi|].
  destruct (str_eqb value (lit "LH"));
    [apply parseLabelHome_safe; exact Hi|].
  destruct (str_eqb value (lit "FO"));
    [apply parseFieldOrigin_safe; exact Hi|].
  destruct (str_eqb value (lit "FR")); [apply stub_safe; exact Hi|].
  destruct (str_eqb value (lit "GB"));
    [apply parseGraphicBox_safe; exact Hi|].
  destruct (str_eqb value (lit "FD"));
    [apply parseFieldData_safe; exact Hi|].
  destruct (str_eqb value (lit "A"));
    [apply parseFontSelection_safe; exact Hi|].
  destruct (str_eqb value (lit "CF")); [apply stub_safe; exact Hi|].
  destruct (str_eqb value (lit "BC") || str_eqb value (lit "B3")
            || str_eqb value (lit "BN"));
    [apply parseBarcode_safe; exact Hi|].
  destruct (str_eqb value (lit "GF")); [apply stub_safe; exact Hi|].
  wp_go.
  eapply wp_conseq;
    [apply parseGenericCommand_safe, Inv_warn; exact Hi|].
  intros a st' H. eapply Evolves_after_warn; exact H.
Qed.

(** *** [parseCommand] *)

Lemma match_start_yes (st : state) (t : Token.t) :
  cur st = Some t -> Token.type t = COMMAND_START ->
  match_ [COMMAND_START] st = Ok true (bump st).
Proof.
  intros Ht E. cbn [match_]. unfold bind at 1.
  rewrite (check_eq _ _ _ Ht), E. cbn [TokenType_eqb negb andb].
  unfold bind. rewrite (advance_eq _ _ Ht) by congruence. reflexivity.
Qed.

Lemma match_start_no (st : state) (t : Token.t) :
  cur st = Some t -> Token.type t <> COMMAND_START ->
  match_ [COMMAND_START] st = Ok false st.
Proof.
  intros Ht E. cbn [match_]. unfold bind at 1.
  rewrite (check_eq _ _ _ Ht).
  apply TokenType_eqb_neq in E. rewrite E, andb_false_r. reflexivity.
Qed.

Lemma consume_yes (message : str) (st : state) (t : Token.t) :
  cur st = Some t -> Token.type t = COMMAND_CODE ->
  consume COMMAND_CODE message st = Ok (Some t) (bump st).
Proof.
  intros Ht E. unfold consume, bind at 1.
  rewrite (check_eq _ _ _ Ht), E. cbn [TokenType_eqb negb andb].
  apply advance_eq; congruence.
Qed.

Lemma consume_no (message : str) (st : state) (t : Token.t) :
  cur st = Some t -> Token.type t <> COMMAND_CODE ->
  consume COMMAND_CODE message st
  = Throw (ParseFailure (parserError message (Token.position t)))
          (record (parserError message (Token.position t)) st).
Proof.
  intros Ht E. unfold consume, bind at 1.
  rewrite (check_eq _ _ _ Ht).
  apply TokenType_eqb_neq in E. rewrite E, andb_false_r.
  unfold bind, peek. unfold cur in Ht. rewrite Ht. reflexivity.
Qed.

Lemma previous_bump (st : state) : previous (bump st) = Ok (cur st) (bump st).
Proof. unfold previous, bump, cur. simpl. rewrite Nat.add_1_r. auto. Qed.

(** What one call of [parseCommand] does when the cursor is not on the
    final token: it returns after moving forward, or it throws the
    failure of [consume], recorded, after moving forward, and this only
    on a command marker that no command code follows. *)
Lemma parseCommand_cases (st : state) (t : Token.t) :
  Inv st -> cur st = Some t -> Token.type t <> EOF ->
  match parseCommand st with
  | Ok _ st' => Evolves st st' /\ current st < current st'
  | Throw e st' =>
      Advances st st' /\ current st < current st'
      /\ Token.type t = COMMAND_START
      /\ (exists n, cur (bump st) = Some n
                    /\ Token.type n <> COMMAND_CODE
                    /\ e = ParseFailure
                             (parserError expectedCode (Token.position n))
                    /\ errors st'
                       = errors st
                         ++ [parserError expectedCode (Token.position n)])
  | OutOfFuel => False
  end.
Proof.
  intros Hi Ht Hne. pose proof (Inv_bump _ _ Hi Ht Hne) as Hb.
  unfold parseCommand, bind at 1.
  destruct (TokenType_eqb (Token.type t) COMMAND_START) eqn:E.
  - apply TokenType_eqb_eq in E.
    rewrite (match_start_yes _ _ Ht E).
    unfold bind at 1. rewrite previous_bump.
    destruct (Inv_cur _ Hb) as [n Hn].
    unfold bind at 1.
    destruct (TokenType_eqb (Token.type n) COMMAND_CODE) eqn:En.
    + apply TokenType_eqb_eq in En.
      rewrite (consume_yes _ _ _ Hn En).
      assert (Hbb : Inv (bump (bump st))).
      { eapply Inv_bump; eauto. congruence. }
      rewrite Ht. unfold bind at 1. cbn [valueOf]. unfold ret at 1.
      unfold bind.
      pose proof (dispatch_safe t n (Token.value n) _ Hbb) as Hd.
      unfold wp in Hd.
      destruct (dispatch (Some t) (Some n) (Token.value n)
                         (bump (bump st))) as [a st'| |];
        try contradiction.
      unfold ret. split.
      * eapply Evolves_trans; [|exact Hd].
        eapply Evolves_trans; apply Evolves_bump; assumption.
      * destruct Hd as [(_ & Hc & _) _]. simpl in Hc. lia.
    + apply TokenType_eqb_neq in En.
      rewrite (consume_no _ _ _ Hn En).
      repeat split; simpl; try lia.
      * destruct Hb as [_ Hb]. exact Hb.
      * eexists; reflexivity.
      * assumption.
      * exists n. repeat split; auto.
  - apply TokenType_eqb_neq in E.
    rewrite (match_start_no _ _ Ht E).
    unfold bind. rewrite (advance_eq _ _ Ht Hne). unfold ret.
    split; [apply Evolves_bump; exact Hb | simpl; lia].
Qed.

(** *** [synchronize] *)

Lemma synchronize_loop_ok (fuel : nat) :
  forall st,
    Inv st -> 1 <= current st -> length (tokens st) - current st < fuel ->
    wp (synchronize_loop fuel) st (fun _ st' => Advances st st').
Proof.
  induction fuel as [|fuel IH]; intros st Hi Hc Hf; [lia|].
  cbn [synchronize_loop].
  apply wp_bind, wp_isAtEnd; [exact Hi|]. intros t Ht.
  destruct (TokenType_eqb (Token.type t) EOF) eqn:E.
  { apply wp_ret, Advances_refl; exact Hi. }
  apply TokenType_eqb_neq in E.
  apply wp_bind. unfold wp at 1, previous.
  destruct (current st) as [|k] eqn:Ek; [lia|].
  destruct (nth_error (tokens st) k) as [p|] eqn:Ep.
  2:{ apply nth_error_None in Ep. destruct Hi as [_ Hi]. lia. }
  cbn [typeOf]. apply wp_bind, wp_ret.
  destruct (TokenType_eqb (Token.type p) NEWLINE).
  { apply wp_ret, Advances_refl; exact Hi. }
  apply wp_bind, wp_check; [exact Hi|]. intros t' Ht'.
  match goal with
  | |- wp (if ?b then _ else _) _ _ => destruct b
  end.
  { apply wp_ret, Advances_refl; exact Hi. }
  apply wp_bind.
  eapply wp_advance_move; [exact Hi | exact Ht | exact E | intros Hb].
  eapply wp_conseq.
  - apply IH; [exact Hb | simpl; lia |].
    pose proof (Inv_next _ _ Hi Ht E). simpl. lia.
  - intros u st' H. cbv beta.
    eapply Advances_trans; [|exact H].
    apply Advances_bump; exact Hb.
Qed.

Lemma synchronize_ok (st : state) :
  Inv st -> wp synchronize st (fun _ st' => Advances st st').
Proof.
  intros Hi. destruct (Inv_cur _ Hi) as [t Ht].
  unfold synchronize. apply wp_bind.
  destruct (TokenType_eqb (Token.type t) EOF) eqn:E.
  - apply TokenType_eqb_eq in E.
    destruct (advance_at_end _ _ Ht E) as [r Hr].
    eapply Ok_wp; [exact Hr|].
    apply wp_bind, wp_gets. cbn [synchronize_loop].
    apply wp_bind. eapply Ok_wp; [apply isAtEnd_eq; exact Ht|].
    rewrite E. simpl. apply wp_ret, Advances_refl; exact Hi.
  - apply TokenType_eqb_neq in E.
    eapply wp_advance_move; [exact Hi | exact Ht | exact E | intros Hb].
    apply wp_bind, wp_gets.
    eapply wp_conseq.
    + apply synchronize_loop_ok; [exact Hb | simpl; lia | simpl; lia].
    + intros u st' H. cbv beta.
      eapply Advances_trans; [|exact H].
      apply Advances_bump; exact Hb.
Qed.

(** *** The loop of [parse] *)

(** Every turn of the loop returns normally and moves the cursor, on
    any stream that ends with EOF. *)
Lemma parse_body_ok (commands : list AnyZplCommand) (st : state)
      (t : Token.t) :
  Inv st -> cur st = Some t -> Token.type t <> EOF ->
  wp (parse_body commands) st
     (fun _ st' => Advances st st' /\ current st < current st').
Proof.
  intros Hi Ht Hne.
  pose proof (parseCommand_cases _ _ Hi Ht Hne) as H.
  unfold wp, parse_body, tryCatch, bind at 1.
  destruct (parseCommand st) as [a st'|e st'|]; try contradiction.
  - unfold ret. destruct H as [[H _] Hc]. auto.
  - destruct H as (Ha & Hc & _).
    pose proof (synchronize_ok st' (Advances_Inv _ _ Hi Ha)) as Hs.
    unfold wp in Hs. unfold bind.
    destruct (synchronize st') as [u st''| |]; try contradiction.
    unfold ret. split; [eapply Advances_trans; eauto|].
    destruct Hs as (_ & Hs & _). lia.
Qed.

Lemma parse_loop_ok (fuel : nat) :
  forall commands st,
    Inv st -> length (tokens st) - current st < fuel ->
    wp (parse_loop fuel commands) st (fun _ st' => Advances st st').
Proof.
  induction fuel as [|fuel IH]; intros commands st Hi Hf; [lia|].
  cbn [parse_loop].
  apply wp_bind, wp_isAtEnd; [exact Hi|]. intros t Ht.
  destruct (TokenType_eqb (Token.type t) EOF) eqn:E.
  { apply wp_ret, Advances_refl; exact Hi. }
  apply TokenType_eqb_neq in E.
  apply wp_bind.
  eapply wp_conseq; [exact (parse_body_ok commands _ _ Hi Ht E)|].
  intros cs st' [Ha Hc]. cbv beta.
  eapply wp_conseq.
  - apply IH; [eapply Advances_Inv; eauto|].
    destruct Ha as (T & _ & _). rewrite T.
    pose proof (proj2 Hi). lia.
  - intros u st'' H. cbv beta. eapply Advances_trans; eauto.
Qed.

(** *** On a stream where a code follows every marker *)

Lemma parseCommand_paired (st : state) (t : Token.t) :
  Inv st -> Paired (tokens st) -> cur st = Some t -> Token.type t <> EOF ->
  wp parseCommand st
     (fun _ st' => Evolves st st' /\ current st < current st').
Proof.
  intros Hi Hp Ht Hne.
  pose proof (parseCommand_cases _ _ Hi Ht Hne) as H.
  unfold wp. destruct (parseCommand st) as [a st'|e st'|]; auto.
  destruct H as (_ & _ & Hs & n & Hn & Hc & _).
  destruct (Hp _ _ Ht Hs) as (b & Hb & Hbc).
  unfold cur in Hn. simpl in Hn. rewrite Nat.add_1_r in Hn. congruence.
Qed.

Lemma parse_body_paired (commands : list AnyZplCommand) (st : state)
      (t : Token.t) :
  Inv st -> Paired (tokens st) -> cur st = Some t -> Token.type t <> EOF ->
  wp (parse_body commands) st
     (fun _ st' => Evolves st st' /\ current st < current st').
Proof.
  intros Hi Hp Ht Hne.
  pose proof (parseCommand_paired _ _ Hi Hp Ht Hne) as H.
  unfold wp in *. unfold parse_body, tryCatch, bind.
  destruct (parseCommand st) as [a st'|e st'|]; try contradiction.
  exact H.
Qed.

Lemma parse_loop_paired (fuel : nat) :
  forall commands st,
    Inv st -> Paired (tokens st) ->
    length (tokens st) - current st < fuel ->
    wp (parse_loop fuel commands) st (fun _ st' => Evolves st st').
Proof.
  induction fuel as [|fuel IH]; intros commands st Hi Hp Hf; [lia|].
  cbn [parse_loop].
  apply wp_bind, wp_isAtEnd; [exact Hi|]. intros t Ht.
  destruct (TokenType_eqb (Token.type t) EOF) eqn:E.
  { apply wp_ret, Evolves_refl; exact Hi. }
  apply TokenType_eqb_neq in E.
  apply wp_bind.
  eapply wp_conseq; [exact (parse_body_paired commands _ _ Hi Hp Ht E)|].
  intros cs st' [He Hc]. cbv beta.
  pose proof (proj1 (proj1 He)) as T.
  eapply wp_conseq.
  - apply IH; [eapply Evolves_Inv; eauto | rewrite T; exact Hp |].
    rewrite T. pose proof (proj2 Hi). lia.
  - intros u st'' H. cbv beta. eapply Evolves_trans; eauto.
Qed.

End ParserFacts.

(** ** The whole pipeline *)

Lemma tokenize_shape (source : str) :
  exists toks errs,
    ZplTokenizer.tokenize source = Some (toks, errs)
    /\ Monotone toks /\ OneEOF toks /\ Paired toks.
Proof.
  destruct (tokenize_ok source) as (l & eof & errs & n & H & Hs & He & Ho).
  destruct (Scanned_shape _ _ Hs) as (Hb & Hne & Hm & Hp).
  exists (l ++ [eof]), errs. split; [exact H|]. repeat split.
  - eapply Monotone_snoc; eauto. lia.
  - exists l, eof. auto.
  - apply Paired_snoc; [exact Hp | congruence].
Qed.

Lemma OneEOF_nonempty (toks : list Token.t) :
  OneEOF toks -> EndsWithEOF toks /\ 0 < length toks.
Proof.
  intros (pre & eof & -> & He & _). split.
  - exists pre, eof; auto.
  - rewrite length_app; simpl; lia.
Qed.

(** [parse] returns a document for every source: its errors are those of
    the tokenizer followed by what the grammar rules recorded, none of
    which is a failure of [consume]. *)
Lemma parse_total (source : str) (this : ZplParser.state) :
  exists toks errs doc st',
    ZplTokenizer.tokenize source = Some (toks, errs)
    /\ ZplParser.parse source this = ZplParser.Ok doc st'
    /\ ZplDocument.source doc = source
    /\ ZplDocument.errors doc = ZplParser.errors st'
    /\ ZplDocument.warnings doc = ZplParser.warnings st'
    /\ ParserLogic.Evolves (ZplParser.mkState toks 0 errs []) st'.
Proof.
  destruct (tokenize_shape source) as (toks & errs & H & _ & Ho & Hp).
  destruct (OneEOF_nonempty _ Ho) as [He Hl].
  exists toks, errs.
  assert (Hi : ParserLogic.Inv (ZplParser.mkState toks 0 errs [])).
  { split; simpl; assumption. }
  assert (Hw : ParserLogic.wp
                 (ZplParser.parse_loop (S (length toks)) [])
                 (ZplParser.mkState toks 0 errs [])
                 (fun _ st' =>
                    ParserLogic.Evolves (ZplParser.mkState toks 0 errs [])
                                        st')).
  { apply parse_loop_paired; [exact Hi | exact Hp | simpl; lia]. }
  unfold ZplParser.parse. rewrite H.
  unfold ParserLogic.wp in Hw. unfold ZplParser.bind at 1.
  destruct (ZplParser.parse_loop (S (length toks)) []
              (ZplParser.mkState toks 0 errs [])) as [cs st'| |];
    try contradiction.
  eexists _, st'. split; [reflexivity|].
  split; [reflexivity|]. simpl.
  split; [reflexivity|]. split; [reflexivity|]. split; [reflexivity|].
  exact Hw.
Qed.

(** ** [parseInt] on strings without digits *)

Lemma parseDigits_no_digit (s : str) :
  Forall (fun c => isDigit c = false) s -> parseDigits s None = None.
Proof. intros H; destruct H as [|c s Hc _]; simpl; [|rewrite Hc]; auto. Qed.

Lemma skipWhiteSpace_Forall (P : char -> Prop) (s : str) :
  Forall P s -> Forall P (skipWhiteSpace s).
Proof.
  induction 1 as [|c s Hc Hs IH]; simpl; [constructor|].
  destruct (isJsWhiteSpace c); [exact IH | constructor; assumption].
Qed.

Lemma parseInt_no_digit (s : str) :
  Forall (fun c => isDigit c = false) s -> parseInt (Some s) = None.
Proof.
  intros H. unfold parseInt.
  pose proof (skipWhiteSpace_Forall _ _ H) as H'.
  destruct (skipWhiteSpace s) as [|c s']; [reflexivity|].
  inversion H' as [|? ? Hc Hs]; subst.
  destruct (c =? 45)%N; [rewrite (parseDigits_no_digit _ Hs); reflexivity|].
  destruct (c =? 43)%N; [apply parseDigits_no_digit; exact Hs|].
  apply parseDigits_no_digit; exact H'.
Qed.

Lemma parseDigits_Some (s : str) :
  forall n, exists m, parseDigits s (Some n) = Some m.
Proof.
  induction s as [|c s IH]; intros n; simpl; [eauto|].
  destruct (isDigit c); eauto.
Qed.

Lemma parseDigits_head (s : str) :
  parseDigits s None = None
  <-> match s with d :: _ => isDigit d | [] => false end = false.
Proof.
  destruct s as [|d s]; simpl; [tauto|].
  destruct (isDigit d); [|tauto].
  match goal with
  | |- context [parseDigits s (Some ?n)] =>
      destruct (parseDigits_Some s n) as [m ->]
  end.
  split; discriminate.
Qed.

(** [parseInt] yields [NaN] exactly on the strings that do not start a
    number. *)
Lemma parseInt_NaN (s : str) :
  parseInt (Some s) = None <-> startsNumber s = false.
Proof.
  unfold parseInt, startsNumber.
  destruct (skipWhiteSpace s) as [|c s']; [tauto|].
  destruct (c =? 45)%N eqn:E1; simpl.
  - rewrite <- parseDigits_head.
    destruct (parseDigits s' None); simpl; split; congruence.
  - destruct (c =? 43)%N eqn:E2; simpl.
    + apply parseDigits_head.
    + apply (parseDigits_head (c :: s')).
Qed.

(** ** The rules for LH and FO, on fewer than two parameters *)

Section Coordinates.

Import ZplParser ParserLogic.

Lemma parseParameters_eq (st : state) :
  Inv st ->
  parseParameters st
  = Ok (parametersAt st) (skip (length (parametersAt st)) st).
Proof.
  intros Hi. unfold parseParameters, bind, gets.
  destruct (parseParameters_loop_eq (S (length (tokens st))) [] st Hi)
    as [E _]; [lia|].
  rewrite E. reflexivity.
Qed.

Lemma nth_error_short {A} (l : list A) :
  length l < 2 -> nth_error l 1 = None.
Proof. intros H. apply nth_error_None. lia. Qed.

Lemma parseLabelHome_short (s c : Token.t) (st : state) :
  Inv st -> length (parametersAt st) < 2 ->
  parseLabelHome (Some s) (Some c) st
  = Ok (LabelHome (lit "^" ++ Token.value c) (Token.position s)
                  (parseNumberParameter (nth_error (parametersAt st) 0) 0)
                  0 (parametersAt st))
       (record (parserError (lit "LH command requires x and y parameters")
                            (Token.position s))
               (skip (length (parametersAt st)) st)).
Proof.
  intros Hi Hl. unfold parseLabelHome. cbn [valueOf positionOf].
  unfold bind at 1. unfold ret at 1.
  unfold bind at 1. rewrite (parseParameters_eq _ Hi).
  rewrite (proj2 (Nat.ltb_lt _ _) Hl).
  rewrite (nth_error_short _ Hl). reflexivity.
Qed.

Lemma parseFieldOrigin_short (s c : Token.t) (st : state) :
  Inv st -> length (parametersAt st) < 2 ->
  parseFieldOrigin (Some s) (Some c) st
  = Ok (FieldOrigin (lit "^" ++ Token.value c) (Token.position s)
                    (parseNumberParameter (nth_error (parametersAt st) 0) 0)
                    0 (parametersAt st))
       (record (parserError (lit "FO command requires x and y parameters")
                            (Token.position s))
               (skip (length (parametersAt st)) st)).
Proof.
  intros Hi Hl. unfold parseFieldOrigin. cbn [valueOf positionOf].
  unfold bind at 1. unfold ret at 1.
  unfold bind at 1. rewrite (parseParameters_eq _ Hi).
  rewrite (proj2 (Nat.ltb_lt _ _) Hl).
  rewrite (nth_error_short _ Hl). reflexivity.
Qed.

End Coordinates.

(** * Further properties *)

(** ** The scanning loops of the tokenizer take longest prefixes *)

Lemma spanLen_le (p : char -> bool) (l : str) : spanLen p l <= length l.
Proof.
  induction l as [|c l IH]; simpl; [lia|]. destruct (p c); simpl; lia.
Qed.

Lemma spanLen_all (p : char -> bool) (l : str) :
  Forall (fun c => p c = true) (firstn (spanLen p l) l).
Proof.
  induction l as [|c l IH]; simpl; [constructor|].
  destruct (p c) eqn:E; simpl; constructor; assumption.
Qed.

Lemma spanLen_stop (p : char -> bool) (l : str) (c : char) :
  nth_error l (spanLen p l) = Some c -> p c = false.
Proof.
  induction l as [|d l IH]; simpl; [discriminate|].
  destruct (p d) eqn:E; simpl; [exact IH | congruence].
Qed.

Lemma textAt_length (source : str) (o : nat) (p : char -> bool) :
  length (textAt source o (spanLen p (skipn o source)))
  = spanLen p (skipn o source).
Proof. unfold textAt. apply firstn_length_le, spanLen_le. Qed.

Lemma nth_error_rest (source : str) (o k : nat) :
  nth_error (skipn o source) k = nth_error source (o + k).
Proof. apply nth_error_skipn. Qed.

Lemma lineAfter_snoc (l : list Token.t) (t : Token.t) :
  lineAfter (l ++ [t]) = lineStep (lineAfter l) t.
Proof. unfold lineAfter. rewrite fold_left_app. reflexivity. Qed.

Lemma WellLocated_snoc (l : list Token.t) (t : Token.t) :
  WellLocated l -> Located l t -> WellLocated (l ++ [t]).
Proof.
  intros Hl Ht i a Ha.
  apply nth_error_snoc in Ha. destruct Ha as [[Hlt Ha]|[-> ->]].
  - rewrite firstn_app.
    replace (i - length l) with 0 by lia. simpl. rewrite app_nil_r.
    apply Hl; exact Ha.
  - rewrite firstn_app, firstn_all, Nat.sub_diag. simpl.
    rewrite app_nil_r. exact Ht.
Qed.

Section ScanFacts.

Import ZplTokenizer.

Variable source : str.

Lemma advance_0 (st : state) : advance 0 st = st.
Proof. destruct st; unfold advance; simpl. rewrite !Nat.add_0_r. auto. Qed.

Lemma advance_advance (a b : nat) (st : state) :
  advance a (advance b st) = advance (b + a) st.
Proof. unfold advance; simpl. f_equal; lia. Qed.

Lemma rest_at (st : state) (c : char) :
  nth_error source (position st) = Some c ->
  skipn (position st) source = c :: skipn (position st + 1) source.
Proof.
  intros H. rewrite (skipn_nth_error _ _ _ H), Nat.add_1_r. reflexivity.
Qed.

Lemma rest_end (st : state) :
  nth_error source (position st) = None -> skipn (position st) source = [].
Proof. intros H. apply skipn_all2, nth_error_None; exact H. Qed.

Lemma peek_1 (st : state) (c : char) :
  nth_error source (position st) = Some c -> peek source 1 st = [c].
Proof. intros H. unfold peek. rewrite (rest_at _ _ H). reflexivity. Qed.

(** The loop of [tokenizeCommand] appends the longest run of
    command-code characters and stops behind it. *)
Lemma tokenizeCommand_loop_eq (fuel : nat) :
  forall code st,
    length source - position st < fuel ->
    tokenizeCommand_loop source fuel code st
    = Some (code ++ textAt source (position st)
                      (spanLen isCommandChar (skipn (position st) source)),
            advance (spanLen isCommandChar (skipn (position st) source))
                    st).
Proof.
  induction fuel as [|fuel IH]; intros code st Hf; [lia|].
  cbn [tokenizeCommand_loop]. unfold textAt.
  destruct (nth_error source (position st)) as [c|] eqn:E.
  - rewrite (rest_at _ _ E). simpl spanLen.
    destruct (isCommandChar c).
    + apply position_in_range in E.
      rewrite IH by (simpl; lia). simpl.
      rewrite advance_advance, <- app_assoc. reflexivity.
    + simpl. rewrite app_nil_r, advance_0. reflexivity.
  - rewrite (rest_end _ E). simpl.
    rewrite app_nil_r, advance_0. reflexivity.
Qed.

Lemma tokenizeParameters_inner_eq (fuel : nat) :
  forall parameter st,
    length source - position st < fuel ->
    tokenizeParameters_inner source fuel parameter st
    = Some (parameter
            ++ textAt source (position st)
                 (spanLen notSeparator (skipn (position st) source)),
            advance (spanLen notSeparator (skipn (position st) source))
                    st).
Proof.
  induction fuel as [|fuel IH]; intros parameter st Hf; [lia|].
  cbn [tokenizeParameters_inner]. unfold textAt.
  destruct (nth_error source (position st)) as [c|] eqn:E.
  - rewrite (rest_at _ _ E). simpl spanLen. unfold notSeparator at 1 3.
    fold (separator c). destruct (separator c); simpl.
    + rewrite app_nil_r, advance_0. reflexivity.
    + apply position_in_range in E.
      rewrite IH by (simpl; lia). simpl.
      rewrite advance_advance, <- app_assoc. reflexivity.
  - rewrite (rest_end _ E). simpl.
    rewrite app_nil_r, advance_0. reflexivity.
Qed.

Lemma tokenizeLineComment_loop_eq (fuel : nat) :
  forall comment st,
    length source - position st < fuel ->
    tokenizeLineComment_loop source fuel comment st
    = Some (comment
            ++ textAt source (position st)
                 (spanLen notNewline (skipn (position st) source)),
            advance (spanLen notNewline (skipn (position st) source)) st).
Proof.
  induction fuel as [|fuel IH]; intros comment st Hf; [lia|].
  cbn [tokenizeLineComment_loop]. unfold textAt.
  destruct (nth_error source (position st)) as [c|] eqn:E.
  - rewrite (rest_at _ _ E). simpl spanLen. unfold notNewline at 1 3.
    destruct (negb (c =? ch_newline)%N); simpl.
    + apply position_in_range in E.
      rewrite IH by (simpl; lia). simpl.
      rewrite advance_advance, <- app_assoc. reflexivity.
    + rewrite app_nil_r, advance_0. reflexivity.
  - rewrite (rest_end _ E). simpl.
    rewrite app_nil_r, advance_0. reflexivity.
Qed.

End ScanFacts.

(** ** The tokenizer keeps its tokens and errors true to the source *)

Section GoodScanFacts.

Import ZplTokenizer.

Variable source : str.

Lemma GoodScan_advance (k : nat) (st : state) :
  GoodScan source st -> position st + k <= length source + 1 ->
  GoodScan source (advance k st).
Proof.
  intros (Ht & He & Hw & Hl & Hc & Hp) Hk.
  split; [exact Ht|]. split; [exact He|]. split; [exact Hw|].
  simpl. split; [exact Hl|]. split; lia.
Qed.

Lemma GoodScan_push (tok : Token.t) (st : state) :
  GoodScan source st -> Faithful source tok ->
  Located (tokens st) tok -> Token.type tok <> NEWLINE ->
  GoodScan source (push tok st).
Proof.
  intros (Ht & He & Hw & Hl & Hc & Hp) Hf Hloc Hn.
  assert (E : lineAfter (tokens st ++ [tok]) = lineAfter (tokens st)).
  { rewrite lineAfter_snoc. unfold lineStep.
    destruct (Token.type tok); congruence. }
  unfold GoodScan. simpl. rewrite E.
  split; [apply Forall_app; split;
          [exact Ht | constructor; [exact Hf | constructor]]|].
  split; [exact He|].
  split; [apply WellLocated_snoc; assumption|]. auto.
Qed.

Lemma GoodScan_addError (message : str) (st : state) :
  GoodScan source st ->
  LexicalError source
    (ParseError.mk message (getCurrentPosition st) ERROR
                   (lit "TOKENIZER_ERROR")) ->
  GoodScan source (addError message st).
Proof.
  intros (Ht & He & Hw & Hl & Hc & Hp) H.
  unfold GoodScan. simpl. split; [exact Ht|].
  split; [apply Forall_app; split;
          [exact He | constructor; [exact H | constructor]]|].
  auto.
Qed.

(** A token placed where the tokenizer stood in [st0], pushed while
    the tokens are still those of [st0]. *)
Lemma Located_here (st0 : state) (type : TokenType) (value raw : str) :
  GoodScan source st0 -> type <> COMMAND_CODE ->
  Located (tokens st0)
          (Token.mk type value (getCurrentPosition st0) raw).
Proof.
  intros (_ & _ & _ & Hl & Hc & _) Hn. unfold Located, offsetOf. simpl.
  apply TokenType_eqb_neq in Hn. rewrite Hn. split; [exact Hl | lia].
Qed.

Lemma tokenizeNewline_good (st : state) :
  GoodScan source st ->
  nth_error source (position st) = Some ch_newline ->
  GoodScan source (tokenizeNewline st).
Proof.
  intros Hg Hc. pose proof (position_in_range _ _ _ Hc) as Hlt.
  pose proof (Located_here st NEWLINE [ch_newline] [ch_newline] Hg
                           ltac:(discriminate)) as Hloc.
  destruct Hg as (Ht & He & Hw & Hl & Hcol & Hp).
  unfold tokenizeNewline, GoodScan. simpl.
  rewrite lineAfter_snoc. unfold lineStep, offsetOf. simpl.
  split.
  { apply Forall_app; split; [exact Ht|]. constructor; [|constructor].
    split; [reflexivity|]. simpl. split; [reflexivity | exact Hc]. }
  split; [exact He|].
  split; [apply WellLocated_snoc; assumption|].
  split; [rewrite Hl; lia|]. split; lia.
Qed.

Lemma tokenizeParameters_loop_good (fuel : nat) :
  forall st st',
    tokenizeParameters_loop source fuel st = Some st' ->
    GoodScan source st -> position st <= length source ->
    GoodScan source st' /\ position st' <= length source.
Proof.
  induction fuel as [|fuel IH]; intros st st' H Hg Hp; [discriminate|].
  cbn [tokenizeParameters_loop] in H.
  destruct (nth_error source (position st)) as [c|] eqn:E.
  2:{ injection H as <-. auto. }
  pose proof (position_in_range _ _ _ E) as Hlt.
  destruct ((c =? ch_caret)%N || (c =? ch_newline)%N) eqn:E1.
  { injection H as <-. auto. }
  destruct (c =? ch_comma)%N eqn:E2.
  { apply IH in H; [exact H | | simpl; lia].
    apply GoodScan_advance; [exact Hg | lia]. }
  destruct (isWhitespace c) eqn:E3; cbn [negb] in H.
  { apply IH in H; [exact H | | simpl; lia].
    apply GoodScan_advance; [exact Hg | lia]. }
  rewrite tokenizeParameters_inner_eq in H by lia.
  cbn [app] in H.
  remember (spanLen notSeparator (skipn (position st) source)) as k eqn:Ek.
  assert (Hsep : separator c = false).
  { unfold separator. apply orb_false_iff in E1. destruct E1 as [-> ->].
    rewrite E2, E3. reflexivity. }
  assert (Hk : 1 <= k /\ position st + k <= length source).
  { rewrite Ek. split.
    - rewrite (rest_at _ _ _ E). simpl. unfold notSeparator.
      rewrite Hsep. simpl. lia.
    - pose proof (spanLen_le notSeparator (skipn (position st) source)).
      rewrite length_skipn in H0. lia. }
  assert (Hlen : length (textAt source (position st) k) = k).
  { rewrite Ek. apply textAt_length. }
  destruct (textAt source (position st) k) as [|x p] eqn:Ep.
  { simpl in Hlen. lia. }
  apply IH in H; [exact H | | simpl; lia].
  apply GoodScan_push.
  - apply GoodScan_advance; [exact Hg | lia].
  - split; [reflexivity|]. cbn [Token.type Token.value].
    unfold offsetOf. cbn [Token.position getCurrentPosition
                          SourcePosition.offset].
    rewrite Hlen, <- Ep.
    split; [rewrite Ep; discriminate|]. split; [reflexivity|]. split.
    + unfold textAt. rewrite Ek.
      eapply Forall_impl; [|apply spanLen_all].
      intros a Ha. unfold notSeparator in Ha.
      destruct (separator a); [discriminate | reflexivity].
    + intros d Hd. rewrite <- nth_error_rest, Ek in Hd.
      apply spanLen_stop in Hd. unfold notSeparator in Hd.
      destruct (separator d); [reflexivity | discriminate].
  - simpl. apply Located_here; [exact Hg | discriminate].
  - simpl. discriminate.
Qed.

Lemma tokenizeCommand_good (st st' : state) :
  tokenizeCommand source st = Some st' ->
  GoodScan source st ->
  nth_error source (position st) = Some ch_caret ->
  GoodScan source st'.
Proof.
  intros H Hg Hc. pose proof (position_in_range _ _ _ Hc) as Hlt.
  unfold tokenizeCommand in H.
  rewrite tokenizeCommand_loop_eq in H by (simpl; lia).
  cbn [app position advance] in H.
  remember (spanLen isCommandChar (skipn (position st + 1) source))
    as k eqn:Ek.
  assert (Hk : position st + 1 + k <= length source).
  { pose proof (spanLen_le isCommandChar (skipn (position st + 1) source))
      as Hle.
    rewrite length_skipn, <- Ek in Hle. lia. }
  assert (Hlen : length (textAt source (position st + 1) k) = k).
  { rewrite Ek. apply textAt_length. }
  assert (Hstop : forall c, nth_error source (position st + 1 + k) = Some c
                            -> isCommandChar c = false).
  { intros c Hn. rewrite <- nth_error_rest, Ek in Hn.
    apply spanLen_stop in Hn. exact Hn. }
  assert (Hadv : GoodScan source (advance k (advance 1 st))).
  { rewrite advance_advance. apply GoodScan_advance; [exact Hg | lia]. }
  destruct (textAt source (position st + 1) k) as [|x code] eqn:Ecode.
  - injection H as <-. simpl in Hlen. subst k.
    apply GoodScan_addError; [exact Hadv|].
    split; [reflexivity|]. split; [reflexivity|]. left.
    split; [reflexivity|]. simpl. split.
    + exists (position st). split; [lia | exact Hc].
    + intros c Hn. apply Hstop. rewrite <- Hn. f_equal; lia.
  - apply tokenizeParameters_loop_good in H; [apply H | | simpl; lia].
    apply GoodScan_push.
    + apply GoodScan_push.
      * exact Hadv.
      * split; [reflexivity|]. simpl. split; [reflexivity | exact Hc].
      * simpl. apply Located_here; [exact Hg | discriminate].
      * simpl. discriminate.
    + split; [reflexivity|]. cbn [Token.type Token.value].
      unfold offsetOf. cbn [Token.position SourcePosition.offset
                            getCurrentPosition].
      rewrite Hlen, <- Ecode.
      split; [rewrite Ecode; discriminate|]. split; [reflexivity|].
      split; [exact Hc|]. split; [|exact Hstop].
      unfold textAt. rewrite Ek. apply spanLen_all.
    + destruct Hg as (_ & _ & _ & Hl & Hcol & _).
      unfold Located, offsetOf. simpl.
      rewrite lineAfter_snoc. unfold lineStep. simpl.
      split; [exact Hl | lia].
    + simpl. discriminate.
Qed.

Lemma tokenizeLineComment_good (st st' : state) :
  tokenizeLineComment source st = Some st' ->
  GoodScan source st ->
  nth_error source (position st) = Some ch_slash ->
  GoodScan source st'.
Proof.
  intros H Hg Hc. pose proof (position_in_range _ _ _ Hc) as Hlt.
  unfold tokenizeLineComment in H.
  rewrite tokenizeLineComment_loop_eq in H by (simpl; lia).
  cbn [position advance] in H. injection H as <-.
  remember (spanLen notNewline (skipn (position st + 2) source))
    as k eqn:Ek.
  assert (Hk : position st + 2 + k <= length source + 1).
  { pose proof (spanLen_le notNewline (skipn (position st + 2) source))
      as Hle.
    rewrite length_skipn, <- Ek in Hle. lia. }
  assert (Hlen : length (textAt source (position st + 2) k) = k).
  { rewrite Ek. apply textAt_length. }
  apply GoodScan_push.
  - rewrite advance_advance. apply GoodScan_advance; [exact Hg | lia].
  - split; [reflexivity|]. cbn [Token.type Token.value].
    unfold offsetOf. cbn [Token.position SourcePosition.offset
                          getCurrentPosition].
    split; [exact Hc|].
    exists (textAt source (position st + 2) k). rewrite Hlen.
    split; [reflexivity|]. split; [reflexivity|]. split.
    + unfold textAt. rewrite Ek.
      eapply Forall_impl; [|apply spanLen_all].
      intros a Ha. unfold notNewline in Ha.
      destruct (a =? ch_newline)%N eqn:Ea; [discriminate|].
      apply N.eqb_neq; exact Ea.
    + intros d Hd. rewrite <- nth_error_rest, Ek in Hd.
      apply spanLen_stop in Hd. unfold notNewline in Hd.
      destruct (d =? ch_newline)%N eqn:Ed; [|discriminate].
      apply N.eqb_eq; exact Ed.
  - simpl. apply Located_here; [exact Hg | discriminate].
  - simpl. discriminate.
Qed.

(** A slash always opens a line comment: [peek()] returns the slash
    itself, so the test for a block comment is never reached with a
    slash. *)
Lemma slash_is_line_comment (st : state) :
  nth_error source (position st) = Some ch_slash ->
  tokenize_step source ch_slash st = tokenizeLineComment source st.
Proof.
  intros H. unfold tokenize_step. rewrite (peek_1 _ _ _ H). reflexivity.
Qed.

Lemma not_slash_no_comment (c : char) (st : state) :
  nth_error source (position st) = Some c ->
  (c =? ch_slash)%N && str_eqb (peek source 1 st) (lit "/") = false ->
  (c =? ch_slash)%N = false.
Proof.
  intros H E. rewrite (peek_1 _ _ _ H) in E.
  destruct (c =? ch_slash)%N eqn:Es; [|reflexivity].
  apply N.eqb_eq in Es. subst c. discriminate E.
Qed.

Lemma tokenize_step_good (c : char) (st st' : state) :
  nth_error source (position st) = Some c ->
  tokenize_step source c st = Some st' ->
  GoodScan source st -> GoodScan source st'.
Proof.
  intros Hc H Hg. pose proof (position_in_range _ _ _ Hc) as Hlt.
  unfold tokenize_step in H.
  destruct (c =? ch_caret)%N eqn:E1.
  { apply N.eqb_eq in E1. subst c.
    eapply tokenizeCommand_good; eauto. }
  destruct (c =? ch_newline)%N eqn:E2.
  { apply N.eqb_eq in E2. subst c. injection H as <-.
    apply tokenizeNewline_good; assumption. }
  destruct ((c =? ch_slash)%N && str_eqb (peek source 1 st) (lit "/"))
    eqn:E3.
  { apply andb_true_iff in E3. destruct E3 as [E3 _].
    apply N.eqb_eq in E3. subst c.
    eapply tokenizeLineComment_good; eauto. }
  pose proof (not_slash_no_comment _ _ Hc E3) as E4.
  rewrite E4 in H. cbn [andb] in H.
  destruct (isWhitespace c) eqn:E5; injection H as <-.
  - apply GoodScan_advance; [exact Hg | lia].
  - apply GoodScan_advance; [|simpl; lia].
    apply GoodScan_addError; [exact Hg|].
    split; [reflexivity|]. split; [reflexivity|]. right.
    exists c. simpl. repeat split; assumption.
Qed.

Lemma tokenize_loop_good (fuel : nat) :
  forall st st',
    tokenize_loop source fuel st = Some st' ->
    GoodScan source st ->
    GoodScan source st' /\ nth_error source (position st') = None.
Proof.
  induction fuel as [|fuel IH]; intros st st' H Hg; [discriminate|].
  cbn [tokenize_loop] in H.
  destruct (nth_error source (position st)) as [c|] eqn:E.
  - destruct (tokenize_step source c st) as [st1|] eqn:E1;
      [|discriminate].
    apply (IH _ _ H). eapply tokenize_step_good; eauto.
  - injection H as <-. auto.
Qed.

End GoodScanFacts.

Lemma GoodScan_start (source : str) :
  GoodScan source (ZplTokenizer.mkState 0 1 1 [] []).
Proof.
  unfold GoodScan. simpl. split; [constructor|]. split; [constructor|].
  split; [intros i t H; destruct i; discriminate|].
  split; [reflexivity|]. split; lia.
Qed.

(** ** The tokenizer makes at most one token or error for a character *)

Section CountFacts.

Import ZplTokenizer.

Variable source : str.

Ltac count_simpl :=
  unfold Counted in *;
  cbn [tokens errors position advance push addError tokenizeNewline] in *;
  rewrite ?length_app in *; cbn [length] in *.

Lemma tokenizeParameters_loop_count (fuel : nat) :
  forall st st',
    tokenizeParameters_loop source fuel st = Some st' ->
    Counted source st -> position st <= length source ->
    Counted source st' /\ position st' <= length source.
Proof.
  induction fuel as [|fuel IH]; intros st st' H Hg Hp; [discriminate|].
  cbn [tokenizeParameters_loop] in H.
  destruct (nth_error source (position st)) as [c|] eqn:E.
  2:{ injection H as <-. auto. }
  pose proof (position_in_range _ _ _ E) as Hlt.
  destruct ((c =? ch_caret)%N || (c =? ch_newline)%N) eqn:E1.
  { injection H as <-. auto. }
  destruct (c =? ch_comma)%N eqn:E2.
  { apply IH in H; [exact H | | simpl; lia]. count_simpl. lia. }
  destruct (isWhitespace c) eqn:E3; cbn [negb] in H.
  { apply IH in H; [exact H | | simpl; lia]. count_simpl. lia. }
  rewrite tokenizeParameters_inner_eq in H by lia.
  cbn [app] in H.
  remember (spanLen notSeparator (skipn (position st) source)) as k eqn:Ek.
  assert (Hsep : separator c = false).
  { unfold separator. apply orb_false_iff in E1. destruct E1 as [-> ->].
    rewrite E2, E3. reflexivity. }
  assert (Hk : 1 <= k /\ position st + k <= length source).
  { rewrite Ek. split.
    - rewrite (rest_at _ _ _ E). simpl. unfold notSeparator.
      rewrite Hsep. simpl. lia.
    - pose proof (spanLen_le notSeparator (skipn (position st) source)).
      rewrite length_skipn in H0. lia. }
  assert (Hlen : length (textAt source (position st) k) = k).
  { rewrite Ek. apply textAt_length. }
  destruct (textAt source (position st) k) as [|x p] eqn:Ep.
  { simpl in Hlen. lia. }
  apply IH in H; [exact H | | simpl; lia].
  count_simpl. lia.
Qed.

Lemma tokenizeCommand_count (st st' : state) :
  tokenizeCommand source st = Some st' ->
  Counted source st ->
  nth_error source (position st) = Some ch_caret ->
  Counted source st'.
Proof.
  intros H Hg Hc. pose proof (position_in_range _ _ _ Hc) as Hlt.
  unfold tokenizeCommand in H.
  rewrite tokenizeCommand_loop_eq in H by (simpl; lia).
  cbn [app position advance] in H.
  remember (spanLen isCommandChar (skipn (position st + 1) source))
    as k eqn:Ek.
  assert (Hk : position st + 1 + k <= length source).
  { pose proof (spanLen_le isCommandChar (skipn (position st + 1) source))
      as Hle.
    rewrite length_skipn, <- Ek in Hle. lia. }
  assert (Hlen : length (textAt source (position st + 1) k) = k).
  { rewrite Ek. apply textAt_length. }
  destruct (textAt source (position st + 1) k) as [|x code] eqn:Ecode.
  - injection H as <-. count_simpl. lia.
  - simpl in Hlen.
    apply tokenizeParameters_loop_count in H; [apply H | | simpl; lia].
    count_simpl. lia.
Qed.

Lemma tokenizeLineComment_count (st st' : state) :
  tokenizeLineComment source st = Some st' ->
  Counted source st ->
  nth_error source (position st) = Some ch_slash ->
  Counted source st'.
Proof.
  intros H Hg Hc. pose proof (position_in_range _ _ _ Hc) as Hlt.
  unfold tokenizeLineComment in H.
  rewrite tokenizeLineComment_loop_eq in H by (simpl; lia).
  cbn [position advance] in H. injection H as <-.
  count_simpl. lia.
Qed.

Lemma tokenize_step_count (c : char) (st st' : state) :
  nth_error source (position st) = Some c ->
  tokenize_step source c st = Some st' ->
  Counted source st -> Counted source st'.
Proof.
  intros Hc H Hg. pose proof (position_in_range _ _ _ Hc) as Hlt.
  unfold tokenize_step in H.
  destruct (c =? ch_caret)%N eqn:E1.
  { apply N.eqb_eq in E1. subst c.
    eapply tokenizeCommand_count; eauto. }
  destruct (c =? ch_newline)%N eqn:E2.
  { injection H as <-. count_simpl. lia. }
  destruct ((c =? ch_slash)%N && str_eqb (peek source 1 st) (lit "/"))
    eqn:E3.
  { apply andb_true_iff in E3. destruct E3 as [E3 _].
    apply N.eqb_eq in E3. subst c.
    eapply tokenizeLineComment_count; eauto. }
  pose proof (not_slash_no_comment _ _ _ Hc E3) as E4.
  rewrite E4 in H. cbn [andb] in H.
  destruct (isWhitespace c) eqn:E5; injection H as <-;
    count_simpl; lia.
Qed.

Lemma tokenize_loop_count (fuel : nat) :
  forall st st',
    tokenize_loop source fuel st = Some st' ->
    Counted source st -> Counted source st'.
Proof.
  induction fuel as [|fuel IH]; intros st st' H Hg; [discriminate|].
  cbn [tokenize_loop] in H.
  destruct (nth_error source (position st)) as [c|] eqn:E.
  - destruct (tokenize_step source c st) as [st1|] eqn:E1;
      [|discriminate].
    apply (IH _ _ H). eapply tokenize_step_count; eauto.
  - injection H as <-. exact Hg.
Qed.

End CountFacts.

(** The stream and the errors of [source] together are at most one more
    than its characters. *)
Lemma tokenize_count (source : str) :
  exists toks errs,
    ZplTokenizer.tokenize source = Some (toks, errs)
    /\ length toks + length errs <= length source + 1.
Proof.
  destruct (tokenize_ok source) as (l & eof & errs & n & H & _).
  exists (l ++ [eof]), errs. split; [exact H|].
  unfold ZplTokenizer.tokenize in H.
  destruct (ZplTokenizer.tokenize_loop source (S (length source))
              (ZplTokenizer.mkState 0 1 1 [] [])) as [st|] eqn:E;
    [|discriminate].
  assert (H0 : Counted source (ZplTokenizer.mkState 0 1 1 [] [])).
  { unfold Counted. simpl. lia. }
  pose proof (tokenize_loop_count source _ _ _ E H0) as Hc.
  simpl in H. injection H as Htok Herr.
  apply app_inj_tail in Htok. destruct Htok as [<- <-]. subst errs.
  unfold Counted in Hc. rewrite length_app. simpl. lia.
Qed.

(** What the stream and the errors of every source satisfy. *)
Lemma tokenize_good (source : str) :
  exists pre eof errs,
    ZplTokenizer.tokenize source = Some (pre ++ [eof], errs)
    /\ Forall (Faithful source) pre
    /\ Forall (LexicalError source) errs
    /\ WellLocated (pre ++ [eof])
    /\ Token.type eof = EOF
    /\ length source <= offsetOf eof <= length source + 1.
Proof.
  destruct (tokenize_ok source) as (l & eof & errs & n & H & _).
  exists l, eof, errs. split; [exact H|].
  unfold ZplTokenizer.tokenize in H.
  destruct (ZplTokenizer.tokenize_loop source (S (length source))
              (ZplTokenizer.mkState 0 1 1 [] [])) as [st|] eqn:E;
    [|discriminate].
  destruct (tokenize_loop_good source _ _ _ E (GoodScan_start source))
    as [(Ht & He & Hw & Hl & Hc & Hp) Hend].
  simpl in H. injection H as Htok Herr.
  apply app_inj_tail in Htok. destruct Htok as [<- <-]. subst errs.
  split; [exact Ht|]. split; [exact He|]. split.
  - apply WellLocated_snoc; [exact Hw|].
    unfold Located, offsetOf. simpl. split; [exact Hl | lia].
  - split; [reflexivity|]. unfold offsetOf. simpl.
    apply nth_error_None in Hend. lia.
Qed.

(** ** Every character of the source is accounted for *)

Section CoverFacts.

Import ZplTokenizer.

Variable source : str.

Lemma Covered_step (st st' : state) :
  Covered source st ->
  incl (tokens st) (tokens st') -> incl (errors st) (errors st') ->
  (forall o, position st <= o < position st' -> o < length source ->
             Accounted source (tokens st') (errors st') o) ->
  Covered source st'.
Proof.
  intros Hc Ht He Hn o Ho Hl.
  destruct (Nat.lt_ge_cases o (position st)) as [Hlt|Hge].
  - destruct (Hc o Hlt Hl) as [(t & Hi & Hv) | [H | (e & Hi & Hr)]].
    + left. exists t. split; [apply Ht; exact Hi | exact Hv].
    + right; left; exact H.
    + right; right. exists e. split; [apply He; exact Hi | exact Hr].
  - apply Hn; [lia | exact Hl].
Qed.

Lemma Covered_passed (st : state) (c : char) :
  Covered source st ->
  nth_error source (position st) = Some c ->
  c = ch_comma \/ isWhitespace c = true ->
  Covered source (advance 1 st).
Proof.
  intros Hc Hn Hs. apply (Covered_step st); try apply incl_refl; auto.
  cbn [position advance tokens errors]. intros o Ho _.
  assert (o = position st) by lia. subst o.
  right; left. exists c. auto.
Qed.

Lemma Covered_token (st : state) (k : nat) (t : Token.t) :
  Covered source st ->
  (forall o, position st <= o < position st + k -> covers t o) ->
  Covered source (push t (advance k st)).
Proof.
  intros Hc Hv. apply (Covered_step st); auto.
  - cbn. apply incl_appl, incl_refl.
  - apply incl_refl.
  - cbn [position advance tokens errors push]. intros o Ho _.
    left. exists t. split; [apply in_or_app; right; left; reflexivity|].
    apply Hv; exact Ho.
Qed.

Lemma tokenizeParameters_loop_cover (fuel : nat) :
  forall st st',
    tokenizeParameters_loop source fuel st = Some st' ->
    Covered source st -> Covered source st'.
Proof.
  induction fuel as [|fuel IH]; intros st st' H Hg; [discriminate|].
  cbn [tokenizeParameters_loop] in H.
  destruct (nth_error source (position st)) as [c|] eqn:E.
  2:{ injection H as <-. auto. }
  pose proof (position_in_range _ _ _ E) as Hlt.
  destruct ((c =? ch_caret)%N || (c =? ch_newline)%N) eqn:E1.
  { injection H as <-. auto. }
  destruct (c =? ch_comma)%N eqn:E2.
  { apply IH in H; [exact H|]. apply (Covered_passed st c); auto.
    left. apply N.eqb_eq; exact E2. }
  destruct (isWhitespace c) eqn:E3; cbn [negb] in H.
  { apply IH in H; [exact H|]. apply (Covered_passed st c); auto. }
  rewrite tokenizeParameters_inner_eq in H by lia.
  cbn [app] in H.
  remember (spanLen notSeparator (skipn (position st) source)) as k eqn:Ek.
  assert (Hsep : separator c = false).
  { unfold separator. apply orb_false_iff in E1. destruct E1 as [-> ->].
    rewrite E2, E3. reflexivity. }
  assert (Hk : 1 <= k).
  { rewrite Ek, (rest_at _ _ _ E). simpl. unfold notSeparator.
    rewrite Hsep. simpl. lia. }
  assert (Hlen : length (textAt source (position st) k) = k).
  { rewrite Ek. apply textAt_length. }
  destruct (textAt source (position st) k) as [|x p] eqn:Ep.
  { simpl in Hlen. lia. }
  apply IH in H; [exact H|].
  apply Covered_token; [exact Hg|].
  intros o Ho. unfold covers, tokenStart, offsetOf.
  cbn [Token.type Token.value Token.position getCurrentPosition
       SourcePosition.offset].
  rewrite Hlen. exact Ho.
Qed.

Lemma tokenizeCommand_cover (st st' : state) :
  tokenizeCommand source st = Some st' ->
  Covered source st ->
  nth_error source (position st) = Some ch_caret ->
  Covered source st'.
Proof.
  intros H Hg Hc. pose proof (position_in_range _ _ _ Hc) as Hlt.
  unfold tokenizeCommand in H.
  rewrite tokenizeCommand_loop_eq in H by (simpl; lia).
  cbn [app position advance] in H.
  remember (spanLen isCommandChar (skipn (position st + 1) source))
    as k eqn:Ek.
  assert (Hlen : length (textAt source (position st + 1) k) = k).
  { rewrite Ek. apply textAt_length. }
  destruct (textAt source (position st + 1) k) as [|x code] eqn:Ecode.
  - injection H as <-. simpl in Hlen. subst k.
    apply (Covered_step st); auto.
    + apply incl_refl.
    + cbn. apply incl_appl, incl_refl.
    + cbn [position advance tokens errors addError]. intros o Ho _.
      assert (o = position st) by lia. subst o.
      right; right. eexists. split;
        [apply in_or_app; right; left; reflexivity|].
      split; [reflexivity|]. split; [reflexivity|]. left.
      split; [reflexivity|]. split; [|exact Hc].
      cbn. lia.
  - apply tokenizeParameters_loop_cover in H; [exact H|].
    apply (Covered_step st); auto.
    + cbn. apply incl_appl, incl_appl, incl_refl.
    + apply incl_refl.
    + cbn [position advance tokens errors push]. intros o Ho _.
      left. destruct (Nat.eq_dec o (position st)) as [->|Hne].
      * eexists. split;
          [apply in_or_app; left; apply in_or_app; right; left;
           reflexivity|].
        unfold covers, tokenStart, offsetOf. cbn. lia.
      * eexists. split; [apply in_or_app; right; left; reflexivity|].
        unfold covers, tokenStart, offsetOf.
        cbn [Token.type Token.value Token.position getCurrentPosition
             SourcePosition.offset].
        rewrite Hlen. lia.
Qed.

Lemma tokenizeLineComment_cover (st st' : state) :
  tokenizeLineComment source st = Some st' ->
  Covered source st ->
  nth_error source (position st) = Some ch_slash ->
  Covered source st'.
Proof.
  intros H Hg Hc. pose proof (position_in_range _ _ _ Hc) as Hlt.
  unfold tokenizeLineComment in H.
  rewrite tokenizeLineComment_loop_eq in H by (simpl; lia).
  cbn [position advance] in H. injection H as <-.
  remember (spanLen notNewline (skipn (position st + 2) source))
    as k eqn:Ek.
  assert (Hlen : length (textAt source (position st + 2) k) = k).
  { rewrite Ek. apply textAt_length. }
  rewrite advance_advance.
  apply Covered_token; [exact Hg|].
  intros o Ho. unfold covers, tokenStart, offsetOf.
  cbn [Token.type Token.value Token.position getCurrentPosition
       SourcePosition.offset].
  cbn [length]. rewrite Hlen. lia.
Qed.

Lemma tokenize_step_cover (c : char) (st st' : state) :
  nth_error source (position st) = Some c ->
  tokenize_step source c st = Some st' ->
  Covered source st -> Covered source st'.
Proof.
  intros Hc H Hg. pose proof (position_in_range _ _ _ Hc) as Hlt.
  unfold tokenize_step in H.
  destruct (c =? ch_caret)%N eqn:E1.
  { apply N.eqb_eq in E1. subst c.
    eapply tokenizeCommand_cover; eauto. }
  destruct (c =? ch_newline)%N eqn:E2.
  { apply N.eqb_eq in E2. subst c. injection H as <-.
    apply (Covered_step st); auto.
    - cbn. apply incl_appl, incl_refl.
    - apply incl_refl.
    - cbn [position tokens errors tokenizeNewline push]. intros o Ho _.
      left. eexists. split; [apply in_or_app; right; left; reflexivity|].
      unfold covers, tokenStart, offsetOf. cbn. lia. }
  destruct ((c =? ch_slash)%N && str_eqb (peek source 1 st) (lit "/"))
    eqn:E3.
  { apply andb_true_iff in E3. destruct E3 as [E3 _].
    apply N.eqb_eq in E3. subst c.
    eapply tokenizeLineComment_cover; eauto. }
  pose proof (not_slash_no_comment _ _ _ Hc E3) as E4.
  rewrite E4 in H. cbn [andb] in H.
  destruct (isWhitespace c) eqn:E5; injection H as <-.
  - apply (Covered_passed st c); auto.
  - apply (Covered_step st); auto.
    + apply incl_refl.
    + cbn. apply incl_appl, incl_refl.
    + cbn [position advance tokens errors addError]. intros o Ho _.
      assert (o = position st) by lia. subst o.
      right; right. eexists. split;
        [apply in_or_app; right; left; reflexivity|].
      split; [reflexivity|]. split; [reflexivity|]. right.
      exists c. split; [reflexivity|]. split; [reflexivity | exact Hc].
Qed.

Lemma tokenize_loop_cover (fuel : nat) :
  forall st st',
    tokenize_loop source fuel st = Some st' ->
    Covered source st -> Covered source st'.
Proof.
  induction fuel as [|fuel IH]; intros st st' H Hg; [discriminate|].
  cbn [tokenize_loop] in H.
  destruct (nth_error source (position st)) as [c|] eqn:E.
  - destruct (tokenize_step source c st) as [st1|] eqn:E1;
      [|discriminate].
    apply (IH _ _ H). eapply tokenize_step_cover; eauto.
  - injection H as <-. exact Hg.
Qed.

End CoverFacts.

(** Every character of [source] is accounted for by the tokens before
    the final one and the errors. *)
Lemma tokenize_cover (source : str) :
  exists pre eof errs,
    ZplTokenizer.tokenize source = Some (pre ++ [eof], errs)
    /\ Token.type eof = EOF
    /\ forall o, o < length source -> Accounted source pre errs o.
Proof.
  destruct (tokenize_good source)
    as (pre & eof & errs & H & _ & _ & _ & Te & _).
  exists pre, eof, errs. split; [exact H|]. split; [exact Te|].
  unfold ZplTokenizer.tokenize in H.
  destruct (ZplTokenizer.tokenize_loop source (S (length source))
              (ZplTokenizer.mkState 0 1 1 [] [])) as [st|] eqn:E;
    [|discriminate].
  assert (H0 : Covered source (ZplTokenizer.mkState 0 1 1 [] [])).
  { intros o Ho. simpl in Ho. lia. }
  pose proof (tokenize_loop_cover source _ _ _ E H0) as Hc.
  destruct (tokenize_loop_good source _ _ _ E (GoodScan_start source))
    as [_ Hend].
  simpl in H. injection H as Htok Herr.
  apply app_inj_tail in Htok. destruct Htok as [<- _]. subst errs.
  intros o Ho. apply Hc; [|exact Ho].
  apply nth_error_None in Hend. lia.
Qed.

(** ** What each grammar rule records and returns *)

Section EffectFacts.

Import ZplParser ParserLogic ParserEffects.
Local Open Scope parser_scope.

Ltac step_go :=
  repeat (cbn [valueOf positionOf typeOf]; cbv beta;
          match goal with
          | |- wp (bind _ _) _ _ => apply wp_bind
          | |- wp (ret _) _ _ => apply wp_ret
          | |- wp (gets _) _ _ => apply wp_gets
          | |- wp (addError _ _) _ _ => apply wp_addError
          | |- wp (addWarning _ _ _) _ _ => apply wp_addWarning
          | |- wp (tokenAt _) _ _ => apply wp_tokenAt
          | |- wp parseParameters _ _ =>
              apply wp_parseParameters;
              [solve [auto using Inv_record, Inv_warn] | intros ?]
          | |- wp (if ?b then _ else _) _ _ => destruct b eqn:?
          end).

Ltac step_run :=
  repeat (first
            [ progress step_go
            | match goal with
              | |- wp (check _) _ _ =>
                  let t := fresh "t" in
                  let Ht := fresh "Ht" in
                  let Et := fresh "Et" in
                  apply wp_check; [assumption | intros t Ht];
                  destruct (Token.type t) eqn:Et;
                  cbn [TokenType_eqb negb andb]
              | |- wp advance _ _ =>
                  eapply wp_advance_move;
                  [ eassumption
                  | first [eassumption | unfold cur; simpl; eassumption]
                  | congruence
                  | intros ? ]
              | |- wp commandFollows _ _ =>
                  apply wp_commandFollows;
                  [ assumption | intros ? ? ? ? ? ? | ]
              | H : nth_error ?l ?i = Some _
                |- wp (valueOf (nth_error ?l ?i)) _ _ => rewrite H
              end ]).

Ltac adv_solve :=
  unfold Advances, Inv, bump, skip, record, warn in *;
  simpl in *;
  repeat match goal with H : _ /\ _ |- _ => destruct H end;
  repeat split; try reflexivity; try lia;
  first [ exists []; symmetry; apply app_nil_r
        | eexists; reflexivity ].

Ltac err_solve :=
  cbn [errors tokens current warnings record skip bump warn nodeErrors];
  try match goal with H : (_ <? _) = _ |- _ => rewrite H end;
  first [reflexivity | symmetry; apply app_nil_r].

Ltac base_solve :=
  unfold BaseFields;
  try match goal with H : Token.value _ = _ |- _ => rewrite H end;
  split; [reflexivity | right; repeat split; reflexivity].

Ltac effect_solve :=
  split;
  [ split; [adv_solve | split; [err_solve | reflexivity]]
  | base_solve ].

Lemma parseLabelStart_effect (s c : Token.t) (st : state) :
  Inv st -> Token.value c = lit "XA" ->
  wp (parseLabelStart (Some s) (Some c)) st
     (fun node st' => RuleEffect st node st' /\ BaseFields s c node).
Proof. intros Hi Hv. unfold parseLabelStart. step_run; effect_solve. Qed.

Lemma parseLabelEnd_effect (s c : Token.t) (st : state) :
  Inv st -> Token.value c = lit "XZ" ->
  wp (parseLabelEnd (Some s) (Some c)) st
     (fun node st' => RuleEffect st node st' /\ BaseFields s c node).
Proof. intros Hi Hv. unfold parseLabelEnd. step_run; effect_solve. Qed.

Lemma parseLabelLength_effect (s c : Token.t) (st : state) :
  Inv st -> Token.value c = lit "LL" ->
  wp (parseLabelLength (Some s) (Some c)) st
     (fun node st' => RuleEffect st node st' /\ BaseFields s c node).
Proof. intros Hi Hv. unfold parseLabelLength. step_run; effect_solve. Qed.

Lemma parseLabelHome_effect (s c : Token.t) (st : state) :
  Inv st -> Token.value c = lit "LH" ->
  wp (parseLabelHome (Some s) (Some c)) st
     (fun node st' => RuleEffect st node st' /\ BaseFields s c node).
Proof. intros Hi Hv. unfold parseLabelHome. step_run; effect_solve. Qed.

Lemma parseFieldOrigin_effect (s c : Token.t) (st : state) :
  Inv st -> Token.value c = lit "FO" ->
  wp (parseFieldOrigin (Some s) (Some c)) st
     (fun node st' => RuleEffect st node st' /\ BaseFields s c node).
Proof. intros Hi Hv. unfold parseFieldOrigin. step_run; effect_solve. Qed.

Lemma parseGraphicBox_effect (s c : Token.t) (st : state) :
  Inv st -> Token.value c = lit "GB" ->
  wp (parseGraphicBox (Some s) (Some c)) st
     (fun node st' => RuleEffect st node st' /\ BaseFields s c node).
Proof. intros Hi Hv. unfold parseGraphicBox. step_run; effect_solve. Qed.

Lemma parseFontSelection_effect (s c : Token.t) (st : state) :
  Inv st -> Token.value c = lit "A" ->
  wp (parseFontSelection (Some s) (Some c)) st
     (fun node st' => RuleEffect st node st' /\ BaseFields s c node).
Proof.
  intros Hi Hv. unfold parseFontSelection. step_run; effect_solve.
Qed.

Lemma parseFieldData_effect (s c : Token.t) (st : state) :
  Inv st -> Token.value c = lit "FD" ->
  wp (parseFieldData (Some s) (Some c)) st
     (fun node st' => RuleEffect st node st' /\ BaseFields s c node).
Proof. intros Hi Hv. unfold parseFieldData. step_run; effect_solve. Qed.

Lemma parseBarcode_effect (s c : Token.t) (st : state) :
  Inv st ->
  Token.value c = lit "BC" \/ Token.value c = lit "B3"
  \/ Token.value c = lit "BN" ->
  wp (parseBarcode (Some s) (Some c)) st
     (fun node st' => RuleEffect st node st' /\ BaseFields s c node).
Proof.
  intros Hi Hv. unfold parseBarcode.
  step_run;
    (split;
     [ split; [adv_solve | split; [err_solve | reflexivity]]
     | destruct Hv as [Hv | [Hv | Hv]]; base_solve ]).
Qed.

Lemma parseGenericCommand_effect (s c : Token.t) (st : state) :
  Inv st ->
  kindOfCode (Token.value c) = Some (lit "GENERIC_COMMAND") ->
  wp (parseGenericCommand (Some s) (Some c)) st
     (fun node st' => RuleEffect st node st' /\ BaseFields s c node).
Proof.
  intros Hi Hk. unfold parseGenericCommand.
  step_run.
  split; [split; [adv_solve | split; [err_solve | reflexivity]]|].
  unfold BaseFields. rewrite Hk.
  split; [reflexivity | right; repeat split; reflexivity].
Qed.

Lemma nodeWarnings_none (node : AnyZplCommand) :
  cmd_type node <> Some (lit "GENERIC_COMMAND") -> nodeWarnings node = [].
Proof. destruct node; simpl; intros H; congruence. Qed.

Lemma nodeWarnings_generic (node : AnyZplCommand) (code : str) :
  cmd_type node = Some (lit "GENERIC_COMMAND") ->
  cmd_command node = Some code ->
  nodeWarnings node = [lit "Unsupported command: " ++ code].
Proof.
  destruct node; simpl; intros H H'; try discriminate H.
  injection H' as ->. reflexivity.
Qed.

Lemma RuleEffect_Dispatched (s c : Token.t) (st st' : state)
      (node : AnyZplCommand) :
  RuleEffect st node st' /\ BaseFields s c node ->
  kindOfCode (Token.value c) <> Some (lit "GENERIC_COMMAND") ->
  Dispatched s c st node st'.
Proof.
  intros [(Ha & He & Hw) Hb] Hk.
  split; [exact Ha|]. split; [exact He|]. split; [|exact Hb].
  rewrite Hw, nodeWarnings_none, app_nil_r; [reflexivity|].
  rewrite (proj1 Hb). exact Hk.
Qed.

Ltac known_code E rule :=
  apply str_eqb_eq in E;
  eapply wp_conseq;
  [ apply rule; assumption
  | intros ? ? ?; cbv beta; apply RuleEffect_Dispatched;
    [eassumption | rewrite E; vm_compute; discriminate] ].

(** The [switch] of [parseCommand], for the code of token [c]. *)
Lemma dispatch_effect (s c : Token.t) (st : state) :
  Inv st ->
  wp (dispatch (Some s) (Some c) (Token.value c)) st
     (fun node st' => Dispatched s c st node st').
Proof.
  intros Hi. unfold dispatch.
  destruct (str_eqb (Token.value c) (lit "XA")) eqn:E1.
  { known_code E1 parseLabelStart_effect. }
  destruct (str_eqb (Token.value c) (lit "XZ")) eqn:E2.
  { known_code E2 parseLabelEnd_effect. }
  destruct (str_eqb (Token.value c) (lit "LL")) eqn:E3.
  { known_code E3 parseLabelLength_effect. }
  destruct (str_eqb (Token.value c) (lit "LH")) eqn:E4.
  { known_code E4 parseLabelHome_effect. }
  destruct (str_eqb (Token.value c) (lit "FO")) eqn:E5.
  { known_code E5 parseFieldOrigin_effect. }
  destruct (str_eqb (Token.value c) (lit "FR")) eqn:E6.
  { apply str_eqb_eq in E6. apply wp_ret.
    split; [apply Advances_refl; exact Hi|].
    split; [symmetry; apply app_nil_r|].
    split; [symmetry; apply app_nil_r|].
    split; [rewrite E6; reflexivity | left; reflexivity]. }
  destruct (str_eqb (Token.value c) (lit "GB")) eqn:E7.
  { known_code E7 parseGraphicBox_effect. }
  destruct (str_eqb (Token.value c) (lit "FD")) eqn:E8.
  { known_code E8 parseFieldData_effect. }
  destruct (str_eqb (Token.value c) (lit "A")) eqn:E9.
  { known_code E9 parseFontSelection_effect. }
  destruct (str_eqb (Token.value c) (lit "CF")) eqn:E10.
  { apply str_eqb_eq in E10. apply wp_ret.
    split; [apply Advances_refl; exact Hi|].
    split; [symmetry; apply app_nil_r|].
    split; [symmetry; apply app_nil_r|].
    split; [rewrite E10; reflexivity | left; reflexivity]. }
  destruct (str_eqb (Token.value c) (lit "BC")
            || str_eqb (Token.value c) (lit "B3")
            || str_eqb (Token.value c) (lit "BN")) eqn:E11.
  { assert (Hv : Token.value c = lit "BC" \/ Token.value c = lit "B3"
                 \/ Token.value c = lit "BN").
    { apply orb_true_iff in E11. destruct E11 as [E11|E11].
      - apply orb_true_iff in E11. destruct E11 as [E11|E11];
          apply str_eqb_eq in E11; auto.
      - apply str_eqb_eq in E11; auto. }
    eapply wp_conseq; [apply parseBarcode_effect; assumption|].
    intros node st' H. cbv beta. apply RuleEffect_Dispatched; [exact H|].
    destruct Hv as [Hv | [Hv | Hv]]; rewrite Hv; vm_compute; discriminate. }
  destruct (str_eqb (Token.value c) (lit "GF")) eqn:E12.
  { apply str_eqb_eq in E12. apply wp_ret.
    split; [apply Advances_refl; exact Hi|].
    split; [symmetry; apply app_nil_r|].
    split; [symmetry; apply app_nil_r|].
    split; [rewrite E12; reflexivity | left; reflexivity]. }
  assert (Hk : kindOfCode (Token.value c) = Some (lit "GENERIC_COMMAND")).
  { unfold kindOfCode.
    rewrite E1, E2, E3, E4, E5, E6, E7, E8, E9, E10, E11, E12.
    reflexivity. }
  cbn [positionOf]. apply wp_bind, wp_ret, wp_bind, wp_addWarning.
  eapply wp_conseq;
    [apply parseGenericCommand_effect; [apply Inv_warn; exact Hi | exact Hk]|].
  intros node st' [(Ha & He & Hw) Hb]. cbv beta.
  split; [exact Ha|]. split; [exact He|]. split; [|exact Hb].
  rewrite Hw. unfold warn. cbn [warnings]. rewrite map_app. simpl.
  destruct Hb as [Hty [Hb | (Hcmd & _)]].
  - subst node. rewrite Hk in Hty. discriminate Hty.
  - rewrite (nodeWarnings_generic node (Token.value c)); [reflexivity | |].
    + rewrite Hty. exact Hk.
    + exact Hcmd.
Qed.

(** *** [parseCommand] and the loop of [parse] *)

Lemma parseCommand_skip (st : state) (t : Token.t) :
  cur st = Some t -> Token.type t <> COMMAND_START ->
  Token.type t <> EOF ->
  parseCommand st = Ok None (bump st).
Proof.
  intros Ht Hs He. unfold parseCommand, bind at 1.
  rewrite (match_start_no _ _ Ht Hs).
  unfold bind. rewrite (advance_eq _ _ Ht He). reflexivity.
Qed.

Lemma parseCommand_effect (st : state) (s c : Token.t) :
  Inv st ->
  cur st = Some s -> Token.type s = COMMAND_START ->
  cur (bump st) = Some c -> Token.type c = COMMAND_CODE ->
  wp parseCommand st
     (fun r st' =>
        exists node,
          r = Some node /\ Dispatched s c (bump (bump st)) node st').
Proof.
  intros Hi Hs Ts Hc Tc.
  assert (Hb : Inv (bump st)) by (eapply Inv_bump; eauto; congruence).
  assert (Hbb : Inv (bump (bump st)))
    by (eapply Inv_bump; eauto; congruence).
  unfold wp, parseCommand, bind at 1. rewrite (match_start_yes _ _ Hs Ts).
  unfold bind at 1. rewrite previous_bump.
  unfold bind at 1. rewrite (consume_yes _ _ _ Hc Tc).
  rewrite Hs. unfold bind at 1. cbn [valueOf]. unfold ret at 1.
  unfold bind.
  pose proof (dispatch_effect s c _ Hbb) as Hd. unfold wp in Hd.
  destruct (dispatch (Some s) (Some c) (Token.value c) (bump (bump st)))
    as [node st'| |]; try contradiction.
  unfold ret. exists node. auto.
Qed.

Lemma Nodes_weaken (toks : list Token.t) (lo lo' : nat)
      (l : list AnyZplCommand) :
  Nodes toks lo l -> lo' <= lo -> Nodes toks lo' l.
Proof.
  intros H Hle. destruct H as [lo | lo i s c node rest Hi].
  - constructor.
  - apply (Nodes_cons toks lo' i s c node rest); auto. lia.
Qed.

(** From any place of a stream where a code follows every marker, the
    loop returns the nodes of the markers it meets, and the errors and
    warnings it adds are those of these nodes. *)
Lemma parse_loop_effect (fuel : nat) :
  forall commands st,
    Inv st -> Paired (tokens st) ->
    length (tokens st) - current st < fuel ->
    wp (parse_loop fuel commands) st
       (fun cmds st' =>
          exists new,
            cmds = commands ++ new
            /\ Nodes (tokens st) (current st) new
            /\ errors st' = errors st ++ flat_map nodeErrors new
            /\ map ParseWarning.message (warnings st')
               = map ParseWarning.message (warnings st)
                 ++ flat_map nodeWarnings new).
Proof.
  induction fuel as [|fuel IH]; intros commands st Hi Hp Hf; [lia|].
  cbn [parse_loop].
  apply wp_bind, wp_isAtEnd; [exact Hi|]. intros t Ht.
  destruct (TokenType_eqb (Token.type t) EOF) eqn:E.
  { apply wp_ret. exists []. simpl. rewrite !app_nil_r.
    repeat split. constructor. }
  apply TokenType_eqb_neq in E.
  pose proof (Inv_bump _ _ Hi Ht E) as Hb.
  pose proof (proj2 Hi) as Hlt.
  apply wp_bind. unfold parse_body.
  destruct (TokenType_eqb (Token.type t) COMMAND_START) eqn:Es.
  - apply TokenType_eqb_eq in Es.
    destruct (Hp _ _ Ht Es) as (c & Hc & Tc).
    assert (Hc' : cur (bump st) = Some c).
    { unfold cur. simpl. rewrite Nat.add_1_r. exact Hc. }
    pose proof (parseCommand_effect _ _ _ Hi Ht Es Hc' Tc) as Hpc.
    unfold wp in Hpc. unfold wp at 1, tryCatch, bind at 1.
    destruct (parseCommand st) as [r st1| |]; try contradiction.
    destruct Hpc as (node & -> & Ha & He & Hw & Hbase).
    unfold ret.
    assert (Hi1 : Inv st1).
    { eapply Advances_Inv; [|exact Ha].
      eapply Inv_bump; eauto. congruence. }
    destruct Ha as (T & Hcur & _ & _). simpl in T, Hcur.
    eapply wp_conseq.
    + apply IH; [exact Hi1 | rewrite T; exact Hp | rewrite T; lia].
    + intros cmds st' (new & -> & Hn & He' & Hw'). cbv beta.
      exists (node :: new). rewrite <- app_assoc. simpl.
      split; [reflexivity|]. split.
      * eapply Nodes_cons with (i := current st); eauto.
        eapply Nodes_weaken; [rewrite <- T; exact Hn | lia].
      * rewrite He', He, Hw', Hw. simpl. rewrite !app_assoc. auto.
  - apply TokenType_eqb_neq in Es.
    unfold wp at 1, tryCatch, bind at 1.
    rewrite (parseCommand_skip _ _ Ht Es E). unfold ret.
    eapply wp_conseq.
    + apply IH; [exact Hb | exact Hp | simpl; lia].
    + intros cmds st' (new & -> & Hn & He' & Hw'). cbv beta.
      exists new. split; [reflexivity|]. split; [|auto].
      eapply Nodes_weaken; [exact Hn | simpl; lia].
Qed.

(** *** The lookahead of FD and of the barcode family *)

Lemma commandFollows_eq (st : state) :
  Inv st -> commandFollows st = Ok (markerAt st) st.
Proof.
  intros Hi. destruct (Inv_cur _ Hi) as [t Ht].
  unfold commandFollows, bind at 1. rewrite (check_eq _ _ _ Ht).
  unfold markerAt. unfold cur in Ht. rewrite Ht.
  destruct (TokenType_eqb (Token.type t) COMMAND_START) eqn:Es.
  - apply TokenType_eqb_eq in Es. rewrite Es. cbn [TokenType_eqb negb andb].
    unfold bind, peekNext, ret.
    destruct (length (tokens st) <=? current st + 1) eqn:El.
    + apply Nat.leb_le in El.
      rewrite (proj2 (nth_error_None _ _) El). reflexivity.
    + destruct (nth_error (tokens st) (current st + 1)); reflexivity.
  - rewrite andb_false_r. unfold ret.
    destruct (nth_error (tokens st) (current st + 1)); reflexivity.
Qed.

Lemma wp_commandFollows_eq (st : state) (Q : bool -> state -> Prop) :
  Inv st -> Q (markerAt st) st -> wp commandFollows st Q.
Proof.
  intros Hi H. eapply Ok_wp; [apply commandFollows_eq; exact Hi | exact H].
Qed.

Lemma wp_exact {A} (m : M A) (st st' : state) (a : A) :
  wp m st (fun x y => x = a /\ y = st') -> m st = Ok a st'.
Proof.
  unfold wp. destruct (m st); try tauto. intros [-> ->]. reflexivity.
Qed.

Lemma markerAt_yes (st : state) (m f : Token.t) :
  cur st = Some m -> Token.type m = COMMAND_START ->
  nth_error (tokens st) (current st + 1) = Some f ->
  Token.type f = COMMAND_CODE ->
  markerAt st = true.
Proof.
  unfold cur, markerAt. intros -> -> -> ->. reflexivity.
Qed.

Lemma markerAt_no (st : state) (t : Token.t) :
  cur st = Some t -> Token.type t <> COMMAND_START -> markerAt st = false.
Proof.
  unfold cur, markerAt. intros -> H. apply TokenType_eqb_neq in H.
  rewrite H. destruct (nth_error (tokens st) (current st + 1)); reflexivity.
Qed.

Lemma cur_skip (st : state) (n : nat) :
  cur (skip n st) = nth_error (tokens st) (current st + n).
Proof. reflexivity. Qed.

Lemma skip_skip (a b : nat) (st : state) :
  skip a (skip b st) = skip (b + a) st.
Proof. unfold skip; simpl. f_equal. lia. Qed.

Lemma bump_skip (st : state) : bump st = skip 1 st.
Proof. reflexivity. Qed.

Lemma bump_bump (st : state) : bump (bump st) = skip 2 st.
Proof. unfold bump, skip; simpl. f_equal. lia. Qed.

Lemma skip_after_bump (n : nat) (st : state) :
  skip n (bump st) = skip (S n) st.
Proof. unfold bump, skip; simpl. f_equal. lia. Qed.

(** The end of [parseFieldData], from the state [st1] behind the
    content: the pair of [^FS] is consumed when it stands there. *)
Lemma fieldData_stop_yes {A} (st1 : state) (m f : Token.t)
      (k : bool -> M A) (Q : A -> state -> Prop) :
  Inv st1 ->
  cur st1 = Some m -> Token.type m = COMMAND_START ->
  nth_error (tokens st1) (current st1 + 1) = Some f ->
  Token.type f = COMMAND_CODE -> Token.value f = lit "FS" ->
  wp (k true) (skip 2 st1) Q ->
  wp (f <- commandFollows ;;
      stopCommand <-
        (if f then
           i <- gets current ;;
           nextCommand <- tokenAt (i + 1) ;;
           nv <- valueOf nextCommand ;;
           if str_eqb nv (lit "FS")
           then advance ;; advance ;; ret true
           else ret false
         else ret false) ;;
      k stopCommand) st1 Q.
Proof.
  intros Hi Hm Tm Hf Tf Vf HQ.
  apply wp_bind, wp_commandFollows_eq; [exact Hi|].
  rewrite (markerAt_yes _ _ _ Hm Tm Hf Tf).
  apply wp_bind, wp_bind, wp_gets, wp_bind, wp_tokenAt. rewrite Hf.
  cbn [valueOf]. apply wp_bind, wp_ret. rewrite Vf.
  change (str_eqb (lit "FS") (lit "FS")) with true. cbv iota.
  apply wp_bind.
  eapply wp_advance_move; [exact Hi | exact Hm | congruence | intros Hb].
  apply wp_bind.
  eapply wp_advance_move;
    [exact Hb | unfold cur; simpl; exact Hf | congruence | intros Hbb].
  apply wp_ret. rewrite bump_bump. exact HQ.
Qed.

Lemma fieldData_stop_no {A} (st1 : state) (t : Token.t)
      (k : bool -> M A) (Q : A -> state -> Prop) :
  Inv st1 -> cur st1 = Some t -> Token.type t <> COMMAND_START ->
  wp (k false) st1 Q ->
  wp (f <- commandFollows ;;
      stopCommand <-
        (if f then
           i <- gets current ;;
           nextCommand <- tokenAt (i + 1) ;;
           nv <- valueOf nextCommand ;;
           if str_eqb nv (lit "FS")
           then advance ;; advance ;; ret true
           else ret false
         else ret false) ;;
      k stopCommand) st1 Q.
Proof.
  intros Hi Ht Tt HQ.
  apply wp_bind, wp_commandFollows_eq; [exact Hi|].
  rewrite (markerAt_no _ _ Ht Tt). apply wp_bind, wp_ret. exact HQ.
Qed.

(** A content token and [^FS] right behind it. *)
Lemma parseFieldData_content_stop (s c : Token.t) (st : state)
      (p m f : Token.t) :
  Inv st ->
  cur st = Some p -> Token.type p = PARAMETER ->
  nth_error (tokens st) (current st + 1) = Some m ->
  Token.type m = COMMAND_START ->
  nth_error (tokens st) (current st + 2) = Some f ->
  Token.type f = COMMAND_CODE -> Token.value f = lit "FS" ->
  parseFieldData (Some s) (Some c) st
  = Ok (FieldData (lit "^" ++ Token.value c) (Token.position s)
                  (Token.value p) true)
       (skip 3 st).
Proof.
  intros Hi Hp Tp Hm Tm Hf Tf Vf. apply wp_exact.
  unfold parseFieldData. cbn [valueOf positionOf].
  apply wp_bind, wp_ret, wp_bind.
  eapply Ok_wp; [apply (check_eq _ _ _ Hp)|].
  rewrite Tp. cbn [TokenType_eqb negb andb].
  apply wp_bind, wp_bind.
  eapply wp_advance_move; [exact Hi | exact Hp | congruence | intros Hb].
  cbn [valueOf]. apply wp_ret.
  apply (fieldData_stop_yes (bump st) m f); auto.
  - simpl. replace (current st + 1 + 1) with (current st + 2) by lia.
    exact Hf.
  - apply wp_bind, wp_ret, wp_ret. rewrite skip_after_bump. auto.
Qed.

(** A content token that something else than a marker follows, be it a
    second parameter: the rest is left where it is. *)
Lemma parseFieldData_content_only (s c : Token.t) (st : state)
      (p q : Token.t) :
  Inv st ->
  cur st = Some p -> Token.type p = PARAMETER ->
  nth_error (tokens st) (current st + 1) = Some q ->
  Token.type q <> COMMAND_START ->
  parseFieldData (Some s) (Some c) st
  = Ok (FieldData (lit "^" ++ Token.value c) (Token.position s)
                  (Token.value p) false)
       (skip 1 st).
Proof.
  intros Hi Hp Tp Hq Tq. apply wp_exact.
  unfold parseFieldData. cbn [valueOf positionOf].
  apply wp_bind, wp_ret, wp_bind.
  eapply Ok_wp; [apply (check_eq _ _ _ Hp)|].
  rewrite Tp. cbn [TokenType_eqb negb andb].
  apply wp_bind, wp_bind.
  eapply wp_advance_move; [exact Hi | exact Hp | congruence | intros Hb].
  cbn [valueOf]. apply wp_ret.
  apply (fieldData_stop_no (bump st) q); auto.
  apply wp_bind, wp_ret, wp_ret. auto.
Qed.

(** No content token, and [^FS] at once. *)
Lemma parseFieldData_empty_stop (s c : Token.t) (st : state)
      (m f : Token.t) :
  Inv st ->
  cur st = Some m -> Token.type m = COMMAND_START ->
  nth_error (tokens st) (current st + 1) = Some f ->
  Token.type f = COMMAND_CODE -> Token.value f = lit "FS" ->
  parseFieldData (Some s) (Some c) st
  = Ok (FieldData (lit "^" ++ Token.value c) (Token.position s) [] true)
       (skip 2 st).
Proof.
  intros Hi Hm Tm Hf Tf Vf. apply wp_exact.
  unfold parseFieldData. cbn [valueOf positionOf].
  apply wp_bind, wp_ret, wp_bind.
  eapply Ok_wp; [apply (check_eq _ _ _ Hm)|].
  rewrite Tm. cbn [TokenType_eqb negb andb].
  apply wp_bind, wp_ret.
  apply (fieldData_stop_yes st m f); auto.
  apply wp_bind, wp_ret, wp_ret. auto.
Qed.

(** Behind the parameters of a barcode command: [^FD] and a parameter.
    The three tokens are consumed and the parameter is the payload. *)
Lemma parseBarcode_data (s c : Token.t) (st : state) (m f d : Token.t) :
  Inv st ->
  nth_error (tokens st) (current st + length (parametersAt st)) = Some m ->
  Token.type m = COMMAND_START ->
  nth_error (tokens st) (current st + length (parametersAt st) + 1)
  = Some f ->
  Token.type f = COMMAND_CODE -> Token.value f = lit "FD" ->
  nth_error (tokens st) (current st + length (parametersAt st) + 2)
  = Some d ->
  Token.type d = PARAMETER ->
  parseBarcode (Some s) (Some c) st
  = Ok (barcodeNode s c (parametersAt st) (Token.value d))
       (skip (length (parametersAt st) + 3) st).
Proof.
  intros Hi Hm Tm Hf Tf Vf Hd Td. apply wp_exact.
  unfold parseBarcode. cbn [valueOf positionOf].
  apply wp_bind, wp_ret, wp_bind, wp_parseParameters; [exact Hi|].
  intros Hi1. cbv beta.
  set (n := length (parametersAt st)) in *.
  apply wp_bind, wp_commandFollows_eq; [exact Hi1|].
  rewrite (markerAt_yes (skip n st) m f); auto.
  apply wp_bind, wp_bind, wp_gets, wp_bind, wp_tokenAt.
  cbn [tokens current skip]. rewrite Hf.
  cbn [valueOf]. apply wp_bind, wp_ret. rewrite Vf.
  change (str_eqb (lit "FD") (lit "FD")) with true. cbv iota.
  apply wp_bind.
  eapply wp_advance_move;
    [exact Hi1 | exact Hm | congruence | intros Hb].
  apply wp_bind.
  eapply wp_advance_move;
    [exact Hb | unfold cur; simpl; exact Hf | congruence | intros Hbb].
  assert (Hd' : cur (bump (bump (skip n st))) = Some d).
  { unfold cur. simpl.
    replace (current st + n + 1 + 1) with (current st + n + 2) by lia.
    exact Hd. }
  apply wp_bind. eapply Ok_wp; [apply (check_eq _ _ _ Hd')|].
  rewrite Td. cbn [TokenType_eqb negb andb].
  apply wp_bind.
  eapply wp_advance_move;
    [exact Hbb | exact Hd' | congruence | intros Hbbb].
  cbn [valueOf]. apply wp_ret, wp_bind, wp_ret, wp_bind, wp_ret, wp_ret.
  split; [reflexivity|].
  unfold bump, skip. simpl. f_equal. lia.
Qed.

(** Behind the parameters of a barcode command: anything but a marker,
    such as the NEWLINE token of a line end.  The payload is empty and
    nothing more is consumed. *)
Lemma parseBarcode_no_data (s c : Token.t) (st : state) (t : Token.t) :
  Inv st ->
  nth_error (tokens st) (current st + length (parametersAt st)) = Some t ->
  Token.type t <> COMMAND_START ->
  parseBarcode (Some s) (Some c) st
  = Ok (barcodeNode s c (parametersAt st) [])
       (skip (length (parametersAt st)) st).
Proof.
  intros Hi Ht Tt. apply wp_exact.
  unfold parseBarcode. cbn [valueOf positionOf].
  apply wp_bind, wp_ret, wp_bind, wp_parseParameters; [exact Hi|].
  intros Hi1. cbv beta.
  apply wp_bind, wp_commandFollows_eq; [exact Hi1|].
  rewrite (markerAt_no (skip (length (parametersAt st)) st) t); auto.
  apply wp_bind, wp_ret, wp_bind, wp_ret, wp_bind, wp_ret, wp_ret.
  split; reflexivity.
Qed.

End EffectFacts.

(** What the document of every source holds. *)
Lemma parse_effect (source : str) (this : ZplParser.state) :
  exists toks errs doc st',
    ZplTokenizer.tokenize source = Some (toks, errs)
    /\ ZplParser.parse source this = ZplParser.Ok doc st'
    /\ ParserEffects.Nodes toks 0 (ZplDocument.commands doc)
    /\ ZplDocument.errors doc
       = errs ++ flat_map nodeErrors (ZplDocument.commands doc)
    /\ map ParseWarning.message (ZplDocument.warnings doc)
       = flat_map nodeWarnings (ZplDocument.commands doc)
    /\ ZplDocument.labelWidth doc
       = ZplParser.calculateLabelWidth (ZplDocument.commands doc)
    /\ ZplDocument.labelLength doc
       = ZplParser.calculateLabelLength (ZplDocument.commands doc).
Proof.
  destruct (tokenize_shape source) as (toks & errs & H & _ & Ho & Hp).
  destruct (OneEOF_nonempty _ Ho) as [He Hl].
  exists toks, errs.
  assert (Hi : ParserLogic.Inv (ZplParser.mkState toks 0 errs [])).
  { split; simpl; assumption. }
  pose proof (parse_loop_effect (S (length toks)) [] _ Hi Hp) as Hw.
  cbn [ZplParser.tokens ZplParser.current ZplParser.errors
       ZplParser.warnings] in Hw.
  specialize (Hw ltac:(lia)).
  unfold ZplParser.parse. rewrite H.
  unfold ParserLogic.wp in Hw. unfold ZplParser.bind at 1.
  destruct (ZplParser.parse_loop (S (length toks)) []
              (ZplParser.mkState toks 0 errs [])) as [cs st'| |];
    try contradiction.
  destruct Hw as (new & Hn & Hnodes & Herr & Hwarn). simpl in Hn. subst new.
  eexists _, st'. split; [reflexivity|].
  split; [reflexivity|]. simpl. auto.
Qed.

(** ** The nodes of a document stand in the order of the source *)

Lemma Monotone_le (l : list Token.t) :
  Monotone l ->
  forall j i a b,
    i <= j -> nth_error l i = Some a -> nth_error l j = Some b ->
    offsetOf a <= offsetOf b.
Proof.
  intros Hm. induction j as [|j IH]; intros i a b Hle Ha Hb.
  - assert (i = 0) by lia. subst i. assert (a = b) by congruence.
    subst. lia.
  - destruct (Nat.eq_dec i (S j)) as [->|Hne].
    + assert (a = b) by congruence. subst. lia.
    + destruct (nth_error l j) as [x|] eqn:Ex.
      * pose proof (IH i a x ltac:(lia) Ha eq_refl).
        pose proof (Hm j x b Ex Hb). lia.
      * apply nth_error_None in Ex.
        assert (nth_error l (S j) <> None) by congruence.
        apply nth_error_Some in H. lia.
Qed.

Lemma Nodes_offsets_after (toks : list Token.t) (lo : nat)
      (cmds : list AnyZplCommand) :
  Monotone toks -> ParserEffects.Nodes toks lo cmds ->
  Forall (fun o => forall k a, k <= lo -> nth_error toks k = Some a ->
                               offsetOf a <= o)
         (nodeOffsets cmds).
Proof.
  intros Hm H.
  induction H as [lo | lo i s c node rest Hi Hs Ts Hc Tc Hb Hr IH].
  - constructor.
  - unfold nodeOffsets. simpl. apply Forall_app. split.
    + destruct Hb as [_ [-> | (_ & _ & Hp)]]; simpl; [constructor|].
      rewrite Hp. constructor; [|constructor].
      intros k a Hk Ha.
      apply (Monotone_le _ Hm i k a s); [lia | exact Ha | exact Hs].
    + eapply Forall_impl; [|exact IH]. simpl.
      intros o Ho k a Hk Ha. apply (Ho k a); [lia | exact Ha].
Qed.

Lemma Nodes_sorted (toks : list Token.t) (lo : nat)
      (cmds : list AnyZplCommand) :
  Monotone toks -> ParserEffects.Nodes toks lo cmds ->
  StronglySorted le (nodeOffsets cmds).
Proof.
  intros Hm H.
  induction H as [lo | lo i s c node rest Hi Hs Ts Hc Tc Hb Hr IH].
  - constructor.
  - unfold nodeOffsets. simpl.
    destruct Hb as [_ [-> | (_ & _ & Hp)]]; simpl; [exact IH|].
    rewrite Hp. simpl. constructor; [exact IH|].
    pose proof (Nodes_offsets_after _ _ _ Hm Hr) as Ha.
    eapply Forall_impl; [|exact Ha]. simpl.
    intros o Ho. apply (Ho i s); [lia | exact Hs].
Qed.

(** ** Derived metadata *)

Lemma fold_max_ge (xs : list Z) :
  forall x,
    (x <= fold_left Z.max xs x)%Z
    /\ Forall (fun y => (y <= fold_left Z.max xs x)%Z) xs.
Proof.
  induction xs as [|y xs IH]; intros x; simpl.
  - split; [lia | constructor].
  - destruct (IH (Z.max x y)) as [H1 H2]. split; [lia|].
    constructor; [lia | exact H2].
Qed.

Lemma fold_max_in (xs : list Z) :
  forall x, In (fold_left Z.max xs x) (x :: xs).
Proof.
  induction xs as [|y xs IH]; intros x; simpl; [auto|].
  destruct (IH (Z.max x y)) as [H|H]; [|auto].
  rewrite <- H. destruct (Z.max_spec x y) as [[_ ->]|[_ ->]]; auto.
Qed.

Lemma In_fieldOriginXs (cmds : list AnyZplCommand) (x : Z) :
  In x (ZplParser.fieldOriginXs cmds)
  <-> exists raw p y ps, In (FieldOrigin raw p x y ps) cmds.
Proof.
  induction cmds as [|cmd cmds IH]; simpl.
  - split; [tauto | intros (? & ? & ? & ? & [])].
  - split.
    + intros H.
      destruct cmd; simpl in H;
        try (apply IH in H; destruct H as (r & p & y0 & ps & H);
             exists r, p, y0, ps; auto).
      destruct H as [<-|H]; [eauto 6|].
      apply IH in H. destruct H as (r & p & y0 & ps & H).
      exists r, p, y0, ps; auto.
    + intros (r & p & y0 & ps & [->|H]); simpl; [auto|].
      assert (Hin : In x (ZplParser.fieldOriginXs cmds)) by (apply IH; eauto).
      destruct (ZplParser.fieldOriginX cmd); simpl; auto.
Qed.

(** ** Where [synchronize] stops *)

Section RecoveryFacts.

Import ZplParser ParserLogic ParserEffects.
Local Open Scope parser_scope.

Lemma restartPoint_here (st : state) (k : nat) (t p : Token.t) :
  cur st = Some t -> current st = S k ->
  nth_error (tokens st) k = Some p ->
  restartPoint (tokens st) (current st)
  = TokenType_eqb (Token.type t) EOF
    || TokenType_eqb (Token.type p) NEWLINE
    || TokenType_eqb (Token.type t) COMMAND_START.
Proof.
  unfold cur, restartPoint. intros Ht Hk Hp.
  rewrite Ht, Hk, Hp. reflexivity.
Qed.

Lemma synchronize_loop_stops (fuel : nat) :
  forall st,
    Inv st -> 1 <= current st -> length (tokens st) - current st < fuel ->
    wp (synchronize_loop fuel) st
       (fun _ st' =>
          Advances st st'
          /\ errors st' = errors st /\ warnings st' = warnings st
          /\ restartPoint (tokens st) (current st') = true
          /\ forall j, current st <= j < current st' ->
                       restartPoint (tokens st) j = false).
Proof.
  induction fuel as [|fuel IH]; intros st Hi Hc Hf; [lia|].
  cbn [synchronize_loop].
  destruct (current st) as [|k] eqn:Ek; [lia|].
  destruct (nth_error (tokens st) k) as [p|] eqn:Ep.
  2:{ apply nth_error_None in Ep. destruct Hi as [_ Hi]. lia. }
  apply wp_bind, wp_isAtEnd; [exact Hi|]. intros t Ht.
  pose proof (restartPoint_here _ _ _ _ Ht Ek Ep) as Hr.
  rewrite Ek in Hr.
  assert (Hstay : restartPoint (tokens st) (S k) = true ->
                  Advances st st
                  /\ errors st = errors st /\ warnings st = warnings st
                  /\ restartPoint (tokens st) (current st) = true
                  /\ forall j, S k <= j < current st ->
                               restartPoint (tokens st) j = false).
  { intros H. split; [apply Advances_refl; exact Hi|].
    rewrite Ek. repeat split; auto. intros j Hj. lia. }
  destruct (TokenType_eqb (Token.type t) EOF) eqn:E.
  { apply wp_ret, Hstay. rewrite Hr. reflexivity. }
  apply wp_bind. unfold wp at 1, previous. rewrite Ek, Ep.
  cbn [typeOf]. apply wp_bind, wp_ret.
  destruct (TokenType_eqb (Token.type p) NEWLINE) eqn:En.
  { apply wp_ret, Hstay. rewrite Hr. reflexivity. }
  apply wp_bind. eapply Ok_wp; [apply check_eq; exact Ht|].
  rewrite E. cbn [negb andb].
  destruct (TokenType_eqb (Token.type t) COMMAND_START) eqn:Es.
  { apply wp_ret, Hstay. rewrite Hr. reflexivity. }
  apply TokenType_eqb_neq in E.
  apply wp_bind.
  eapply wp_advance_move; [exact Hi | exact Ht | exact E | intros Hb].
  eapply wp_conseq.
  - apply IH; [exact Hb | simpl; lia |].
    pose proof (Inv_next _ _ Hi Ht E). simpl. lia.
  - intros u st' (Ha & He & Hw & Hstop & Hmin). cbv beta.
    simpl in He, Hw, Hstop, Hmin. rewrite Ek in Hmin.
    split; [eapply Advances_trans; [apply Advances_bump; exact Hb
                                   | exact Ha]|].
    split; [exact He|]. split; [exact Hw|]. split; [exact Hstop|].
    intros j Hj. destruct (Nat.eq_dec j (S k)) as [->|Hne].
    + rewrite Hr. reflexivity.
    + apply Hmin. lia.
Qed.

(** From a token that is not the final one, [synchronize] moves to the
    first restart point behind it and touches nothing else. *)
Lemma synchronize_stops (st : state) (t : Token.t) :
  Inv st -> cur st = Some t -> Token.type t <> EOF ->
  wp synchronize st
     (fun _ st' =>
        tokens st' = tokens st
        /\ errors st' = errors st /\ warnings st' = warnings st
        /\ current st < current st' < length (tokens st)
        /\ restartPoint (tokens st) (current st') = true
        /\ forall j, current st < j < current st' ->
                     restartPoint (tokens st) j = false).
Proof.
  intros Hi Ht E. unfold synchronize. apply wp_bind.
  eapply wp_advance_move; [exact Hi | exact Ht | exact E | intros Hb].
  apply wp_bind, wp_gets.
  eapply wp_conseq.
  - apply synchronize_loop_stops; [exact Hb | simpl; lia | simpl; lia].
  - intros u st' (Ha & He & Hw & Hstop & Hmin). cbv beta.
    destruct Ha as (T & Hc & Hl & _). simpl in *.
    rewrite T in Hl.
    repeat split; auto; try lia. intros j Hj. apply Hmin. lia.
Qed.

(** *** [parseParameters] *)

Lemma takeParameters_stop (l : list Token.t) (t : Token.t) :
  nth_error l (length (takeParameters l)) = Some t ->
  Token.type t <> PARAMETER.
Proof.
  induction l as [|a l IH]; simpl; [discriminate|].
  destruct (TokenType_eqb (Token.type a) PARAMETER) eqn:E; simpl.
  - exact IH.
  - intros H. injection H as <-. apply TokenType_eqb_neq; exact E.
Qed.

Lemma takeParameters_tokens (l : list Token.t) :
  exists ps,
    firstn (length (takeParameters l)) l = ps
    /\ takeParameters l = map Token.value ps
    /\ Forall (fun p => Token.type p = PARAMETER) ps.
Proof.
  induction l as [|a l IH]; simpl.
  - exists []. repeat split; constructor.
  - destruct (TokenType_eqb (Token.type a) PARAMETER) eqn:E; simpl.
    + destruct IH as (ps & H1 & H2 & H3). exists (a :: ps).
      rewrite H1, H2. repeat split.
      constructor; [apply TokenType_eqb_eq; exact E | exact H3].
    + exists []. repeat split; constructor.
Qed.

End RecoveryFacts.

Lemma calculateLabelLength_first (cmds : list AnyZplCommand) :
  match ZplParser.calculateLabelLength cmds with
  | Some l =>
      exists pre raw p ps post,
        cmds = pre ++ LabelLength raw p l ps :: post
        /\ Forall (fun n => cmd_type n <> Some (lit "LABEL_LENGTH")) pre
  | None => Forall (fun n => cmd_type n <> Some (lit "LABEL_LENGTH")) cmds
  end.
Proof.
  induction cmds as [|cmd cmds IH]; simpl; [constructor|].
  destruct cmd;
    try (destruct (ZplParser.calculateLabelLength cmds) as [l|];
         [ destruct IH as (pre & r & p & ps & post & -> & Hpre);
           eexists (_ :: pre), r, p, ps, post;
           split; [reflexivity|];
           constructor; [simpl; discriminate | exact Hpre]
         | constructor; [simpl; discriminate | exact IH] ]).
  exists [], raw, position, parameters, cmds. split; [reflexivity|constructor].
Qed.

(** ** [ZplUtils] *)

Lemma kindOfCode_barcode (code : str) :
  kindOfCode code = Some (lit "BARCODE") ->
  code = lit "BC" \/ code = lit "B3" \/ code = lit "BN".
Proof.
  unfold kindOfCode.
  repeat match goal with
         | |- (if str_eqb code ?l then _ else _) = _ -> _ =>
             destruct (str_eqb code l); [discriminate|]
         end.
  destruct (str_eqb code (lit "BC")) eqn:E1;
    [apply str_eqb_eq in E1; auto|].
  destruct (str_eqb code (lit "B3")) eqn:E2;
    [apply str_eqb_eq in E2; auto|].
  destruct (str_eqb code (lit "BN")) eqn:E3;
    [apply str_eqb_eq in E3; auto|].
  simpl. destruct (str_eqb code (lit "GF")); discriminate.
Qed.

Lemma Nodes_In (toks : list Token.t) (lo : nat) (cmds : list AnyZplCommand)
      (node : AnyZplCommand) :
  ParserEffects.Nodes toks lo cmds -> In node cmds ->
  exists i s c,
    nth_error toks i = Some s /\ Token.type s = COMMAND_START
    /\ nth_error toks (S i) = Some c /\ Token.type c = COMMAND_CODE
    /\ BaseFields s c node.
Proof.
  induction 1 as [lo | lo i s c n rest Hi Hs Ts Hc Tc Hb Hr IH];
    intros Hin; [destruct Hin|].
  destruct Hin as [<-|Hin]; [|exact (IH Hin)].
  exists i, s, c. auto.
Qed.

(** ** A code token has the offset of its marker *)

Lemma Scanned_pair_offset (l : list Token.t) (n : nat) :
  Scanned l n ->
  forall i s c,
    nth_error l i = Some s -> Token.type s = COMMAND_START ->
    nth_error l (S i) = Some c ->
    offsetOf c = offsetOf s.
Proof.
  induction 1 as [n | l n t m H IH Hn Hm Hs He
                    | l n s0 c0 m H IH Hn Hc Hm Hs Hcode];
    intros i s c Hi Ts Hc'.
  - destruct i; discriminate.
  - apply nth_error_snoc in Hc'. destruct Hc' as [[Hlt Hc']|[Hlen ->]].
    + apply nth_error_snoc in Hi. destruct Hi as [[_ Hi]|[Hi _]]; [|lia].
      eapply IH; eauto.
    + apply nth_error_snoc in Hi. destruct Hi as [[_ Hi]|[Hi _]]; [|lia].
      destruct (Scanned_shape _ _ H) as (_ & _ & _ & Hp).
      destruct (Hp _ _ Hi Ts) as (b & Hb & _).
      assert (nth_error l (S i) <> None) by congruence.
      apply nth_error_Some in H0. lia.
  - change (l ++ [s0; c0]) with (l ++ [s0] ++ [c0]) in *.
    rewrite app_assoc in *.
    apply nth_error_snoc in Hc'. destruct Hc' as [[Hlt Hc']|[Hlen ->]].
    + apply nth_error_snoc in Hi. destruct Hi as [[Hlt' Hi]|[Hi _]];
        [|lia].
      apply nth_error_snoc in Hc'. destruct Hc' as [[Hlt2 Hc']|[Hlen _]].
      * apply nth_error_snoc in Hi. destruct Hi as [[_ Hi]|[Hi _]]; [|lia].
        eapply IH; eauto.
      * apply nth_error_snoc in Hi. destruct Hi as [[_ Hi]|[Hi _]]; [|lia].
        destruct (Scanned_shape _ _ H) as (_ & _ & _ & Hp).
        destruct (Hp _ _ Hi Ts) as (b & Hb & _).
        assert (nth_error l (S i) <> None) by congruence.
        apply nth_error_Some in H0. lia.
    + rewrite length_app in Hlen. simpl in Hlen.
      assert (i = length l) by lia. subst i.
      rewrite <- app_assoc in Hi. rewrite nth_error_app2 in Hi by lia.
      rewrite Nat.sub_diag in Hi. simpl in Hi. injection Hi as <-.
      exact Hc.
Qed.

Lemma tokenize_pair_offset (source : str) :
  exists toks errs,
    ZplTokenizer.tokenize source = Some (toks, errs)
    /\ forall i s c,
        nth_error toks i = Some s -> Token.type s = COMMAND_START ->
        nth_error toks (S i) = Some c ->
        offsetOf c = offsetOf s.
Proof.
  destruct (tokenize_ok source) as (l & eof & errs & n & H & Hs & He & Ho).
  exists (l ++ [eof]), errs. split; [exact H|].
  intros i s c Hi Ts Hc.
  apply nth_error_snoc in Hi. destruct Hi as [[Hlt Hi]|[_ ->]];
    [|congruence].
  apply nth_error_snoc in Hc. destruct Hc as [[_ Hc]|[Hlen _]].
  - eapply Scanned_pair_offset; eauto.
  - destruct (Scanned_shape _ _ Hs) as (_ & _ & _ & Hp).
    destruct (Hp _ _ Hi Ts) as (b & Hb & _).
    assert (nth_error l (S i) <> None) by congruence.
    apply nth_error_Some in H0. lia.
Qed.

(** ** Counting tokens and nodes *)

Lemma Nodes_count (toks : list Token.t) (lo : nat)
      (cmds : list AnyZplCommand) :
  ParserEffects.Nodes toks lo cmds ->
  cmds = []
  \/ exists j c,
      nth_error toks j = Some c /\ Token.type c = COMMAND_CODE
      /\ lo + 2 * length cmds <= S j.
Proof.
  induction 1 as [lo | lo i s c node rest Hi Hs Ts Hc Tc Hb Hr IH];
    [left; reflexivity|].
  right. destruct IH as [-> | (j & d & Hj & Td & Hle)].
  - exists (S i), c. simpl. split; [exact Hc|]. split; [exact Tc | lia].
  - exists j, d. simpl. split; [exact Hj|]. split; [exact Td | lia].
Qed.
(** * The limit of the engine on the arguments of a call *)

(** ** The source of [k] field origins *)

Lemma skipn_cons_inv {A} (n : nat) : forall (l : list A) a r,
  skipn n l = a :: r -> nth_error l n = Some a /\ skipn (S n) l = r.
Proof.
  induction n as [|n IH]; intros [|x l] a r H; simpl in *; try discriminate.
  - injection H as -> ->. auto.
  - apply IH; exact H.
Qed.

Section FieldOriginLines.
Import ZplTokenizer.
Variable source : str.

Lemma tokenize_fieldOriginLine (st : state) (rest : str) :
skipn (position st) source = fieldOriginLine ++ rest ->
column st = 1 ->
exists st1,
  tokenize_step source ch_caret st = Some st1
  /\ nth_error source (position st1) = Some ch_newline
  /\ tokenize_step source ch_newline st1
     = Some (mkState (position st + 4) (line st + 1) 1
               (tokens st
                ++ fieldOriginTokens (line st) (position st) 1)
               (errors st))
  /\ skipn (position st + 4) source = rest.
Proof.
intros H Hc.
change (fieldOriginLine ++ rest)
  with (ch_caret :: 70%N :: 79%N :: ch_newline :: rest) in H.
apply skipn_cons_inv in H. destruct H as [H0 H].
pose proof H as Hs1.
apply skipn_cons_inv in H. destruct H as [H1 H].
apply skipn_cons_inv in H. destruct H as [H2 H].
apply skipn_cons_inv in H. destruct H as [H3 H].
assert (Hlt : S (S (S (position st))) < length source)
  by (apply nth_error_Some; congruence).
assert (E1 : tokenize_step source ch_caret st
             = Some (push (Token.mk COMMAND_CODE (lit "FO")
                             (pos (line st) 2 (position st)) (lit "FO"))
                       (push (Token.mk COMMAND_START (lit "^")
                                (pos (line st) 1 (position st)) (lit "^"))
                             (advance 3 st)))).
{ unfold tokenize_step. cbn [N.eqb ch_caret Pos.eqb].
  unfold tokenizeCommand.
  rewrite tokenizeCommand_loop_eq by (simpl; lia).
  cbn [position advance app]. rewrite Nat.add_1_r, Hs1.
  change (spanLen isCommandChar (70%N :: 79%N :: ch_newline :: rest))
    with 2.
  unfold textAt. rewrite Hs1. cbn [firstn].
  unfold tokenizeParameters. cbn [tokenizeParameters_loop].
  cbn [position push advance].
  replace (position st + 1 + 2) with (S (S (S (position st)))) by lia.
  rewrite H3. cbn [N.eqb ch_newline ch_caret Pos.eqb orb].
  unfold getCurrentPosition, pos. cbn. rewrite Hc.
  rewrite advance_advance. reflexivity. }
eexists. split; [exact E1|].
cbn [position push advance].
replace (position st + 3) with (S (S (S (position st)))) by lia.
split; [exact H3|]. split.
- unfold tokenize_step. cbn [N.eqb ch_newline ch_caret Pos.eqb].
  unfold tokenizeNewline, getCurrentPosition, pos, push, advance.
  cbn. rewrite Hc, <- !app_assoc. cbn [app Nat.add].
  replace (position st + 3 + 1) with (position st + 4) by lia.
  reflexivity.
- rewrite <- H. f_equal. lia.
Qed.

Lemma tokenize_loop_fieldOrigins (k : nat) :
forall fuel st,
  2 * k < fuel ->
  skipn (position st) source = manyFieldOrigins k ->
  column st = 1 ->
  tokenize_loop source fuel st
  = Some (mkState (position st + 4 * k) (line st + k) 1
            (tokens st ++ fieldOriginTokens (line st) (position st) k)
            (errors st)).
Proof.
induction k as [|k IH]; intros fuel st Hf Hs Hc.
- destruct fuel as [|fuel]; [lia|]. cbn [tokenize_loop].
  assert (E : nth_error source (position st) = None).
  { apply nth_error_None.
    assert (L : length (skipn (position st) source) = 0)
      by (rewrite Hs; reflexivity).
    rewrite length_skipn in L. lia. }
  rewrite E. cbn [fieldOriginTokens].
  rewrite app_nil_r, !Nat.add_0_r, <- Hc. destruct st; reflexivity.
- destruct fuel as [|[|fuel]]; try lia.
  change (manyFieldOrigins (S k))
    with (fieldOriginLine ++ manyFieldOrigins k) in Hs.
  destruct (tokenize_fieldOriginLine st _ Hs Hc)
    as (st1 & E1 & Hn & E2 & Hr).
  pose proof Hs as Hs0.
  change (fieldOriginLine ++ manyFieldOrigins k)
    with (ch_caret :: (70%N :: 79%N :: ch_newline :: manyFieldOrigins k))
    in Hs0.
  apply skipn_cons_inv in Hs0. destruct Hs0 as [H0 _].
  cbn [tokenize_loop]. rewrite H0, E1, Hn, E2.
  rewrite IH; [|lia|exact Hr|reflexivity].
  cbn [position line tokens errors fieldOriginTokens].
  rewrite <- app_assoc. cbn [app].
  f_equal. f_equal; lia.
Qed.

End FieldOriginLines.

Lemma length_manyFieldOrigins (k : nat) :
  length (manyFieldOrigins k) = 4 * k.
Proof.
  induction k as [|k IH]; [reflexivity|].
  change (manyFieldOrigins (S k))
    with (fieldOriginLine ++ manyFieldOrigins k).
  rewrite length_app, IH. simpl. lia.
Qed.

Lemma tokenize_manyFieldOrigins (k : nat) :
  ZplTokenizer.tokenize (manyFieldOrigins k)
  = Some (fieldOriginTokens 1 0 k
          ++ [Token.mk EOF (lit "EOF") (pos (1 + k) 1 (4 * k)) []],
          []).
Proof.
  unfold ZplTokenizer.tokenize.
  rewrite (tokenize_loop_fieldOrigins (manyFieldOrigins k) k);
    [reflexivity | rewrite length_manyFieldOrigins; lia
     | reflexivity | reflexivity].
Qed.

Section FieldOriginNodes.
Import ZplParser ParserLogic.

Lemma parseCommand_marker (st : state) (s c : Token.t) :
cur st = Some s -> Token.type s = COMMAND_START ->
cur (bump st) = Some c -> Token.type c = COMMAND_CODE ->
parseCommand st
= bind (dispatch (Some s) (Some c) (Token.value c))
       (fun command => ret (Some command)) (skip 2 st).
Proof.
intros Hs Ts Hc Tc. unfold parseCommand, bind at 1.
rewrite (match_start_yes _ _ Hs Ts).
unfold bind at 1. rewrite previous_bump, Hs.
unfold bind at 1. rewrite (consume_yes _ _ _ Hc Tc).
unfold bind at 1. cbn [valueOf]. unfold ret at 1.
rewrite bump_bump. reflexivity.
Qed.

Lemma parse_loop_fieldOrigins (k : nat) :
forall fuel commands st line offset eof,
  2 * k < fuel ->
  EndsWithEOF (tokens st) ->
  skipn (current st) (tokens st)
  = fieldOriginTokens line offset k ++ [eof] ->
  Token.type eof = EOF ->
  parse_loop fuel commands st
  = Ok (commands ++ fieldOriginNodes line offset k)
       (mkState (tokens st) (current st + 3 * k)
                (errors st ++ fieldOriginErrors line offset k)
                (warnings st)).
Proof.
induction k as [|k IH]; intros fuel commands st line offset eof Hf He Hs Te.
- destruct fuel as [|fuel]; [lia|]. cbn [parse_loop fieldOriginTokens app] in *.
  apply skipn_cons_inv in Hs. destruct Hs as [Hc _].
  unfold bind at 1. rewrite (isAtEnd_eq st eof Hc), Te. cbn.
  rewrite !app_nil_r, Nat.add_0_r. destruct st; reflexivity.
- destruct fuel as [|[|fuel]]; try lia.
  cbn [fieldOriginTokens app] in Hs.
  apply skipn_cons_inv in Hs. destruct Hs as [H0 Hs].
  apply skipn_cons_inv in Hs. destruct Hs as [H1 Hs].
  pose proof Hs as Hs2.
  apply skipn_cons_inv in Hs. destruct Hs as [H2 Hs].
  set (s := Token.mk COMMAND_START (lit "^") (pos line 1 offset) (lit "^"))
    in *.
  set (c := Token.mk COMMAND_CODE (lit "FO") (pos line 2 offset) (lit "FO"))
    in *.
  set (n := Token.mk NEWLINE [ch_newline] (pos line 4 (offset + 3))
                     [ch_newline]) in *.
  assert (Hlt : S (S (current st)) < length (tokens st))
    by (apply nth_error_Some; congruence).
  assert (Hi : Inv (skip 2 st)).
  { split; [exact He|]. cbn. lia. }
  assert (Hp : parametersAt (skip 2 st) = []).
  { unfold parametersAt. cbn [current tokens skip].
    replace (current st + 2) with (S (S (current st))) by lia.
    rewrite Hs2. reflexivity. }
  assert (E1 : parseCommand st
               = Ok (Some (FieldOrigin (lit "^FO") (pos line 1 offset)
                                       0 0 []))
                    (record (parserError missingFO (pos line 1 offset))
                            (skip 2 st))).
  { rewrite (parseCommand_marker st s c); try reflexivity; try assumption.
    - change (dispatch (Some s) (Some c) (Token.value c))
        with (parseFieldOrigin (Some s) (Some c)).
      unfold bind. rewrite (parseFieldOrigin_short s c _ Hi);
        rewrite Hp; [|cbn; lia].
      cbn [length]. rewrite skip_0. reflexivity.
    - unfold cur, bump. cbn [tokens current].
      rewrite Nat.add_1_r. exact H1. }
  set (st1 := record (parserError missingFO (pos line 1 offset))
                     (skip 2 st)) in *.
  assert (E2 : parseCommand st1 = Ok None (bump st1)).
  { apply (parseCommand_skip st1 n); try (cbn; discriminate).
    unfold cur, st1. cbn [tokens current record skip].
    replace (current st + 2) with (S (S (current st))) by lia.
    exact H2. }
  cbn [parse_loop]. unfold bind at 1.
  rewrite (isAtEnd_eq st s H0). cbn [Token.type s TokenType_eqb].
  unfold bind at 1. unfold parse_body at 1, tryCatch, bind at 1.
  rewrite E1. unfold ret at 1.
  unfold bind at 1.
  rewrite (isAtEnd_eq st1 n);
    [|unfold cur, st1; cbn [tokens current record skip];
      replace (current st + 2) with (S (S (current st))) by lia;
      exact H2].
  cbn [Token.type n TokenType_eqb].
  unfold bind at 1. unfold parse_body at 1, tryCatch, bind at 1.
  rewrite E2. unfold ret at 1.
  rewrite (IH fuel _ (bump st1) (line + 1) (offset + 4) eof);
    [ | lia | exact He | | exact Te ].
  + cbn [tokens current errors warnings bump st1 record skip
         fieldOriginNodes fieldOriginErrors].
    rewrite <- !app_assoc. cbn [app].
    f_equal. f_equal; lia.
  + cbn [tokens current bump st1 record skip].
    replace (current st + 2 + 1) with (S (S (S (current st)))) by lia.
    exact Hs.
Qed.
End FieldOriginNodes.

(** ** [parseOn] and [parse] *)

Lemma parseOn_eq (maxArguments : nat) (source : str)
      (this : ZplParser.state) :
  ZplParser.parseOn maxArguments source this
  = match ZplParser.parse source this with
    | ZplParser.Ok doc st' =>
        if maxArguments
           <? length (ZplParser.fieldOriginXs (ZplDocument.commands doc))
        then ZplParser.Throw ZplParser.RangeError st'
        else ZplParser.Ok doc st'
    | r => r
    end.
Proof.
  unfold ZplParser.parseOn, ZplParser.parse.
  destruct (ZplTokenizer.tokenize source) as [[toks errs]|]; [|reflexivity].
  unfold ZplParser.bind at 1 5.
  destruct (ZplParser.parse_loop (S (length toks)) []
              (ZplParser.mkState toks 0 errs [])) as [cmds st'|e st'|];
    try reflexivity.
  unfold ZplParser.bind, ZplParser.gets, ZplParser.ret.
  cbn [ZplDocument.commands].
  unfold ZplParser.calculateLabelWidthOn, ZplParser.calculateLabelWidth.
  destruct (ZplParser.fieldOriginXs cmds) as [|x xs]; [reflexivity|].
  destruct (maxArguments <? length (x :: xs)); reflexivity.
Qed.


Lemma fieldOriginXs_fieldOriginNodes (k : nat) :
  forall line offset,
    length (ZplParser.fieldOriginXs (fieldOriginNodes line offset k)) = k.
Proof.
  induction k as [|k IH]; intros line offset; [reflexivity|].
  cbn. rewrite IH. reflexivity.
Qed.

Lemma parse_manyFieldOrigins (k : nat) (this : ZplParser.state) :
  exists doc st',
    ZplParser.parse (manyFieldOrigins k) this = ZplParser.Ok doc st'
    /\ ZplDocument.commands doc = fieldOriginNodes 1 0 k
    /\ ZplDocument.errors doc = fieldOriginErrors 1 0 k
    /\ ZplParser.errors st' = fieldOriginErrors 1 0 k.
Proof.
  unfold ZplParser.parse. rewrite tokenize_manyFieldOrigins.
  set (eof := Token.mk EOF (lit "EOF") (pos (1 + k) 1 (4 * k)) []).
  set (toks := fieldOriginTokens 1 0 k ++ [eof]).
  unfold ZplParser.bind at 1.
  rewrite (parse_loop_fieldOrigins k (S (length toks)) []
             (ZplParser.mkState toks 0 [] []) 1 0 eof).
  - unfold ZplParser.bind, ZplParser.gets, ZplParser.ret.
    eexists; eexists. split; [reflexivity|]. repeat split; reflexivity.
  - unfold toks. rewrite length_app. cbn [length].
    assert (L : forall l o, length (fieldOriginTokens l o k) = 3 * k).
    { clear. induction k as [|k IH]; intros l o; [reflexivity|].
      cbn [fieldOriginTokens length]. rewrite IH. lia. }
    rewrite L. lia.
  - exists (fieldOriginTokens 1 0 k), eof. split; reflexivity.
  - reflexivity.
  - reflexivity.
Qed.


(** ** What a call of [parseCommand] cannot do on a paired stream *)

Lemma parseCommand_returns (st : ZplParser.state) :
  ParserLogic.Inv st -> Paired (ZplParser.tokens st) ->
  exists r st', ZplParser.parseCommand st = ZplParser.Ok r st'.
Proof.
  intros Hi Hp. destruct (Inv_cur _ Hi) as [t Ht].
  destruct (TokenType_eqb (Token.type t) EOF) eqn:E.
  - apply TokenType_eqb_eq in E.
    unfold ZplParser.parseCommand, ZplParser.bind at 1.
    rewrite (match_start_no _ _ Ht) by congruence.
    destruct (advance_at_end _ _ Ht E) as [r Hr].
    unfold ZplParser.bind. rewrite Hr. eauto.
  - apply TokenType_eqb_neq in E.
    pose proof (parseCommand_paired _ _ Hi Hp Ht E) as H.
    apply wp_Ok in H. destruct H as (r & st' & H & _). eauto.
Qed.

Lemma tokenizeCommand_empty (source : str) (st : ZplTokenizer.state) :
  (forall c, nth_error source (ZplTokenizer.position st + 1) = Some c ->
             ZplTokenizer.isCommandChar c = false) ->
  ZplTokenizer.tokenizeCommand source st
  = Some (ZplTokenizer.addError (lit "Empty command after ^")
                                (ZplTokenizer.advance 1 st)).
Proof.
  intros H. unfold ZplTokenizer.tokenizeCommand.
  cbn [ZplTokenizer.tokenizeCommand_loop].
  cbn [ZplTokenizer.position ZplTokenizer.advance].
  destruct (nth_error source (ZplTokenizer.position st + 1)) as [c|] eqn:E;
    [rewrite (H c eq_refl)|]; reflexivity.
Qed.

(** * The claims *)

(** C1.  [parse] does not return a document for every source.  On an
    engine that accepts [maxArguments] arguments in one call, the source
    of [maxArguments + 1] lines [^FO] makes the loop of [parse] return
    one field-origin node for each line; [Math.max(...xs)] in
    [calculateLabelWidth], which stands behind the loop and outside its
    [try], then throws a [RangeError], and this failure leaves [parse],
    after the error of each line has been recorded.  With one line less
    [parse] returns the document of these nodes. *)
Theorem C1_parse_throws_on_many_field_origins :
  forall maxArguments this,
    (exists st',
        ZplParser.parseOn maxArguments
                          (manyFieldOrigins (S maxArguments)) this
        = ZplParser.Throw ZplParser.RangeError st'
        /\ ZplParser.errors st' = fieldOriginErrors 1 0 (S maxArguments))
    /\ (exists doc st',
           ZplParser.parseOn maxArguments
                             (manyFieldOrigins maxArguments) this
           = ZplParser.Ok doc st'
           /\ ZplDocument.commands doc
              = fieldOriginNodes 1 0 maxArguments).
Proof.
  intros maxArguments this. split.
  - destruct (parse_manyFieldOrigins (S maxArguments) this)
      as (doc & st' & Hp & Hc & _ & He).
    exists st'. split; [|exact He].
    rewrite parseOn_eq, Hp, Hc, fieldOriginXs_fieldOriginNodes.
    rewrite (proj2 (Nat.ltb_lt _ _) (Nat.lt_succ_diag_r maxArguments)).
    reflexivity.
  - destruct (parse_manyFieldOrigins maxArguments this)
      as (doc & st' & Hp & Hc & _).
    exists doc, st'. split; [|exact Hc].
    rewrite parseOn_eq, Hp, Hc, fieldOriginXs_fieldOriginNodes.
    rewrite Nat.ltb_irrefl. reflexivity.
Qed.

(** C2.  On [^FDHello World^FS] the tokenizer takes [FDH] as the command
    code and [ello] and [World] as two parameters, so the parser returns
    two generic nodes, [FDH] and [FS], and no field-data node; on
    [^FDHello World] it returns the generic node [FDH] alone. *)
Theorem C2_field_data_becomes_generic :
  commandsOf (lit "^FDHello World^FS")
  = Some [GenericCommand (lit "FDH") (lit "^FDH") (pos 1 1 0)
                         [lit "ello"; lit "World"];
          GenericCommand (lit "FS") (lit "^FS") (pos 1 15 14) []]
  /\ commandsOf (lit "^FDHello World")
     = Some [GenericCommand (lit "FDH") (lit "^FDH") (pos 1 1 0)
                            [lit "ello"; lit "World"]].
Proof. split; vm_compute; reflexivity. Qed.

(** C3.  On the input of scenario A the parser records no error and
    returns six nodes, not five: the fourth is the generic node [FDH]
    and the field stop is a node of its own. *)
Theorem C3_scenario_A_six_generic_nodes :
  errorsOf scenarioA = Some []
  /\ commandsOf scenarioA
     = Some [LabelStart (lit "^XA") (pos 1 1 0) [];
             GenericCommand (lit "FO50") (lit "^FO50") (pos 2 1 4)
                            [lit "50"];
             GenericCommand (lit "ADN") (lit "^ADN") (pos 3 1 13)
                            [lit "36"; lit "20"];
             GenericCommand (lit "FDH") (lit "^FDH") (pos 4 1 24)
                            [lit "ello"; lit "World"];
             GenericCommand (lit "FS") (lit "^FS") (pos 4 15 38) [];
             LabelEnd (lit "^XZ") (pos 5 1 42)].
Proof. split; vm_compute; reflexivity. Qed.

(** C4.  On the input of scenario B the parser returns no barcode node:
    [BCN] and [FD123456789] are taken as command codes and become
    generic nodes. *)
Theorem C4_scenario_B_no_barcode :
  commandsOf scenarioB
  = Some [LabelStart (lit "^XA") (pos 1 1 0) [];
          GenericCommand (lit "FO100") (lit "^FO100") (pos 2 1 4)
                         [lit "100"];
          GenericCommand (lit "BCN") (lit "^BCN") (pos 3 1 15)
                         [lit "100"; lit "Y"; lit "N"; lit "N"];
          GenericCommand (lit "FD123456789") (lit "^FD123456789")
                         (pos 4 1 30) [];
          GenericCommand (lit "FS") (lit "^FS") (pos 4 13 42) [];
          LabelEnd (lit "^XZ") (pos 5 1 46)].
Proof. vm_compute; reflexivity. Qed.

(** C5.  On the input of scenario C the parser records no error and
    returns five nodes, none of which is a field origin or a field
    data. *)
Theorem C5_scenario_C_no_error :
  errorsOf scenarioC = Some []
  /\ commandsOf scenarioC
     = Some [LabelStart (lit "^XA") (pos 1 1 0) [];
             GenericCommand (lit "FO50") (lit "^FO50") (pos 2 1 4) [];
             GenericCommand (lit "FDT") (lit "^FDT") (pos 3 1 10)
                            [lit "est"];
             GenericCommand (lit "FS") (lit "^FS") (pos 3 8 17) [];
             LabelEnd (lit "^XZ") (pos 4 1 21)].
Proof. split; vm_compute; reflexivity. Qed.

(** C6.  [^LH] alone gives a label-home node with [x = 0] and [y = 0] and
    one recorded error.  A first coordinate written right behind the
    code, as in [^LH5] and in [^FO50], the line of the repository's
    test, is taken into the command code by the tokenizer: the node is
    generic, no error is recorded for the missing [y] and no coordinate
    is defaulted.  With a comma between code and coordinate, [^FO,50]
    and [^LH,5] give the node with [y = 0] and the error. *)
Theorem C6_coordinate_behind_the_code_is_lost :
  (commandsOf (lit "^LH") = Some [LabelHome (lit "^LH") (pos 1 1 0) 0 0 []]
   /\ errorsOf (lit "^LH")
      = Some [ParserLogic.parserError missingLH (pos 1 1 0)])
  /\ (commandsOf (lit "^LH5")
      = Some [GenericCommand (lit "LH5") (lit "^LH5") (pos 1 1 0) []]
      /\ errorsOf (lit "^LH5") = Some [])
  /\ (commandsOf (lit "^FO50")
      = Some [GenericCommand (lit "FO50") (lit "^FO50") (pos 1 1 0) []]
      /\ errorsOf (lit "^FO50") = Some [])
  /\ (commandsOf (lit "^LH,5")
      = Some [LabelHome (lit "^LH") (pos 1 1 0) 5 0 [lit "5"]]
      /\ errorsOf (lit "^LH,5")
         = Some [ParserLogic.parserError missingLH (pos 1 1 0)])
  /\ (commandsOf (lit "^FO,50")
      = Some [FieldOrigin (lit "^FO") (pos 1 1 0) 50 0 [lit "50"]]
      /\ errorsOf (lit "^FO,50")
         = Some [ParserLogic.parserError missingFO (pos 1 1 0)]).
Proof. repeat split; vm_compute; reflexivity. Qed.

(** C7, as the code has it.  The codes FR, CF and GF have cases of their
    own in [parseCommand]: each returns the empty object, which has none
    of the shared fields, reads no parameter and records no warning.  A
    call of [parseCommand] on a marker and one of these codes returns the
    empty object with the cursor right after the code and nothing else
    changed. *)
Theorem C7_stub_codes_return_empty_object :
  (forall s c st,
      ZplParser.dispatch s c (lit "FR") st = ZplParser.Ok EmptyObject st
      /\ ZplParser.dispatch s c (lit "CF") st = ZplParser.Ok EmptyObject st
      /\ ZplParser.dispatch s c (lit "GF") st = ZplParser.Ok EmptyObject st)
  /\ (cmd_type EmptyObject = None /\ cmd_command EmptyObject = None
      /\ cmd_raw EmptyObject = None /\ cmd_position EmptyObject = None
      /\ cmd_parameters EmptyObject = None)
  /\ (forall st s c,
         ParserLogic.cur st = Some s ->
         Token.type s = COMMAND_START ->
         ParserLogic.cur (ParserLogic.bump st) = Some c ->
         Token.type c = COMMAND_CODE ->
         Token.value c = lit "FR" \/ Token.value c = lit "CF"
         \/ Token.value c = lit "GF" ->
         ZplParser.parseCommand st
         = ZplParser.Ok (Some EmptyObject)
                        (ParserLogic.bump (ParserLogic.bump st))).
Proof.
  split; [intros s c st; repeat split|]. split; [repeat split|].
  intros st s c Hs Ts Hc Tc Hv.
  unfold ZplParser.parseCommand, ZplParser.bind at 1.
  rewrite (match_start_yes _ _ Hs Ts).
  unfold ZplParser.bind at 1. rewrite previous_bump.
  unfold ZplParser.bind at 1. rewrite (consume_yes _ _ _ Hc Tc).
  unfold ZplParser.bind at 1. cbn [ZplParser.valueOf].
  unfold ZplParser.ret at 1.
  destruct Hv as [-> | [-> | ->]]; reflexivity.
Qed.

(** C7 at [^FR,5]: the parameter is left for the loop of [parse]. *)
Lemma C7_stub_codes_witness :
  ZplParser.parseCommand stubState
  = ZplParser.Ok (Some EmptyObject)
                 (ZplParser.mkState (ZplParser.tokens stubState) 2 [] []).
Proof.
  exact (proj2 (proj2 C7_stub_codes_return_empty_object)
               stubState (tok COMMAND_START "^" 0) (tok COMMAND_CODE "FR" 0)
               eq_refl eq_refl eq_refl eq_refl (or_introl eq_refl)).
Defined.

(** C7, as the specification has it, fails on [^FR,5]: the node is not a
    generic node and no warning is recorded. *)
Lemma C7_stub_codes_counterexample :
  commandsOf (lit "^FR,5") = Some [EmptyObject]
  /\ warningsOf (lit "^FR,5") = Some []
  /\ ~ (exists node w,
           commandsOf (lit "^FR,5") = Some [node]
           /\ cmd_type node = Some (lit "GENERIC_COMMAND")
           /\ warningsOf (lit "^FR,5") = Some [w]).
Proof.
  split; [vm_compute; reflexivity|]. split; [vm_compute; reflexivity|].
  intros (node & w & _ & _ & H). vm_compute in H. discriminate H.
Qed.


(** C9.  For every source the tokenizer returns a stream in which no
    token has a smaller offset than the token before it, and which ends
    with an end-of-stream token that is the only one. *)
Theorem C9_offsets_grow_and_one_EOF :
  forall source,
    exists toks errs,
      ZplTokenizer.tokenize source = Some (toks, errs)
      /\ Monotone toks /\ OneEOF toks.
Proof.
  intros source.
  destruct (tokenize_shape source) as (toks & errs & H & Hm & Ho & _).
  exists toks, errs. auto.
Qed.

(** C10.  In the stream of every source a command code directly follows
    every command marker, so that on this stream, wherever the cursor
    is, [parseCommand] returns normally, and the errors [parse] adds to
    those of the tokenizer are never the failure of [consume].  A caret
    that no command-code character follows pushes no token: the
    tokenizer moves past it and records one error. *)
Theorem C10_marker_is_followed_by_code :
  forall source,
    (exists toks errs,
        ZplTokenizer.tokenize source = Some (toks, errs)
        /\ Paired toks
        /\ (forall current errors warnings,
               current < length toks ->
               exists r st',
                 ZplParser.parseCommand
                   (ZplParser.mkState toks current errors warnings)
                 = ZplParser.Ok r st')
        /\ (forall this,
               exists doc st' extra,
                 ZplParser.parse source this = ZplParser.Ok doc st'
                 /\ ZplDocument.errors doc = errs ++ extra
                 /\ Forall ParserLogic.Mild extra))
    /\ (forall st,
           (forall c,
               nth_error source (ZplTokenizer.position st + 1) = Some c ->
               ZplTokenizer.isCommandChar c = false) ->
           ZplTokenizer.tokenizeCommand source st
           = Some (ZplTokenizer.addError (lit "Empty command after ^")
                                         (ZplTokenizer.advance 1 st))).
Proof.
  intros source. split; [|apply tokenizeCommand_empty].
  destruct (tokenize_shape source) as (toks & errs & H & _ & Ho & Hp).
  exists toks, errs. split; [exact H|]. split; [exact Hp|]. split.
  - intros current errors warnings Hc.
    apply parseCommand_returns; [|exact Hp].
    split; [exact (proj1 (OneEOF_nonempty _ Ho)) | exact Hc].
  - intros this.
    destruct (parse_total source this)
      as (toks' & errs' & doc & st' & Ht & Hpa & _ & He & _ & Hev).
    rewrite H in Ht. injection Ht as <- <-.
    destruct Hev as [_ (extra & Hx & Hm)]. simpl in Hx.
    exists doc, st', extra. rewrite He. auto.
Qed.

(** C10 on [^ x]: a caret that a space follows. *)
Lemma C10_marker_witness :
  ZplTokenizer.tokenizeCommand (lit "^ x") (ZplTokenizer.mkState 0 1 1 [] [])
  = Some (ZplTokenizer.mkState
            1 1 2 []
            [ParseError.mk (lit "Empty command after ^") (pos 1 2 1) ERROR
                           (lit "TOKENIZER_ERROR")]).
Proof.
  apply (proj2 (C10_marker_is_followed_by_code (lit "^ x"))
               (ZplTokenizer.mkState 0 1 1 [] [])).
  intros c H. injection H as <-. reflexivity.
Defined.

(** * Further properties of the code *)

Lemma stream_token (source : str) (pre : list Token.t) (eof t : Token.t) :
  Forall (Faithful source) pre -> Token.type eof = EOF ->
  In t (pre ++ [eof]) -> Token.type t <> EOF -> Faithful source t.
Proof.
  intros Hf He Hin Hne. apply in_app_or in Hin. destruct Hin as [Hin|Hin].
  - rewrite Forall_forall in Hf. apply Hf; exact Hin.
  - destruct Hin as [<-|[]]. congruence.
Qed.

(** X1.  A command-code token is never empty; it is the longest run of
    the characters [A-Z], [0-9] and [@] that stands in the source right
    behind the caret at the offset of the token. *)
Theorem X1_command_code_is_longest_run :
  forall source,
    exists toks errs,
      ZplTokenizer.tokenize source = Some (toks, errs)
      /\ forall t,
          In t toks -> Token.type t = COMMAND_CODE ->
          Token.value t <> []
          /\ nth_error source (offsetOf t) = Some ch_caret
          /\ Token.value t
             = textAt source (offsetOf t + 1) (length (Token.value t))
          /\ Forall (fun c => ZplTokenizer.isCommandChar c = true)
                    (Token.value t)
          /\ (forall c,
                 nth_error source (offsetOf t + 1 + length (Token.value t))
                 = Some c ->
                 ZplTokenizer.isCommandChar c = false).
Proof.
  intros source.
  destruct (tokenize_good source)
    as (pre & eof & errs & H & Hf & _ & _ & He & _).
  exists (pre ++ [eof]), errs. split; [exact H|].
  intros t Hin Ht.
  assert (Hne : Token.type t <> EOF) by congruence.
  destruct (stream_token _ _ _ _ Hf He Hin Hne) as [_ Hfa].
  rewrite Ht in Hfa. tauto.
Qed.

(** X2.  A parameter token is never empty and holds no comma, caret,
    newline or white space; it is the text of the source at its offset,
    and the source ends behind it or goes on with one of these
    characters. *)
Theorem X2_parameter_is_source_text :
  forall source,
    exists toks errs,
      ZplTokenizer.tokenize source = Some (toks, errs)
      /\ forall t,
          In t toks -> Token.type t = PARAMETER ->
          Token.value t <> []
          /\ Token.value t
             = textAt source (offsetOf t) (length (Token.value t))
          /\ Forall (fun c => separator c = false) (Token.value t)
          /\ (forall c,
                 nth_error source (offsetOf t + length (Token.value t))
                 = Some c ->
                 separator c = true).
Proof.
  intros source.
  destruct (tokenize_good source)
    as (pre & eof & errs & H & Hf & _ & _ & He & _).
  exists (pre ++ [eof]), errs. split; [exact H|].
  intros t Hin Ht.
  assert (Hne : Token.type t <> EOF) by congruence.
  destruct (stream_token _ _ _ _ Hf He Hin Hne) as [_ Hfa].
  rewrite Ht in Hfa. tauto.
Qed.

(** X3.  A comment token stands on a slash of the source, whatever
    follows the slash: its value is [//] and then the text from the
    second character behind the slash up to the end of the line, so that
    the character right behind the slash is not in it, and a comment
    never holds a newline. *)
Theorem X3_comment_is_rest_of_line :
  forall source,
    exists toks errs,
      ZplTokenizer.tokenize source = Some (toks, errs)
      /\ forall t,
          In t toks -> Token.type t = COMMENT ->
          nth_error source (offsetOf t) = Some ch_slash
          /\ exists body,
              Token.value t = lit "//" ++ body
              /\ body = textAt source (offsetOf t + 2) (length body)
              /\ Forall (fun c => c <> ch_newline) body
              /\ (forall c,
                     nth_error source (offsetOf t + 2 + length body)
                     = Some c ->
                     c = ch_newline).
Proof.
  intros source.
  destruct (tokenize_good source)
    as (pre & eof & errs & H & Hf & _ & _ & He & _).
  exists (pre ++ [eof]), errs. split; [exact H|].
  intros t Hin Ht.
  assert (Hne : Token.type t <> EOF) by congruence.
  destruct (stream_token _ _ _ _ Hf He Hin Hne) as [_ Hfa].
  rewrite Ht in Hfa. exact Hfa.
Qed.

(** X4.  A marker token stands on a caret and a NEWLINE token on a
    newline of the source; no token has the type STRING_CONTENT; [raw]
    equals [value] on every token but the last; the offset of the final
    token is the length of the source or one more. *)
Theorem X4_markers_newlines_and_end :
  forall source,
    exists pre eof errs,
      ZplTokenizer.tokenize source = Some (pre ++ [eof], errs)
      /\ Token.type eof = EOF
      /\ length source <= offsetOf eof <= length source + 1
      /\ forall t,
          In t pre ->
          Token.raw t = Token.value t
          /\ Token.type t <> STRING_CONTENT
          /\ (Token.type t = COMMAND_START ->
              Token.value t = [ch_caret]
              /\ nth_error source (offsetOf t) = Some ch_caret)
          /\ (Token.type t = NEWLINE ->
              Token.value t = [ch_newline]
              /\ nth_error source (offsetOf t) = Some ch_newline).
Proof.
  intros source.
  destruct (tokenize_good source)
    as (pre & eof & errs & H & Hf & _ & _ & He & Ho).
  exists pre, eof, errs. split; [exact H|]. split; [exact He|].
  split; [exact Ho|]. intros t Hin.
  rewrite Forall_forall in Hf. destruct (Hf t Hin) as [Hr Hfa].
  split; [exact Hr|].
  destruct (Token.type t); try contradiction;
    repeat split; try discriminate; tauto.
Qed.

(** X5.  Every error of the tokenizer is an ERROR with the code
    TOKENIZER_ERROR and points into the source: "Empty command" stands
    right behind a caret, where the source ends or goes on with a
    character that is not a command-code character; "Unexpected
    character" stands on the character it names, which is no caret,
    newline, slash or white space. *)
Theorem X5_lexical_errors_point_into_source :
  forall source,
    exists toks errs,
      ZplTokenizer.tokenize source = Some (toks, errs)
      /\ Forall (LexicalError source) errs.
Proof.
  intros source.
  destruct (tokenize_good source)
    as (pre & eof & errs & H & _ & Hl & _).
  exists (pre ++ [eof]), errs. auto.
Qed.

(** X6.  The line of a token is one more than the number of NEWLINE
    tokens before it, and its column counts from the offset behind the
    last of them (from offset 0 on the first line); a command code has
    the offset of its marker and the column behind it. *)
Theorem X6_lines_and_columns_follow_newlines :
  forall source,
    exists toks errs,
      ZplTokenizer.tokenize source = Some (toks, errs)
      /\ WellLocated toks.
Proof.
  intros source.
  destruct (tokenize_good source)
    as (pre & eof & errs & H & _ & _ & Hw & _).
  exists (pre ++ [eof]), errs. auto.
Qed.

(** X7.  On a slash the tokenizer always scans a line comment, also
    when a star follows: [peek()] returns the character under the
    cursor, so the test for a block comment never holds and
    [tokenizeBlockComment] is never called. *)
Theorem X7_slash_opens_line_comment :
  forall source st c,
    nth_error source (ZplTokenizer.position st) = Some c ->
    (c = ch_slash ->
     ZplTokenizer.tokenize_step source c st
     = ZplTokenizer.tokenizeLineComment source st)
    /\ (c =? ch_slash)%N
       && str_eqb (ZplTokenizer.peek source 1 st) (lit "*") = false.
Proof.
  intros source st c H. split.
  - intros ->. apply slash_is_line_comment; exact H.
  - rewrite (peek_1 _ _ _ H).
    destruct (c =? ch_slash)%N eqn:E; [|reflexivity].
    apply N.eqb_eq in E. subst c. reflexivity.
Qed.

(** X7 on a block comment. *)
Lemma X7_slash_witness :
  ZplTokenizer.tokenize_step (lit "/*a*/") ch_slash
                             (ZplTokenizer.mkState 0 1 1 [] [])
  = ZplTokenizer.tokenizeLineComment (lit "/*a*/")
                                     (ZplTokenizer.mkState 0 1 1 [] []).
Proof.
  exact (proj1 (X7_slash_opens_line_comment
                  (lit "/*a*/") (ZplTokenizer.mkState 0 1 1 [] [])
                  ch_slash eq_refl) eq_refl).
Defined.

(** X8.  [parseParameters] returns the values of the parameter tokens
    that stand at the cursor, as many as there are in a row, moves the
    cursor behind them and records nothing; the token it stops on is not
    a parameter. *)
Theorem X8_parseParameters_takes_the_run :
  forall st,
    ParserLogic.Inv st ->
    ZplParser.parseParameters st
    = ZplParser.Ok (ParserLogic.parametersAt st)
                   (ParserLogic.skip
                      (length (ParserLogic.parametersAt st)) st)
    /\ (exists ps,
           firstn (length (ParserLogic.parametersAt st))
                  (skipn (ZplParser.current st) (ZplParser.tokens st)) = ps
           /\ ParserLogic.parametersAt st = map Token.value ps
           /\ Forall (fun p => Token.type p = PARAMETER) ps)
    /\ (forall t,
           ParserLogic.cur
             (ParserLogic.skip (length (ParserLogic.parametersAt st)) st)
           = Some t ->
           Token.type t <> PARAMETER).
Proof.
  intros st Hi. split; [apply parseParameters_eq; exact Hi|]. split.
  - apply takeParameters_tokens.
  - intros t Ht. unfold ParserLogic.cur in Ht. simpl in Ht.
    rewrite <- nth_error_skipn in Ht.
    exact (takeParameters_stop _ _ Ht).
Qed.

(** X8 behind the code of [^LH abc]. *)
Lemma X8_parseParameters_witness :
  ZplParser.parseParameters homeState
  = ZplParser.Ok [lit "abc"]
                 (ZplParser.mkState (ZplParser.tokens homeState) 3 [] []).
Proof.
  assert (Hi : ParserLogic.Inv homeState).
  { split.
    - exists [tok COMMAND_START "^" 0; tok COMMAND_CODE "LH" 0;
              tok PARAMETER "abc" 4], (tok EOF "EOF" 7).
      split; reflexivity.
    - apply Nat.ltb_lt; reflexivity. }
  exact (proj1 (X8_parseParameters_takes_the_run homeState Hi)).
Defined.

(** X9.  On a token that is no command marker and not the final one,
    [parseCommand] returns [null] and moves the cursor by one token; it
    records nothing. *)
Theorem X9_other_tokens_are_skipped :
  forall st t,
    ParserLogic.cur st = Some t ->
    Token.type t <> COMMAND_START -> Token.type t <> EOF ->
    ZplParser.parseCommand st = ZplParser.Ok None (ParserLogic.bump st).
Proof. exact parseCommand_skip. Qed.

(** X9 on a NEWLINE token. *)
Lemma X9_other_tokens_witness :
  ZplParser.parseCommand lineEndState
  = ZplParser.Ok None
                 (ZplParser.mkState (ZplParser.tokens lineEndState) 1 [] []).
Proof.
  refine (X9_other_tokens_are_skipped lineEndState (tok NEWLINE "n" 0)
                                      eq_refl _ _);
    simpl; discriminate.
Defined.

(** X10.  The nodes of a document come one by one, in their order, from
    pairs of a command marker and the command code behind it, taken at
    increasing places of the token stream.  The [type] of a node is
    fixed by the code alone; a node is the empty object of a stub, or
    its [command] is the code, its [raw] the caret and the code, and its
    [position] the position of the marker. *)
Theorem X10_nodes_come_from_markers_in_order :
  forall source this,
    exists toks errs doc st',
      ZplTokenizer.tokenize source = Some (toks, errs)
      /\ ZplParser.parse source this = ZplParser.Ok doc st'
      /\ ParserEffects.Nodes toks 0 (ZplDocument.commands doc).
Proof.
  intros source this.
  destruct (parse_effect source this)
    as (toks & errs & doc & st' & Ht & Hp & Hn & _).
  exists toks, errs, doc, st'. auto.
Qed.

(** X11.  The errors of a document are the errors of the tokenizer and,
    behind them, the errors of its nodes in the order of the nodes: one
    for every LH or FO node with fewer than two parameters, placed on
    the marker of the command, and none for any other node. *)
Theorem X11_errors_are_those_of_LH_and_FO_nodes :
  forall source this,
    exists toks errs doc st',
      ZplTokenizer.tokenize source = Some (toks, errs)
      /\ ZplParser.parse source this = ZplParser.Ok doc st'
      /\ ZplDocument.errors doc
         = errs ++ flat_map nodeErrors (ZplDocument.commands doc).
Proof.
  intros source this.
  destruct (parse_effect source this)
    as (toks & errs & doc & st' & Ht & Hp & _ & He & _).
  exists toks, errs, doc, st'. auto.
Qed.

(** X12.  The warnings of a document are, in the order of the nodes,
    one "Unsupported command" warning that names the code for every
    generic node, and no other. *)
Theorem X12_one_warning_for_each_generic_node :
  forall source this,
    exists doc st',
      ZplParser.parse source this = ZplParser.Ok doc st'
      /\ map ParseWarning.message (ZplDocument.warnings doc)
         = flat_map nodeWarnings (ZplDocument.commands doc).
Proof.
  intros source this.
  destruct (parse_effect source this)
    as (toks & errs & doc & st' & Ht & Hp & _ & _ & Hw & _).
  exists doc, st'. auto.
Qed.

(** X13.  The nodes of a document stand in the order of the source: the
    offsets of their positions never decrease along the list. *)
Theorem X13_nodes_in_source_order :
  forall source this,
    exists doc st',
      ZplParser.parse source this = ZplParser.Ok doc st'
      /\ StronglySorted le (nodeOffsets (ZplDocument.commands doc)).
Proof.
  intros source this.
  destruct (parse_effect source this)
    as (toks & errs & doc & st' & Ht & Hp & Hn & _).
  destruct (tokenize_shape source) as (toks' & errs' & Ht' & Hm & _).
  rewrite Ht in Ht'. injection Ht' as <- <-.
  exists doc, st'. split; [exact Hp|].
  eapply Nodes_sorted; eauto.
Qed.

(** X14.  From a token that is not the final one, [synchronize] moves
    the cursor forward to the first place behind it that is the final
    token, stands behind a NEWLINE token or is a command marker; it
    changes neither the tokens nor the errors nor the warnings. *)
Theorem X14_synchronize_stops_at_first_restart_point :
  forall st t,
    ParserLogic.Inv st -> ParserLogic.cur st = Some t ->
    Token.type t <> EOF ->
    exists u st',
      ZplParser.synchronize st = ZplParser.Ok u st'
      /\ ZplParser.tokens st' = ZplParser.tokens st
      /\ ZplParser.errors st' = ZplParser.errors st
      /\ ZplParser.warnings st' = ZplParser.warnings st
      /\ ZplParser.current st < ZplParser.current st'
         < length (ZplParser.tokens st)
      /\ ParserEffects.restartPoint (ZplParser.tokens st)
                                    (ZplParser.current st') = true
      /\ forall j,
          ZplParser.current st < j < ZplParser.current st' ->
          ParserEffects.restartPoint (ZplParser.tokens st) j = false.
Proof.
  intros st t Hi Ht Hne.
  pose proof (synchronize_stops st t Hi Ht Hne) as H.
  apply wp_Ok in H. destruct H as (u & st' & H & Hrest).
  exists u, st'. split; [exact H | exact Hrest].
Qed.

(** X14 behind a marker without code: the cursor goes from the first
    parameter to the token behind the line end. *)
Lemma X14_synchronize_witness :
  exists u st',
    ZplParser.synchronize lostState = ZplParser.Ok u st'
    /\ ZplParser.tokens st' = ZplParser.tokens lostState
    /\ ZplParser.errors st' = ZplParser.errors lostState
    /\ ZplParser.warnings st' = ZplParser.warnings lostState
    /\ ZplParser.current lostState < ZplParser.current st'
       < length (ZplParser.tokens lostState)
    /\ ParserEffects.restartPoint (ZplParser.tokens lostState)
                                  (ZplParser.current st') = true
    /\ forall j,
        ZplParser.current lostState < j < ZplParser.current st' ->
        ParserEffects.restartPoint (ZplParser.tokens lostState) j = false.
Proof.
  refine (X14_synchronize_stops_at_first_restart_point
            lostState (tok PARAMETER "x" 1) _ eq_refl _).
  - split.
    + exists [tok COMMAND_START "^" 0; tok PARAMETER "x" 1;
              tok PARAMETER "y" 3; tok NEWLINE "n" 4; tok PARAMETER "z" 5],
             (tok EOF "EOF" 6).
      split; reflexivity.
    + apply Nat.ltb_lt; reflexivity.
  - simpl; discriminate.
Defined.

(** X15.  [parseFieldData] takes the parameter token under the cursor,
    if there is one, as the content.  When [^FS] stands right behind
    it, these two tokens are consumed as well and [stopCommand] is
    true; when anything but a marker stands there, such as a second
    parameter, [stopCommand] is false and nothing more is consumed.
    Without a parameter and with [^FS] at once the content is empty and
    [stopCommand] is true. *)
Theorem X15_field_data_and_field_stop :
  (forall s c st p m f,
      ParserLogic.Inv st ->
      ParserLogic.cur st = Some p -> Token.type p = PARAMETER ->
      nth_error (ZplParser.tokens st) (ZplParser.current st + 1) = Some m ->
      Token.type m = COMMAND_START ->
      nth_error (ZplParser.tokens st) (ZplParser.current st + 2) = Some f ->
      Token.type f = COMMAND_CODE -> Token.value f = lit "FS" ->
      ZplParser.parseFieldData (Some s) (Some c) st
      = ZplParser.Ok
          (FieldData (lit "^" ++ Token.value c) (Token.position s)
                     (Token.value p) true)
          (ParserLogic.skip 3 st))
  /\ (forall s c st p q,
         ParserLogic.Inv st ->
         ParserLogic.cur st = Some p -> Token.type p = PARAMETER ->
         nth_error (ZplParser.tokens st) (ZplParser.current st + 1)
         = Some q ->
         Token.type q <> COMMAND_START ->
         ZplParser.parseFieldData (Some s) (Some c) st
         = ZplParser.Ok
             (FieldData (lit "^" ++ Token.value c) (Token.position s)
                        (Token.value p) false)
             (ParserLogic.skip 1 st))
  /\ (forall s c st m f,
         ParserLogic.Inv st ->
         ParserLogic.cur st = Some m -> Token.type m = COMMAND_START ->
         nth_error (ZplParser.tokens st) (ZplParser.current st + 1)
         = Some f ->
         Token.type f = COMMAND_CODE -> Token.value f = lit "FS" ->
         ZplParser.parseFieldData (Some s) (Some c) st
         = ZplParser.Ok
             (FieldData (lit "^" ++ Token.value c) (Token.position s) []
                        true)
             (ParserLogic.skip 2 st)).
Proof.
  split; [exact parseFieldData_content_stop|].
  split; [exact parseFieldData_content_only
         | exact parseFieldData_empty_stop].
Qed.

(** X15 behind the code of [^FD Hello^FS]. *)
Lemma X15_field_data_witness :
  ZplParser.parseFieldData
    (Some (tok COMMAND_START "^" 0)) (Some (tok COMMAND_CODE "FD" 0))
    fieldDataState
  = ZplParser.Ok
      (FieldData (lit "^FD") (pos 1 1 0) (lit "Hello") true)
      (ZplParser.mkState (ZplParser.tokens fieldDataState) 5 [] []).
Proof.
  refine (proj1 X15_field_data_and_field_stop
                (tok COMMAND_START "^" 0) (tok COMMAND_CODE "FD" 0)
                fieldDataState (tok PARAMETER "Hello" 4)
                (tok COMMAND_START "^" 9) (tok COMMAND_CODE "FS" 9)
                _ eq_refl eq_refl eq_refl eq_refl eq_refl eq_refl eq_refl).
  split.
  - exists [tok COMMAND_START "^" 0; tok COMMAND_CODE "FD" 0;
            tok PARAMETER "Hello" 4; tok COMMAND_START "^" 9;
            tok COMMAND_CODE "FS" 9], (tok EOF "EOF" 12).
    split; reflexivity.
  - apply Nat.ltb_lt; reflexivity.
Defined.

(** X16.  [parseBarcode] looks for its payload right behind its
    parameters.  When [^FD] and a parameter stand there, the three
    tokens are consumed and the parameter is the payload, so that this
    FD gives no node of its own.  When anything but a marker stands
    there, such as the NEWLINE token of a line end, the payload is empty
    and nothing more is consumed.  In both cases nothing is recorded. *)
Theorem X16_barcode_payload_lookahead :
  (forall s c st m f d,
      ParserLogic.Inv st ->
      nth_error (ZplParser.tokens st)
                (ZplParser.current st
                 + length (ParserLogic.parametersAt st)) = Some m ->
      Token.type m = COMMAND_START ->
      nth_error (ZplParser.tokens st)
                (ZplParser.current st
                 + length (ParserLogic.parametersAt st) + 1) = Some f ->
      Token.type f = COMMAND_CODE -> Token.value f = lit "FD" ->
      nth_error (ZplParser.tokens st)
                (ZplParser.current st
                 + length (ParserLogic.parametersAt st) + 2) = Some d ->
      Token.type d = PARAMETER ->
      ZplParser.parseBarcode (Some s) (Some c) st
      = ZplParser.Ok
          (barcodeNode s c (ParserLogic.parametersAt st) (Token.value d))
          (ParserLogic.skip (length (ParserLogic.parametersAt st) + 3) st))
  /\ (forall s c st t,
         ParserLogic.Inv st ->
         nth_error (ZplParser.tokens st)
                   (ZplParser.current st
                    + length (ParserLogic.parametersAt st)) = Some t ->
         Token.type t <> COMMAND_START ->
         ZplParser.parseBarcode (Some s) (Some c) st
         = ZplParser.Ok
             (barcodeNode s c (ParserLogic.parametersAt st) [])
             (ParserLogic.skip (length (ParserLogic.parametersAt st)) st)).
Proof. split; [exact parseBarcode_data | exact parseBarcode_no_data]. Qed.

(** X16 behind the code of [^BC N^FD 123]. *)
Lemma X16_barcode_witness :
  ZplParser.parseBarcode
    (Some (tok COMMAND_START "^" 0)) (Some (tok COMMAND_CODE "BC" 0))
    barcodeState
  = ZplParser.Ok
      (Barcode (lit "BC") (lit "^BC") (pos 1 1 0) OrientN 10 true false
               None (lit "123") [lit "N"])
      (ZplParser.mkState (ZplParser.tokens barcodeState) 6 [] []).
Proof.
  refine (proj1 X16_barcode_payload_lookahead
                (tok COMMAND_START "^" 0) (tok COMMAND_CODE "BC" 0)
                barcodeState (tok COMMAND_START "^" 5)
                (tok COMMAND_CODE "FD" 5) (tok PARAMETER "123" 9)
                _ eq_refl eq_refl eq_refl eq_refl eq_refl eq_refl eq_refl).
  split.
  - exists [tok COMMAND_START "^" 0; tok COMMAND_CODE "BC" 0;
            tok PARAMETER "N" 4; tok COMMAND_START "^" 5;
            tok COMMAND_CODE "FD" 5; tok PARAMETER "123" 9],
           (tok EOF "EOF" 12).
    split; reflexivity.
  - apply Nat.ltb_lt; reflexivity.
Defined.

(** X17.  On an engine that accepts [maxArguments] arguments in one
    call, and for field-origin nodes whose [x] are whole numbers between
    [-2^53] and [2^53 - 100], [calculateLabelWidth] does one of three
    things, none of which changes the parser.  It returns [undefined],
    exactly when the list has no field-origin node.  It throws a
    [RangeError], exactly when the list has more than [maxArguments]
    field-origin nodes.  Otherwise it returns 100 more than the [x] of
    one of the field-origin nodes, and no field-origin node has a
    greater [x]. *)
Theorem X17_label_width_is_greatest_x_plus_100 :
  forall maxArguments commands st,
    (forall raw p x y ps,
        In (FieldOrigin raw p x y ps) commands -> SafeCoordinate x) ->
    match ZplParser.calculateLabelWidthOn maxArguments commands st with
    | ZplParser.Ok None st' =>
        st' = st
        /\ forall raw p x y ps, ~ In (FieldOrigin raw p x y ps) commands
    | ZplParser.Ok (Some w) st' =>
        st' = st
        /\ 0 < length (ZplParser.fieldOriginXs commands) <= maxArguments
        /\ (exists raw p x y ps,
               In (FieldOrigin raw p x y ps) commands /\ w = (x + 100)%Z)
        /\ (forall raw p x y ps,
               In (FieldOrigin raw p x y ps) commands -> (x + 100 <= w)%Z)
    | ZplParser.Throw e st' =>
        e = ZplParser.RangeError /\ st' = st
        /\ maxArguments < length (ZplParser.fieldOriginXs commands)
    | ZplParser.OutOfFuel => False
    end.
Proof.
  intros maxArguments commands st _.
  unfold ZplParser.calculateLabelWidthOn.
  destruct (ZplParser.fieldOriginXs commands) as [|x xs] eqn:E.
  - cbn. split; [reflexivity|]. intros raw p x y ps Hin.
    assert (H : In x (ZplParser.fieldOriginXs commands))
      by (apply In_fieldOriginXs; eauto).
    rewrite E in H. exact H.
  - destruct (maxArguments <? length (x :: xs)) eqn:L.
    + cbn. apply Nat.ltb_lt in L. auto.
    + cbn. apply Nat.ltb_ge in L.
      split; [reflexivity|]. split; [simpl in *; lia|]. split.
      * pose proof (fold_max_in xs x) as Hin. rewrite <- E in Hin.
        apply In_fieldOriginXs in Hin.
        destruct Hin as (raw & p & y & ps & Hin).
        exists raw, p, (fold_left Z.max xs x), y, ps. auto.
      * intros raw p x' y ps Hin.
        assert (H : In x' (x :: xs))
          by (rewrite <- E; apply In_fieldOriginXs; eauto).
        destruct (fold_max_ge xs x) as [H1 H2].
        destruct H as [<-|H]; [lia|].
        rewrite Forall_forall in H2. specialize (H2 x' H). lia.
Qed.

(** X17 on the field origins [50] and [300], on an engine that accepts
    1000 arguments: the width is 400. *)
Lemma X17_label_width_witness :
  (forall raw p x y ps,
      In (FieldOrigin raw p x y ps) originCommands -> SafeCoordinate x)
  /\ ZplParser.calculateLabelWidthOn 1000 originCommands ZplParser.fresh
     = ZplParser.Ok (Some 400%Z) ZplParser.fresh
  /\ ZplParser.fresh = ZplParser.fresh
  /\ 0 < length (ZplParser.fieldOriginXs originCommands) <= 1000
  /\ (exists raw p x y ps,
         In (FieldOrigin raw p x y ps) originCommands
         /\ 400%Z = (x + 100)%Z)
  /\ (forall raw p x y ps,
         In (FieldOrigin raw p x y ps) originCommands ->
         (x + 100 <= 400)%Z).
Proof.
  assert (H : forall raw p x y ps,
             In (FieldOrigin raw p x y ps) originCommands ->
             SafeCoordinate x).
  { intros raw p x y ps [Hin|[Hin|[Hin|[]]]]; try discriminate Hin;
      injection Hin as _ _ <- _ _; unfold SafeCoordinate; simpl; lia. }
  split; [exact H|]. split; [reflexivity|].
  exact (X17_label_width_is_greatest_x_plus_100
           1000 originCommands ZplParser.fresh H).
Defined.

(** X18.  [calculateLabelLength] is the [length] of the first
    label-length node of the list, and undefined when there is none. *)
Theorem X18_label_length_is_first_LL :
  forall commands,
    match ZplParser.calculateLabelLength commands with
    | Some l =>
        exists pre raw p ps post,
          commands = pre ++ LabelLength raw p l ps :: post
          /\ Forall (fun n => cmd_type n <> Some (lit "LABEL_LENGTH")) pre
    | None =>
        Forall (fun n => cmd_type n <> Some (lit "LABEL_LENGTH")) commands
    end.
Proof. exact calculateLabelLength_first. Qed.

(** X19.  [validateCommand] finds a field-origin node valid exactly when
    [x] is between 0 and 2000 and [y] between 0 and 6000, a barcode node
    exactly when its height is between 1 and 1000, and every other node
    valid; [isValid] holds exactly when the list of errors is empty. *)
Theorem X19_validateCommand_accepts_the_ranges :
  forall command,
    (ZplUtils.isValid (ZplUtils.validateCommand command) = true
     <-> ZplUtils.InRange command)
    /\ (ZplUtils.isValid (ZplUtils.validateCommand command) = true
        <-> ZplUtils.errors (ZplUtils.validateCommand command) = []).
Proof.
  intros command. split.
  - destruct command; simpl; try tauto.
    + rewrite !Z.gtb_ltb.
      destruct (Z.ltb_spec x 0), (Z.ltb_spec y 0), (Z.ltb_spec 2000 x),
        (Z.ltb_spec 6000 y); simpl; split; intros; try discriminate;
        try reflexivity; lia.
    + rewrite !Z.gtb_ltb.
      destruct (Z.ltb_spec height 1), (Z.ltb_spec 1000 height); simpl;
        split; intros; try discriminate; try reflexivity; lia.
  - unfold ZplUtils.validateCommand. simpl.
    destruct (ZplUtils.validationErrors command); simpl;
      split; intros; try discriminate; reflexivity.
Qed.

(** X20.  For every barcode node of a document,
    [interpretBarcodeParams] names one of the three symbologies and
    never "UNKNOWN". *)
Theorem X20_barcode_nodes_have_a_known_symbology :
  forall source this,
    exists doc st',
      ZplParser.parse source this = ZplParser.Ok doc st'
      /\ forall node,
          In node (ZplDocument.commands doc) ->
          cmd_type node = Some (lit "BARCODE") ->
          let type :=
            ZplUtils.type (ZplUtils.interpretBarcodeParams node) in
          type = lit "Code 128" \/ type = lit "Code 39"
          \/ type = lit "Interleaved 2 of 5".
Proof.
  intros source this.
  destruct (parse_effect source this)
    as (toks & errs & doc & st' & Ht & Hp & Hn & _).
  exists doc, st'. split; [exact Hp|].
  intros node Hin Hty.
  destruct (Nodes_In _ _ _ _ Hn Hin)
    as (i & s & c & _ & _ & _ & _ & Hk & Hb).
  rewrite Hty in Hk. symmetry in Hk. apply kindOfCode_barcode in Hk.
  destruct Hb as [-> | (Hcmd & _)]; [discriminate Hty|].
  unfold ZplUtils.interpretBarcodeParams. cbn [ZplUtils.type].
  rewrite Hcmd.
  destruct Hk as [-> | [-> | ->]]; vm_compute; auto.
Qed.

(** X21.  The [command] of a node is the whole run of command-code
    characters behind the caret at which the node is placed: the caret
    stands in the source at the offset of the node, the command is the
    source text after it, it is not empty and made of command-code
    characters only, and the character behind it, if there is one, is
    not a command-code character. *)
Theorem X21_node_command_is_the_whole_code_run :
  forall source this,
    exists doc st',
      ZplParser.parse source this = ZplParser.Ok doc st'
      /\ forall node command p,
          In node (ZplDocument.commands doc) ->
          cmd_command node = Some command ->
          cmd_position node = Some p ->
          let o := SourcePosition.offset p in
          nth_error source o = Some ch_caret
          /\ command <> []
          /\ command = textAt source (o + 1) (length command)
          /\ Forall (fun c => ZplTokenizer.isCommandChar c = true) command
          /\ (forall c,
                nth_error source (o + 1 + length command) = Some c ->
                ZplTokenizer.isCommandChar c = false).
Proof.
  intros source this.
  destruct (parse_effect source this)
    as (toks & errs & doc & st' & Ht & Hp & Hn & _).
  exists doc, st'. split; [exact Hp|].
  intros node command p Hin Hcmd Hpos.
  destruct (Nodes_In _ _ _ _ Hn Hin)
    as (i & s & c & Hs & Ts & Hc & Tc & _ & Hb).
  destruct Hb as [-> | (Hcmd' & _ & Hpos')]; [discriminate Hcmd|].
  rewrite Hcmd in Hcmd'. injection Hcmd' as ->.
  rewrite Hpos in Hpos'. injection Hpos' as ->.
  destruct (tokenize_pair_offset source) as (toks1 & errs1 & Ht1 & Hoff).
  rewrite Ht in Ht1. injection Ht1 as <- <-.
  pose proof (Hoff _ _ _ Hs Ts Hc) as Ho.
  destruct (tokenize_good source)
    as (pre & eof & errs2 & Ht2 & Hf & _ & _ & Te & _).
  rewrite Ht in Ht2. injection Ht2 as -> <-.
  apply nth_error_snoc in Hc. destruct Hc as [[_ Hc]|[_ ->]];
    [|congruence].
  apply nth_error_In in Hc.
  rewrite Forall_forall in Hf. specialize (Hf _ Hc).
  destruct Hf as (_ & Hf). rewrite Tc in Hf.
  unfold offsetOf in Ho. fold (offsetOf c) in Hf.
  unfold offsetOf in Hf. rewrite Ho in Hf.
  destruct Hf as (H1 & H2 & H3 & H4 & H5).
  cbv zeta. auto.
Qed.

(** X22.  The tokenizer makes at most one token or error for each
    character of the source: the tokens, with the final EOF, and the
    errors together are at most one more than the characters. *)
Theorem X22_at_most_one_token_or_error_per_character :
  forall source,
    exists toks errs,
      ZplTokenizer.tokenize source = Some (toks, errs)
      /\ length toks + length errs <= length source + 1.
Proof.
  intros source. exact (tokenize_count source).
Qed.

(** X23.  A node takes at least two characters of the source: a
    document has at most half as many nodes as its source has
    characters. *)
Theorem X23_a_node_takes_two_characters :
  forall source this,
    exists doc st',
      ZplParser.parse source this = ZplParser.Ok doc st'
      /\ 2 * length (ZplDocument.commands doc) <= length source.
Proof.
  intros source this.
  destruct (parse_effect source this)
    as (toks & errs & doc & st' & Ht & Hp & Hn & _).
  exists doc, st'. split; [exact Hp|].
  destruct (tokenize_count source) as (toks1 & errs1 & Ht1 & Hle).
  rewrite Ht in Ht1. injection Ht1 as <- <-.
  destruct (tokenize_good source)
    as (pre & eof & errs2 & Ht2 & _ & _ & _ & Te & _).
  rewrite Ht in Ht2. injection Ht2 as -> <-.
  rewrite length_app in Hle. simpl in Hle.
  destruct (Nodes_count _ _ _ Hn) as [-> | (j & c & Hj & Tc & Hlen)];
    [simpl; lia|].
  apply nth_error_snoc in Hj. destruct Hj as [[Hlt _]|[_ ->]];
    [lia | congruence].
Qed.


(** X25.  Every character of the source is accounted for.  It lies in
    the stretch of the source that a token before the final one was
    made from; or it is a comma or white space; or the tokenizer has
    recorded an error for it: "Unexpected character" placed on it and
    naming it, or, for a caret, "Empty command after ^" placed right
    behind it. *)
Theorem X25_every_character_is_accounted_for :
  forall source,
    exists pre eof errs,
      ZplTokenizer.tokenize source = Some (pre ++ [eof], errs)
      /\ Token.type eof = EOF
      /\ forall o, o < length source -> Accounted source pre errs o.
Proof.
  intros source. exact (tokenize_cover source).
Qed.

(** X26.  On every token stream that ends with EOF, whether the
    tokenizer can produce it or not, a turn of the loop of [parse] that
    starts before the final token returns with the cursor strictly
    further, and the loop returns.  This holds also when [parseCommand]
    throws: what it throws is the failure of [consume], which is then
    the last recorded error, the cursor has already moved, and
    [synchronize] returns without moving backwards. *)
Theorem X26_every_turn_of_the_loop_advances :
  (forall commands st t,
      ParserLogic.Inv st -> ParserLogic.cur st = Some t ->
      Token.type t <> EOF ->
      exists commands' st',
        ZplParser.parse_body commands st = ZplParser.Ok commands' st'
        /\ ZplParser.current st < ZplParser.current st'
        /\ ParserLogic.Advances st st')
  /\ (forall commands st,
         ParserLogic.Inv st ->
         exists commands' st',
           ZplParser.parse_loop (S (length (ZplParser.tokens st)))
                                commands st
           = ZplParser.Ok commands' st'
           /\ ParserLogic.Advances st st')
  /\ (forall st t e st',
         ParserLogic.Inv st -> ParserLogic.cur st = Some t ->
         Token.type t <> EOF ->
         ZplParser.parseCommand st = ZplParser.Throw e st' ->
         exists err,
           e = ZplParser.ParseFailure err
           /\ ZplParser.errors st' = ZplParser.errors st ++ [err]
           /\ ZplParser.current st < ZplParser.current st'
           /\ exists u st'',
               ZplParser.synchronize st' = ZplParser.Ok u st''
               /\ ParserLogic.Advances st' st'').
Proof.
  split; [|split].
  - intros commands st t Hi Ht Hne.
    pose proof (parse_body_ok commands _ _ Hi Ht Hne) as H.
    apply wp_Ok in H. destruct H as (cs & st' & H & Ha & Hc).
    exists cs, st'. auto.
  - intros commands st Hi.
    pose proof (parse_loop_ok (S (length (ZplParser.tokens st)))
                              commands st Hi) as H.
    apply wp_Ok in H; [|lia]. exact H.
  - intros st t e st' Hi Ht Hne H.
    pose proof (parseCommand_cases _ _ Hi Ht Hne) as Hc. rewrite H in Hc.
    destruct Hc as (Ha & Hlt & _ & n & _ & _ & -> & Herr).
    eexists; split; [reflexivity|]. split; [exact Herr|].
    split; [exact Hlt|].
    pose proof (synchronize_ok st' (Advances_Inv _ _ Hi Ha)) as Hs.
    apply wp_Ok in Hs. destruct Hs as (u & st'' & Hs & Hadv). eauto.
Qed.

(** X26 on a marker that a parameter follows: [consume] throws and the
    turn of the loop ends two tokens further. *)
Lemma X26_every_turn_witness :
  ParserLogic.Inv recoveryState
  /\ ParserLogic.cur recoveryState = Some (tok COMMAND_START "^" 0)
  /\ Token.type (tok COMMAND_START "^" 0) <> EOF
  /\ exists commands' st',
      ZplParser.parse_body [] recoveryState = ZplParser.Ok commands' st'
      /\ ZplParser.current recoveryState < ZplParser.current st'
      /\ ParserLogic.Advances recoveryState st'.
Proof.
  assert (Hi : ParserLogic.Inv recoveryState).
  { split.
    - exists [tok COMMAND_START "^" 0; tok PARAMETER "x" 1],
             (tok EOF "EOF" 2).
      split; reflexivity.
    - apply Nat.ltb_lt; reflexivity. }
  assert (Hn : Token.type (tok COMMAND_START "^" 0) <> EOF)
    by (simpl; discriminate).
  split; [exact Hi|]. split; [reflexivity|]. split; [exact Hn|].
  exact (proj1 X26_every_turn_of_the_loop_advances
               [] recoveryState (tok COMMAND_START "^" 0) Hi eq_refl Hn).
Defined.
